(** * ReactPhysics3D: overlapping-pair registry and broad-phase coordinator

    A shallow embedding of [src/engine/OverlappingPairs.cpp] and
    [src/systems/BroadPhaseSystem.cpp], followed by the properties of the
    design document that are stated about them and by further properties of
    the code.

    Conventions of the embedding.
    - [uint32] and [uint64] values are binary naturals; every increment,
      decrement and product wraps at the width of the C++ type.
    - The eight parallel arrays carved out of [mBuffer] are always indexed
      together, so slot [i] of the model gathers element [i] of each array
      in one [PairData] record.
    - An operation returns [None] where the C++ code leaves defined
      behaviour: an access outside the allocated buffer, a lookup of a key
      the map does not hold, the insertion of a key the map already holds.
      Debug-only [assert]s are not part of the model: the ones that state
      invariants are proved below instead. *)

From Stdlib Require Import ZArith NArith Lia.
From stdpp Require Import base option list gmap.

Local Open Scope N_scope.

(** ** Fixed-width arithmetic *)

Abbreviation uint32 := N (only parsing).
Abbreviation uint64 := N (only parsing).
Abbreviation int32 := Z (only parsing).

Definition wrap64 (x : N) : uint64 := x mod 2 ^ 64.
Definition incr64 (x : uint64) : uint64 := wrap64 (x + 1).
Definition decr64 (x : uint64) : uint64 := wrap64 (x + (2 ^ 64 - 1)).
Definition mul64 (x y : uint64) : uint64 := wrap64 (x * y).

(** [static_cast<uint32>(int32)] *)
Definition uint32_of_int32 (z : int32) : uint32 := Z.to_N (z mod 2 ^ 32)%Z.

(** An [Entity] is identified by its 32-bit [id]. *)
Abbreviation Entity := N (only parsing).

(** ** The containers of [containers/] used by the two files

    [Map.h], [Set.h] and [List.h] are not among the sources. A [Map] is a
    finite map, a [Set] a finite set, a [List] a list. *)

(** Modelled from the spec: [Map::add] of the absent [Map.h]. Section 7 makes
    the insertion of an identity that already exists a fatal error. *)
Definition Map_add `{Countable K} {V} (k : K) (v : V) (m : gmap K V) : option (gmap K V) :=
  match m !! k with
  | Some _ => None
  | None => Some (<[k := v]> m)
  end.

(** Modelled from the spec: [Map::operator[]] of the absent [Map.h]. Section 7
    makes the lookup of an identity that is absent a fatal error. *)
Definition Map_at `{Countable K} {V} (m : gmap K V) (k : K) : option V := m !! k.

(** Modelled from the spec: [Map::remove] of the absent [Map.h]; removing a
    key that is absent is a safe no-op. *)
Definition Map_remove `{Countable K} {V} (k : K) (m : gmap K V) : gmap K V := delete k m.

(** Modelled from the spec: [Map::size] of the absent [Map.h]. *)
Definition Map_size `{Countable K} {V} (m : gmap K V) : N := N.of_nat (size m).

(** Modelled from the spec: [List::add] of the absent [List.h]; it appends. *)
Definition List_add {A} (x : A) (l : list A) : list A := l ++ [x].

(** Modelled from the spec: [List::remove(element)] of the absent [List.h];
    it drops the first occurrence, and nothing when there is none. *)
Fixpoint List_remove `{EqDecision A} (x : A) (l : list A) : list A :=
  match l with
  | [] => []
  | y :: l' => if decide (x = y) then l' else y :: List_remove x l'
  end.

(** Reading and writing element [i] of a raw array of [length b] elements. *)
Definition array_get {A} (b : list A) (i : uint64) : option A := b !! N.to_nat i.

Definition array_set {A} (b : list A) (i : uint64) (x : A) : option (list A) :=
  if (N.to_nat i <? length b)%nat then Some (<[N.to_nat i := x]> b) else None.

(** ** Proxy shapes

    What the two files read of a [ProxyShape*]: its entity, its broad-phase
    id ([-1] while the shape is not in the broad phase) and the id of the
    body it is attached to. *)
Record ProxyShape := mkProxyShape {
  getEntity : Entity;
  getBroadPhaseId : int32;
  getBodyId : N                   (* getBody()->getId() *)
}.

Module OverlappingPairs.

(** ** Data *)

Abbreviation ShapeIdPair := (N * N)%type (only parsing).

(** Modelled from the spec: [LastFrameCollisionInfo] is only forward-declared
    in the sources. The registry reads and writes its obsolescence flag alone;
    an entry that was just allocated counts as touched, so its constructor
    leaves the flag cleared. *)
Record LastFrameCollisionInfo := mkLastFrameCollisionInfo { isObsolete : bool }.

Definition newLastFrameCollisionInfo : LastFrameCollisionInfo :=
  {| isObsolete := false |}.

(** [info->isObsolete = flag]: the flag is written, the rest of the entry
    (none of it is modelled) is kept. *)
Definition setObsolete (flag : bool) (info : LastFrameCollisionInfo) : LastFrameCollisionInfo :=
  {| isObsolete := flag |}.

(** One slot of the structure-of-arrays buffer. *)
Record PairData := mkPairData {
  pairId : uint64;                (* mPairIds[i] *)
  pairBroadPhaseId1 : int32;      (* mPairBroadPhaseId1[i] *)
  pairBroadPhaseId2 : int32;      (* mPairBroadPhaseId2[i] *)
  proxyShape1 : Entity;           (* mProxyShapes1[i] *)
  proxyShape2 : Entity;           (* mProxyShapes2[i] *)
  lastFrameCollisionInfos : gmap ShapeIdPair LastFrameCollisionInfo;
                                  (* mLastFrameCollisionInfos[i] *)
  needToTestOverlap : bool;       (* mNeedToTestOverlap[i] *)
  isActive : bool                 (* mIsActive[i] *)
}.

(** Memory handed out by the allocator and not yet constructed. *)
Definition rawPairData : PairData :=
  mkPairData 0 0%Z 0%Z 0 0 ∅ false false.

Definition withLastFrameCollisionInfos
    (m : gmap ShapeIdPair LastFrameCollisionInfo) (p : PairData) : PairData :=
  mkPairData (pairId p) (pairBroadPhaseId1 p) (pairBroadPhaseId2 p)
             (proxyShape1 p) (proxyShape2 p) m (needToTestOverlap p) (isActive p).

Record state := mkState {
  mNbPairs : uint64;
  mConcavePairsStartIndex : uint64;
  mNbAllocatedPairs : uint64;
  mBuffer : list PairData;
  mMapPairIdToPairIndex : gmap uint64 uint64;
  (* ProxyShapeComponents::getOverlappingPairs, per proxy-shape entity *)
  mOverlappingPairsOfShape : gmap Entity (list uint64)
}.

Definition withNbPairs (n : uint64) (s : state) : state :=
  mkState n (mConcavePairsStartIndex s) (mNbAllocatedPairs s) (mBuffer s)
          (mMapPairIdToPairIndex s) (mOverlappingPairsOfShape s).

Definition withConcavePairsStartIndex (c : uint64) (s : state) : state :=
  mkState (mNbPairs s) c (mNbAllocatedPairs s) (mBuffer s)
          (mMapPairIdToPairIndex s) (mOverlappingPairsOfShape s).

Definition withBuffer (b : list PairData) (s : state) : state :=
  mkState (mNbPairs s) (mConcavePairsStartIndex s) (mNbAllocatedPairs s) b
          (mMapPairIdToPairIndex s) (mOverlappingPairsOfShape s).

Definition withMap (m : gmap uint64 uint64) (s : state) : state :=
  mkState (mNbPairs s) (mConcavePairsStartIndex s) (mNbAllocatedPairs s) (mBuffer s)
          m (mOverlappingPairsOfShape s).

Definition withOverlappingPairsOfShape (o : gmap Entity (list uint64)) (s : state) : state :=
  mkState (mNbPairs s) (mConcavePairsStartIndex s) (mNbAllocatedPairs s) (mBuffer s)
          (mMapPairIdToPairIndex s) o.

(** Modelled from the spec: the component store is not among the sources. It
    keeps, for every proxy shape, the list of the pair ids the shape takes
    part in; a shape without pairs has the empty list. *)
Definition getOverlappingPairs (s : state) (e : Entity) : list uint64 :=
  default [] (mOverlappingPairsOfShape s !! e).

Definition setOverlappingPairs (e : Entity) (l : list uint64) (s : state) : state :=
  withOverlappingPairsOfShape (<[e := l]> (mOverlappingPairsOfShape s)) s.

Section Registry.

(** What the registry takes from its collaborators and from its header. *)

(** [mProxyShapeComponents.getCollisionShape(e)->isConvex()] *)
Variable isConvex : Entity → bool.

(** [pairNumbers] of [containers_common.h], the pairing function of two
    32-bit numbers given larger first. *)
Variable pairNumbers : uint32 → uint32 → uint64.

(** The constant [INIT_NB_ALLOCATED_PAIRS] of [OverlappingPairs.h]. *)
Variable INIT_NB_ALLOCATED_PAIRS : uint32.

(** ** Operations *)

(** [OverlappingPairs::allocate]: a fresh buffer of [nbPairsToAllocate]
    slots whose first [mNbPairs] slots are copied from the old one. Copying
    more slots than the new or the old buffer holds is outside defined
    behaviour. *)
Definition allocate (nbPairsToAllocate : uint64) (s : state) : option state :=
  if nbPairsToAllocate <? mNbPairs s then None
  else if N.of_nat (length (mBuffer s)) <? mNbPairs s then None
  else
    let newBuffer :=
      take (N.to_nat (mNbPairs s)) (mBuffer s)
      ++ replicate (N.to_nat (nbPairsToAllocate - mNbPairs s)) rawPairData in
    Some (mkState (mNbPairs s) (mConcavePairsStartIndex s) nbPairsToAllocate newBuffer
                  (mMapPairIdToPairIndex s) (mOverlappingPairsOfShape s)).

(** The constructor. *)
Definition create : option state :=
  allocate INIT_NB_ALLOCATED_PAIRS (mkState 0 0 0 [] ∅ ∅).

(** [OverlappingPairs::destroyPair] *)
Definition destroyPair (index : uint64) (s : state) : option state :=
  p ← array_get (mBuffer s) index;
  let s1 := withMap (Map_remove (pairId p) (mMapPairIdToPairIndex s)) s in
  b ← array_set (mBuffer s1) index (withLastFrameCollisionInfos ∅ p);
  Some (withBuffer b s1).

(** [OverlappingPairs::movePairToIndex] *)
Definition movePairToIndex (srcIndex destIndex : uint64) (s : state) : option state :=
  src ← array_get (mBuffer s) srcIndex;
  let pairId := pairId src in
  b ← array_set (mBuffer s) destIndex src;
  s1 ← destroyPair srcIndex (withBuffer b s);
  m ← Map_add pairId destIndex (mMapPairIdToPairIndex s1);
  Some (withMap m s1).

(** [OverlappingPairs::prepareAddPair] *)
Definition prepareAddPair (isConvexVsConvex : bool) (s : state) : option (uint64 * state) :=
  s1 ← (if mNbPairs s =? mNbAllocatedPairs s
        then allocate (mul64 (mNbAllocatedPairs s) 2) s
        else Some s);
  if negb isConvexVsConvex then
    Some (mNbPairs s1, s1)
  else
    s2 ← (if negb (mConcavePairsStartIndex s1 =? mNbPairs s1)
          then movePairToIndex (mConcavePairsStartIndex s1) (mNbPairs s1) s1
          else Some s1);
    let index := mConcavePairsStartIndex s2 in
    Some (index, withConcavePairsStartIndex (incr64 (mConcavePairsStartIndex s2)) s2).

(** The identity [addPair] derives from the two broad-phase ids. *)
Definition computePairId (broadPhaseId1 broadPhaseId2 : int32) : uint64 :=
  let shape1Id := uint32_of_int32 broadPhaseId1 in
  let shape2Id := uint32_of_int32 broadPhaseId2 in
  pairNumbers (N.max shape1Id shape2Id) (N.min shape1Id shape2Id).

(** [OverlappingPairs::addPair] *)
Definition addPair (shape1 shape2 : ProxyShape) (isActive : bool) (s : state)
    : option (uint64 * state) :=
  '(index, s1) ← prepareAddPair (isConvex (getEntity shape1) && isConvex (getEntity shape2)) s;
  let pairId := computePairId (getBroadPhaseId shape1) (getBroadPhaseId shape2) in
  b ← array_set (mBuffer s1) index
        (mkPairData pairId (getBroadPhaseId shape1) (getBroadPhaseId shape2)
                    (getEntity shape1) (getEntity shape2) ∅ false isActive);
  let s2 := withBuffer b s1 in
  m ← Map_add pairId index (mMapPairIdToPairIndex s2);
  let s3 := withMap m s2 in
  let s4 := setOverlappingPairs (getEntity shape1)
              (List_add pairId (getOverlappingPairs s3 (getEntity shape1))) s3 in
  let s5 := setOverlappingPairs (getEntity shape2)
              (List_add pairId (getOverlappingPairs s4 (getEntity shape2))) s4 in
  Some (pairId, withNbPairs (incr64 (mNbPairs s5)) s5).

(** [OverlappingPairs::removePair] *)
Definition removePair (pairId : uint64) (s : state) : option state :=
  index ← Map_at (mMapPairIdToPairIndex s) pairId;
  p ← array_get (mBuffer s) index;
  (* the cached infos of the slot are released; the container that held them
     is emptied by destroyPair below *)
  let s1 := setOverlappingPairs (proxyShape1 p)
              (List_remove pairId (getOverlappingPairs s (proxyShape1 p))) s in
  let s2 := setOverlappingPairs (proxyShape2 p)
              (List_remove pairId (getOverlappingPairs s1 (proxyShape2 p))) s1 in
  s3 ← destroyPair index s2;
  s4 ← (if mConcavePairsStartIndex s3 <=? index then
          if negb (index =? decr64 (mNbPairs s3))
          then movePairToIndex (decr64 (mNbPairs s3)) index s3
          else Some s3
        else
          s' ← (if negb (index =? decr64 (mConcavePairsStartIndex s3))
                then movePairToIndex (decr64 (mConcavePairsStartIndex s3)) index s3
                else Some s3);
          s'' ← (if negb (mConcavePairsStartIndex s' =? mNbPairs s')
                 then movePairToIndex (decr64 (mNbPairs s')) (decr64 (mConcavePairsStartIndex s')) s'
                 else Some s');
          Some (withConcavePairsStartIndex (decr64 (mConcavePairsStartIndex s'')) s''));
  Some (withNbPairs (decr64 (mNbPairs s4)) s4).

(** [OverlappingPairs::swapPairs] *)
Definition swapPairs (index1 index2 : uint64) (s : state) : option state :=
  pair1 ← array_get (mBuffer s) index1;
  s1 ← destroyPair index1 s;
  s2 ← movePairToIndex index2 index1 s1;
  b ← array_set (mBuffer s2) index2 pair1;
  let s3 := withBuffer b s2 in
  m ← Map_add (pairId pair1) index2 (mMapPairIdToPairIndex s3);
  Some (withMap m s3).

(** [OverlappingPairs::addLastFrameInfoIfNecessary]; the handle it returns is
    the entry as it stands in the cache afterwards. *)
Definition addLastFrameInfoIfNecessary (pairId : uint64) (shapeId1 shapeId2 : uint32) (s : state)
    : option (LastFrameCollisionInfo * state) :=
  index ← Map_at (mMapPairIdToPairIndex s) pairId;
  p ← array_get (mBuffer s) index;
  let shapeIdPair := (shapeId1, shapeId2) in
  match lastFrameCollisionInfos p !! shapeIdPair with
  | None =>
      let collisionInfo := newLastFrameCollisionInfo in
      infos ← Map_add shapeIdPair collisionInfo (lastFrameCollisionInfos p);
      b ← array_set (mBuffer s) index (withLastFrameCollisionInfos infos p);
      Some (collisionInfo, withBuffer b s)
  | Some info =>
      let collisionInfo := setObsolete false info in
      b ← array_set (mBuffer s) index
            (withLastFrameCollisionInfos (<[shapeIdPair := collisionInfo]> (lastFrameCollisionInfos p)) p);
      Some (collisionInfo, withBuffer b s)
  end.

(** The inner loop of [clearObsoleteLastFrameCollisionInfos] over one cache:
    an obsolete entry is deleted, any other entry is marked obsolete. *)
Definition sweepLastFrameCollisionInfos
    (infos : gmap ShapeIdPair LastFrameCollisionInfo) : gmap ShapeIdPair LastFrameCollisionInfo :=
  omap (λ info, if isObsolete info then None else Some (setObsolete true info)) infos.

(** [for (uint64 i = start; i < start + count; i++) body] *)
Fixpoint forEachIndex (count : nat) (i : uint64) (body : uint64 → state → option state)
    (s : state) : option state :=
  match count with
  | O => Some s
  | S count' => s' ← body i s; forEachIndex count' (incr64 i) body s'
  end.

(** [OverlappingPairs::clearObsoleteLastFrameCollisionInfos] *)
Definition clearObsoleteLastFrameCollisionInfos (s : state) : option state :=
  forEachIndex (N.to_nat (mNbPairs s)) 0
    (λ i s',
       p ← array_get (mBuffer s') i;
       b ← array_set (mBuffer s') i
             (withLastFrameCollisionInfos (sweepLastFrameCollisionInfos (lastFrameCollisionInfos p)) p);
       Some (withBuffer b s'))
    s.

(** ** The states the registry goes through

    [reachable s]: [s] is the state right after construction, or the state
    in which a call of [addPair] or of [removePair] has left a state that
    was reachable. *)
Inductive reachable : state → Prop :=
| reachable_create s :
    create = Some s → reachable s
| reachable_addPair s shape1 shape2 isActive pairId s' :
    reachable s → addPair shape1 shape2 isActive s = Some (pairId, s') → reachable s'
| reachable_removePair s pairId s' :
    reachable s → removePair pairId s = Some s' → reachable s'.

(** A slot holds a convex-vs-convex pair when both its shapes are convex. *)
Definition isConvexVsConvex (p : PairData) : bool :=
  isConvex (proxyShape1 p) && isConvex (proxyShape2 p).

(** Slot [i] is in use: the lookup leads from the identity stored in the
    slot back to the slot. *)
Definition slotInUse (s : state) (i : uint64) : Prop :=
  ∃ p, array_get (mBuffer s) i = Some p ∧ mMapPairIdToPairIndex s !! pairId p = Some i.

(** The partition of the slots: convex-vs-convex pairs below
    [mConcavePairsStartIndex], convex-vs-concave pairs from there up to
    [mNbPairs], every slot below [mNbPairs] in use. *)
Definition partitioned (s : state) : Prop :=
  mConcavePairsStartIndex s ≤ mNbPairs s ∧
  ∀ i, i < mNbPairs s →
    slotInUse s i ∧
    ∀ p, array_get (mBuffer s) i = Some p →
      isConvexVsConvex p = (i <? mConcavePairsStartIndex s).

End Registry.

(** The two consistency conditions asserted at the end of the mutating
    operations. *)
Definition countsConsistent (s : state) : Prop :=
  mNbPairs s = Map_size (mMapPairIdToPairIndex s) ∧
  mConcavePairsStartIndex s ≤ mNbPairs s.

(** The cached entry of the pair in slot [index] for a pair of feature ids. *)
Definition lastFrameInfo (s : state) (index : uint64) (shapeIdPair : ShapeIdPair)
    : option LastFrameCollisionInfo :=
  p ← array_get (mBuffer s) index;
  lastFrameCollisionInfos p !! shapeIdPair.

(** ** The relocations of [removePair], as the design document words them

    A relocation is a pair (source slot, destination slot); it is skipped
    when both are the same slot. *)
Definition relocation (src dest : uint64) : list (uint64 * uint64) :=
  if src =? dest then [] else [(src, dest)].

(** With the removed slot at [index], the partition boundary at
    [concaveStart] and [nbPairs] pairs: in the concave partition the last
    concave slot moves into the hole; in the convex partition the last convex
    slot moves into the hole, then the last concave slot moves into the
    vacated last convex slot. *)
Definition relocations (index concaveStart nbPairs : uint64) : list (uint64 * uint64) :=
  if concaveStart <=? index then
    relocation (nbPairs - 1) index
  else
    relocation (concaveStart - 1) index
    ++ relocation (nbPairs - 1) (concaveStart - 1).

Fixpoint relocate (moves : list (uint64 * uint64)) (s : state) : option state :=
  match moves with
  | [] => Some s
  | (src, dest) :: moves' => s' ← movePairToIndex src dest s; relocate moves' s'
  end.

(** [removePair] written as: detach the pair, destroy its slot, perform the
    relocations, then lower the boundary (convex case only) and the count. *)
Definition removePairByRelocations (pairId : uint64) (s : state) : option state :=
  index ← Map_at (mMapPairIdToPairIndex s) pairId;
  p ← array_get (mBuffer s) index;
  let s1 := setOverlappingPairs (proxyShape1 p)
              (List_remove pairId (getOverlappingPairs s (proxyShape1 p))) s in
  let s2 := setOverlappingPairs (proxyShape2 p)
              (List_remove pairId (getOverlappingPairs s1 (proxyShape2 p))) s1 in
  s3 ← destroyPair index s2;
  s4 ← relocate (relocations index (mConcavePairsStartIndex s) (mNbPairs s)) s3;
  let concaveStart :=
    if mConcavePairsStartIndex s <=? index
    then mConcavePairsStartIndex s
    else mConcavePairsStartIndex s - 1 in
  Some (withNbPairs (mNbPairs s - 1) (withConcavePairsStartIndex concaveStart s4)).

(** ** Activity of a pair *)

Inductive BodyType := STATIC | KINEMATIC | DYNAMIC.

Global Instance BodyType_eq_dec : EqDecision BodyType.
Proof. solve_decision. Defined.

Abbreviation bodypair := (Entity * Entity)%type (only parsing).

(** Modelled from the spec: [computeBodiesIndexPair] is declared in
    [OverlappingPairs.h], which is not among the sources. The no-collision
    set lists unordered body pairs, so the pair is keyed smaller id first. *)
Definition computeBodiesIndexPair (body1Entity body2Entity : Entity) : bodypair :=
  if body1Entity <? body2Entity then (body1Entity, body2Entity)
  else (body2Entity, body1Entity).

Section Activity.

(** The component stores and the no-collision set the registry refers to. *)
Variable getBody : Entity → Entity.                 (* mProxyShapeComponents *)
Variable hasRigidBodyComponent : Entity → bool.     (* mRigidBodyComponents.hasComponent *)
Variable getBodyType : Entity → BodyType.           (* mRigidBodyComponents.getBodyType *)
Variable getIsEntityDisabled : Entity → bool.       (* mCollisionBodyComponents *)
Variable mNoCollisionPairs : gset bodypair.

(** [OverlappingPairs::computeIsPairActive] *)
Definition computeIsPairActive (shape1 shape2 : ProxyShape) : bool :=
  let body1Entity := getBody (getEntity shape1) in
  let body2Entity := getBody (getEntity shape2) in
  let isStaticRigidBody1 :=
    hasRigidBodyComponent body1Entity && bool_decide (getBodyType body1Entity = STATIC) in
  let isStaticRigidBody2 :=
    hasRigidBodyComponent body2Entity && bool_decide (getBodyType body2Entity = STATIC) in
  let isBody1Active := negb (getIsEntityDisabled body1Entity) && negb isStaticRigidBody1 in
  let isBody2Active := negb (getIsEntityDisabled body2Entity) && negb isStaticRigidBody2 in
  if negb isBody1Active && negb isBody2Active then false
  else
    let bodiesIndex := computeBodiesIndexPair body1Entity body2Entity in
    if bool_decide (bodiesIndex ∈ mNoCollisionPairs) then false
    else true.

End Activity.

(** ** Destruction *)

(** The body of the loop of the destructor for slot [i]: the cached infos of
    the slot are released (the container that held them is emptied by
    [destroyPair]), the pair is taken off the lists of its two shapes, and
    the slot is destroyed. *)
Definition destroyRemainingPair (i : uint64) (s : state) : option state :=
  p ← array_get (mBuffer s) i;
  let s1 := setOverlappingPairs (proxyShape1 p)
              (List_remove (pairId p) (getOverlappingPairs s (proxyShape1 p))) s in
  let s2 := setOverlappingPairs (proxyShape2 p)
              (List_remove (pairId p) (getOverlappingPairs s1 (proxyShape2 p))) s1 in
  destroyPair i s2.

(** [OverlappingPairs::~OverlappingPairs]. The loop counts the slots with a
    [uint32] against the 64-bit [mNbPairs]: with [2 ^ 32] pairs or more the
    counter wraps before it reaches the count and the loop does not end,
    which [None] stands for here as well. Below that the counter does not
    wrap. At the end the buffer is released. *)
Definition destructor (s : state) : option state :=
  if 0 <? mNbAllocatedPairs s then
    if 2 ^ 32 <=? mNbPairs s then None
    else
      s' ← forEachIndex (N.to_nat (mNbPairs s)) 0 destroyRemainingPair s;
      Some (withBuffer [] s')
  else Some s.

End OverlappingPairs.

Module BroadPhaseSystem.

(** ** Collaborators

    The dynamic AABB tree, the geometry types and the component stores are
    not among the sources; the system only calls them, so they are taken as
    an interface. *)

Record Environment := mkEnvironment {
  AABB : Type;
  Vector3 : Type;
  decimal : Type;
  Transform : Type;
  CollisionShape : Type;
  DynamicAABBTree : Type;
  (* DynamicAABBTree *)
  tree_getFatAABB : DynamicAABBTree → int32 → AABB;
  tree_reportAllShapesOverlappingWithAABB : DynamicAABBTree → AABB → list int32;
  tree_getNodeDataPointer : DynamicAABBTree → int32 → ProxyShape;
  tree_updateObject : DynamicAABBTree → int32 → AABB → Vector3 → DynamicAABBTree * bool;
  (* AABB::testCollision *)
  testCollision : AABB → AABB → bool;
  (* decimal(0.0), Vector3(0, 0, 0), decimal * Vector3, Transform * Transform *)
  decimal_zero : decimal;
  Vector3_zero : Vector3;
  Vector3_scale : decimal → Vector3 → Vector3;
  Transform_mul : Transform → Transform → Transform;
  (* CollisionShape::computeAABB *)
  computeAABB : CollisionShape → Transform → AABB
}.

Section System.

Variable env : Environment.

(** Element [i] of the parallel arrays [mBroadPhaseIds], [mBodiesEntities],
    [mCollisionShapes] and [mLocalToBodyTransforms] of
    [mProxyShapesComponents]. *)
Record ProxyShapeComponent := mkProxyShapeComponent {
  mBroadPhaseId : int32;
  mBodyEntity : Entity;
  mCollisionShape : CollisionShape env;
  mLocalToBodyTransform : Transform env
}.

Record Components := mkComponents {
  mProxyShapesComponents : list ProxyShapeComponent;
  getNbEnabledComponents : uint32;
  (* mTransformsComponents.getTransform *)
  getTransform : Entity → Transform env;
  (* mDynamicsComponents *)
  hasDynamicsComponent : Entity → bool;
  getLinearVelocity : Entity → Vector3 env;
  (* the time step of the world when it is a DynamicsWorld *)
  dynamicsWorldTimeStep : option (decimal env)
}.

Record state := mkState {
  mDynamicAABBTree : DynamicAABBTree env;
  mMovedShapes : gset int32
}.

(** The calls the system makes to the tree and to the collision detection,
    in the order it makes them. *)
Inductive Call :=
| CallGetFatAABB (nodeId : int32)
| CallReportAllShapesOverlappingWithAABB (aabb : AABB env)
| CallGetNodeDataPointer (nodeId : int32)
| CallUpdateObject (nodeId : int32) (aabb : AABB env) (displacement : Vector3 env)
                   (hasBeenReInserted : bool)
| CallBroadPhaseNotifyOverlappingPair (shape1 shape2 : ProxyShape).

(** A computation reads and writes the state of the system and records the
    calls it makes. *)
Definition M (A : Type) : Type := state → A * state * list Call.

Definition ret {A} (x : A) : M A := λ s, (x, s, []).

Definition bind {A B} (m : M A) (k : A → M B) : M B :=
  λ s, let '(x, s1, calls1) := m s in
       let '(y, s2, calls2) := k x s1 in
       (y, s2, calls1 ++ calls2).

#[global] Instance M_bind : MBind M := λ A B k m, bind m k.

Fixpoint forEach {A} (l : list A) (body : A → M unit) : M unit :=
  match l with
  | [] => ret tt
  | x :: l' => body x;; forEach l' body
  end.

Definition getFatAABB (nodeId : int32) : M (AABB env) :=
  λ s, (tree_getFatAABB env (mDynamicAABBTree s) nodeId, s, [CallGetFatAABB nodeId]).

Definition reportAllShapesOverlappingWithAABB (aabb : AABB env) : M (list int32) :=
  λ s, (tree_reportAllShapesOverlappingWithAABB env (mDynamicAABBTree s) aabb, s,
        [CallReportAllShapesOverlappingWithAABB aabb]).

Definition getNodeDataPointer (nodeId : int32) : M ProxyShape :=
  λ s, (tree_getNodeDataPointer env (mDynamicAABBTree s) nodeId, s,
        [CallGetNodeDataPointer nodeId]).

Definition updateObject (nodeId : int32) (aabb : AABB env) (displacement : Vector3 env) : M bool :=
  λ s, let '(tree, hasBeenReInserted) :=
         tree_updateObject env (mDynamicAABBTree s) nodeId aabb displacement in
       (hasBeenReInserted, mkState tree (mMovedShapes s),
        [CallUpdateObject nodeId aabb displacement hasBeenReInserted]).

Definition broadPhaseNotifyOverlappingPair (shape1 shape2 : ProxyShape) : M unit :=
  λ s, (tt, s, [CallBroadPhaseNotifyOverlappingPair shape1 shape2]).

(** Modelled from the spec: [addMovedCollisionShape] is defined in
    [BroadPhaseSystem.h], which is not among the sources; it marks the shape
    as moved. *)
Definition addMovedCollisionShape (broadPhaseID : int32) : M unit :=
  λ s, (tt, mkState (mDynamicAABBTree s) ({[broadPhaseID]} ∪ mMovedShapes s), []).

Definition getMovedShapes : M (list int32) :=
  λ s, (elements (mMovedShapes s), s, []).

Definition clearMovedShapes : M unit :=
  λ s, (tt, mkState (mDynamicAABBTree s) ∅, []).

(** ** Operations *)

(** [BroadPhaseSystem::testOverlappingShapes] *)
Definition testOverlappingShapes (shape1 shape2 : ProxyShape) : M bool :=
  if bool_decide (getBroadPhaseId shape1 = (-1)%Z) || bool_decide (getBroadPhaseId shape2 = (-1)%Z)
  then ret false
  else
    aabb1 ← getFatAABB (getBroadPhaseId shape1);
    aabb2 ← getFatAABB (getBroadPhaseId shape2);
    ret (testCollision env aabb1 aabb2).

(** [BroadPhaseSystem::updateProxyShapeInternal] *)
Definition updateProxyShapeInternal (broadPhaseId : int32) (aabb : AABB env)
    (displacement : Vector3 env) : M unit :=
  hasBeenReInserted ← updateObject broadPhaseId aabb displacement;
  if hasBeenReInserted : bool then addMovedCollisionShape broadPhaseId else ret tt.

Section Update.

Variable components : Components.

(** The body of the loop of [updateProxyShapesComponents] for component [c]. *)
Definition updateProxyShapeComponent (timeStep : decimal env) (c : ProxyShapeComponent) : M unit :=
  let broadPhaseId := mBroadPhaseId c in
  if bool_decide (broadPhaseId ≠ (-1)%Z) then
    let bodyEntity := mBodyEntity c in
    let transform := getTransform components bodyEntity in
    let displacement :=
      if hasDynamicsComponent components bodyEntity
      then Vector3_scale env timeStep (getLinearVelocity components bodyEntity)
      else Vector3_zero env in
    let aabb := computeAABB env (mCollisionShape c)
                  (Transform_mul env transform (mLocalToBodyTransform c)) in
    updateProxyShapeInternal broadPhaseId aabb displacement
  else ret tt.

(** The components [for (uint32 i = startIndex; i < endIndex; i++)] visits;
    the asserted [endIndex <= getNbComponents()] keeps [i] inside the
    arrays. *)
Definition componentsInRange (startIndex endIndex : uint32) : list ProxyShapeComponent :=
  take (N.to_nat endIndex - N.to_nat startIndex)
       (drop (N.to_nat startIndex) (mProxyShapesComponents components)).

(** [BroadPhaseSystem::updateProxyShapesComponents] *)
Definition updateProxyShapesComponents (startIndex endIndex : uint32) : M unit :=
  let startIndex := N.min startIndex (getNbEnabledComponents components) in
  let endIndex := N.min endIndex (getNbEnabledComponents components) in
  let timeStep :=
    match dynamicsWorldTimeStep components with
    | Some dt => dt
    | None => decimal_zero env
    end in
  forEach (componentsInRange startIndex endIndex) (updateProxyShapeComponent timeStep).

End Update.

(** [BroadPhaseSystem::addOverlappingNodes] *)
Definition addOverlappingNodes (referenceNodeId : int32) (overlappingNodes : list int32) : M unit :=
  forEach overlappingNodes (λ node,
    if bool_decide (referenceNodeId ≠ node) then
      shape1 ← getNodeDataPointer referenceNodeId;
      shape2 ← getNodeDataPointer node;
      if bool_decide (getBodyId shape1 ≠ getBodyId shape2)
      then broadPhaseNotifyOverlappingPair shape1 shape2
      else ret tt
    else ret tt).

(** [BroadPhaseSystem::computeOverlappingPairs] *)
Definition computeOverlappingPairs : M unit :=
  movedShapes ← getMovedShapes;
  forEach movedShapes (λ shapeID,
    if bool_decide (shapeID = (-1)%Z) then ret tt
    else
      shapeAABB ← getFatAABB shapeID;
      overlappingNodes ← reportAllShapesOverlappingWithAABB shapeAABB;
      addOverlappingNodes shapeID overlappingNodes);;
  clearMovedShapes.

(** ** What the statements about the system speak of *)

(** The overlap queries among the calls, by the bound they were asked for. *)
Definition overlapQueries (calls : list Call) : list (AABB env) :=
  omap (λ call, match call with
                | CallReportAllShapesOverlappingWithAABB aabb => Some aabb
                | _ => None
                end) calls.

(** The pairs notified to the collision detection among the calls. *)
Definition notifiedPairs (calls : list Call) : list (ProxyShape * ProxyShape) :=
  omap (λ call, match call with
                | CallBroadPhaseNotifyOverlappingPair shape1 shape2 => Some (shape1, shape2)
                | _ => None
                end) calls.

(** The updates of the tree among the calls. *)
Definition treeUpdates (calls : list Call) : list (int32 * AABB env * Vector3 env * bool) :=
  omap (λ call, match call with
                | CallUpdateObject nodeId aabb displacement hasBeenReInserted =>
                    Some (nodeId, aabb, displacement, hasBeenReInserted)
                | _ => None
                end) calls.

(** The entries of the moved set that name a shape: [-1] names none. *)
Definition movedShapeIds (s : state) : list int32 :=
  filter (λ shapeID, shapeID ≠ (-1)%Z) (elements (mMovedShapes s)).

(** The candidates the tree reports for the fat bound of [referenceNodeId]
    that are another node of another body, each paired with the reference
    shape. *)
Definition candidatePairs (tree : DynamicAABBTree env) (referenceNodeId : int32)
    : list (ProxyShape * ProxyShape) :=
  let shape1 := tree_getNodeDataPointer env tree referenceNodeId in
  omap (λ node,
          let shape2 := tree_getNodeDataPointer env tree node in
          if bool_decide (node ≠ referenceNodeId ∧ getBodyId shape1 ≠ getBodyId shape2)
          then Some (shape1, shape2) else None)
       (tree_reportAllShapesOverlappingWithAABB env tree
          (tree_getFatAABB env tree referenceNodeId)).

(** The displacement the design document gives for one step of a body. *)
Definition stepDisplacement (components : Components) (bodyEntity : Entity) : Vector3 env :=
  let timeStep := default (decimal_zero env) (dynamicsWorldTimeStep components) in
  if hasDynamicsComponent components bodyEntity
  then Vector3_scale env timeStep (getLinearVelocity components bodyEntity)
  else Vector3_zero env.

(** The tracked components an update from [startIndex] to [endIndex]
    refreshes. *)
Definition refreshedComponents (components : Components) (startIndex endIndex : uint32)
    : list ProxyShapeComponent :=
  filter (λ c, mBroadPhaseId c ≠ (-1)%Z)
         (componentsInRange components
            (N.min startIndex (getNbEnabledComponents components))
            (N.min endIndex (getNbEnabledComponents components))).

End System.

Arguments mkState {env} _ _.
Arguments mDynamicAABBTree {env} _.
Arguments mMovedShapes {env} _.
Arguments mBroadPhaseId {env} _.
Arguments mBodyEntity {env} _.
Arguments mCollisionShape {env} _.
Arguments mLocalToBodyTransform {env} _.
Arguments mProxyShapesComponents {env} _.
Arguments getNbEnabledComponents {env} _.
Arguments getTransform {env} _ _.
Arguments hasDynamicsComponent {env} _ _.
Arguments getLinearVelocity {env} _ _.
Arguments dynamicsWorldTimeStep {env} _.
Arguments CallGetFatAABB {env} _.
Arguments CallReportAllShapesOverlappingWithAABB {env} _.
Arguments CallGetNodeDataPointer {env} _.
Arguments CallUpdateObject {env} _ _ _ _.
Arguments CallBroadPhaseNotifyOverlappingPair {env} _ _.

(** ** The other entry points of the system *)

(** [index + 1] on [uint32] *)
Definition incr32 (x : uint32) : uint32 := (x + 1) mod 2 ^ 32.

Section EntryPoints.

Variable env : Environment.

(** What these entry points call besides the collaborators above:
    [DynamicAABBTree::addObject], which answers the id of the new node, and
    [DynamicAABBTree::removeObject]. *)
Variable tree_addObject :
  DynamicAABBTree env → AABB env → ProxyShape → DynamicAABBTree env * int32.
Variable tree_removeObject : DynamicAABBTree env → int32 → DynamicAABBTree env.

Definition addObject (aabb : AABB env) (proxyShape : ProxyShape) : M env int32 :=
  λ s, let '(tree, nodeId) := tree_addObject (mDynamicAABBTree s) aabb proxyShape in
       (nodeId, mkState tree (mMovedShapes s), []).

Definition removeObject (nodeId : int32) : M env unit :=
  λ s, (tt, mkState (tree_removeObject (mDynamicAABBTree s) nodeId) (mMovedShapes s), []).

(** Modelled from the spec: [removeMovedCollisionShape] is defined in
    [BroadPhaseSystem.h], which is not among the sources; it takes the shape
    out of the moved set if it is there. *)
Definition removeMovedCollisionShape (broadPhaseID : int32) : M env unit :=
  λ s, (tt, mkState (mDynamicAABBTree s) (mMovedShapes s ∖ {[broadPhaseID]}), []).

(** Modelled from the spec: [mProxyShapesComponents.setBroadPhaseId] of the
    absent component store records the node id of a proxy shape, which the
    shape answers to [getBroadPhaseId] from then on. *)
Definition setBroadPhaseId (proxyShape : ProxyShape) (broadPhaseId : int32) : ProxyShape :=
  mkProxyShape (getEntity proxyShape) broadPhaseId (getBodyId proxyShape).

(** [BroadPhaseSystem::addProxyCollisionShape]; it answers the proxy shape as
    the component store has it afterwards. *)
Definition addProxyCollisionShape (proxyShape : ProxyShape) (aabb : AABB env) : M env ProxyShape :=
  nodeId ← addObject aabb proxyShape;
  let proxyShape := setBroadPhaseId proxyShape nodeId in
  addMovedCollisionShape env (getBroadPhaseId proxyShape);;
  ret env proxyShape.

(** [BroadPhaseSystem::removeProxyCollisionShape]; it answers the proxy shape
    as the component store has it afterwards. *)
Definition removeProxyCollisionShape (proxyShape : ProxyShape) : M env ProxyShape :=
  let broadPhaseID := getBroadPhaseId proxyShape in
  let proxyShape := setBroadPhaseId proxyShape (-1)%Z in
  removeObject broadPhaseID;;
  removeMovedCollisionShape broadPhaseID;;
  ret env proxyShape.

Variable components : Components env.

(** [mProxyShapesComponents.mMapEntityToComponentIndex] *)
Variable mMapEntityToComponentIndex : gmap Entity uint32.

(** [BroadPhaseSystem::updateProxyShape]; looking up an entity that has no
    component is outside defined behaviour. *)
Definition updateProxyShape (proxyShapeEntity : Entity) : option (M env unit) :=
  index ← Map_at mMapEntityToComponentIndex proxyShapeEntity;
  Some (updateProxyShapesComponents env components index (incr32 index)).

(** [BroadPhaseSystem::updateProxyShapes] *)
Definition updateProxyShapes : M env unit :=
  updateProxyShapesComponents env components 0 (getNbEnabledComponents components).

End EntryPoints.

(** ** Ray casting *)

Section Raycast.

Variable env : Environment.

(** [Ray], and what the callback takes from its collaborators: the category
    bits of a proxy shape (an [unsigned short]), the ray cast test of the
    collision detection, which answers a hit fraction, and [decimal(-1.0)]. *)
Variable Ray : Type.
Variable getCollisionCategoryBits : ProxyShape → N.
Variable raycastAgainstShape : ProxyShape → Ray → decimal env.
Variable decimal_minus_one : decimal env.

(** [DynamicAABBTree::raycast] hands the leaves the ray may hit to the
    callback one at a time, each with the ray clipped as the hits so far
    allow, and goes on according to the hit fraction the callback answers. *)
Inductive RaycastTraversal :=
| RaycastDone
| RaycastVisit (nodeId : int32) (ray : Ray) (next : decimal env → RaycastTraversal).

Variable tree_raycast : DynamicAABBTree env → Ray → RaycastTraversal.

(** [BroadPhaseRaycastCallback::raycastBroadPhaseShape]: the hit fraction,
    and the ray cast tests it asked for. *)
Definition raycastBroadPhaseShape (tree : DynamicAABBTree env)
    (mRaycastWithCategoryMaskBits : N) (nodeId : int32) (ray : Ray)
    : decimal env * list (ProxyShape * Ray) :=
  let proxyShape := tree_getNodeDataPointer env tree nodeId in
  if negb (N.land mRaycastWithCategoryMaskBits (getCollisionCategoryBits proxyShape) =? 0)
  then (raycastAgainstShape proxyShape ray, [(proxyShape, ray)])
  else (decimal_minus_one, []).

(** The traversal run against a callback: the tests asked for, in order. *)
Fixpoint runRaycast (traversal : RaycastTraversal)
    (callback : int32 → Ray → decimal env * list (ProxyShape * Ray))
    : list (ProxyShape * Ray) :=
  match traversal with
  | RaycastDone => []
  | RaycastVisit nodeId ray next =>
      let '(hitFraction, tests) := callback nodeId ray in
      tests ++ runRaycast (next hitFraction) callback
  end.

(** [BroadPhaseSystem::raycast]; the state of the system is only read. *)
Definition raycast (ray : Ray) (raycastWithCategoryMaskBits : N) (s : state env)
    : list (ProxyShape * Ray) :=
  runRaycast (tree_raycast (mDynamicAABBTree s) ray)
             (raycastBroadPhaseShape (mDynamicAABBTree s) raycastWithCategoryMaskBits).

End Raycast.

Arguments RaycastDone {env Ray}.
Arguments RaycastVisit {env Ray} _ _ _.

End BroadPhaseSystem.

(** * Properties *)

(** ** Fixed-width arithmetic and raw arrays *)

Lemma wrap64_small (x : N) : x < 2 ^ 64 → wrap64 x = x.
Proof. intros Hx. unfold wrap64. by apply N.mod_small. Qed.

Lemma wrap64_bound (x : N) : wrap64 x < 2 ^ 64.
Proof. unfold wrap64. by apply N.mod_upper_bound. Qed.

Lemma incr64_small (x : N) : x + 1 < 2 ^ 64 → incr64 x = x + 1.
Proof. intros Hx. unfold incr64. by apply wrap64_small. Qed.

Lemma decr64_pos (x : N) : 0 < x → x < 2 ^ 64 → decr64 x = x - 1.
Proof.
  intros H0 Hx. unfold decr64, wrap64.
  replace (x + (2 ^ 64 - 1)) with ((x - 1) + 1 * 2 ^ 64) by lia.
  rewrite N.Div0.mod_add. apply N.mod_small. lia.
Qed.

Lemma array_set_Some {A} (b : list A) (i : N) (x : A) :
  (N.to_nat i < length b)%nat → array_set b i x = Some (<[N.to_nat i := x]> b).
Proof.
  intros Hi. unfold array_set.
  destruct (Nat.ltb_spec (N.to_nat i) (length b)); [done | lia].
Qed.

Lemma array_set_inv {A} (b b' : list A) (i : N) (x : A) :
  array_set b i x = Some b' → (N.to_nat i < length b)%nat ∧ b' = <[N.to_nat i := x]> b.
Proof.
  unfold array_set.
  destruct (Nat.ltb_spec (N.to_nat i) (length b)); [|done].
  intros [= <-]. done.
Qed.

Lemma array_get_lt {A} (b : list A) (i : N) (x : A) :
  array_get b i = Some x → (N.to_nat i < length b)%nat.
Proof. unfold array_get. apply lookup_lt_Some. Qed.

Lemma array_get_insert_eq {A} (b : list A) (i : N) (x : A) :
  (N.to_nat i < length b)%nat → array_get (<[N.to_nat i := x]> b) i = Some x.
Proof. intros Hi. unfold array_get. by apply list_lookup_insert_eq. Qed.

Lemma array_get_insert_ne {A} (b : list A) (i j : N) (x : A) :
  i ≠ j → array_get (<[N.to_nat i := x]> b) j = array_get b j.
Proof. intros Hij. unfold array_get. apply list_lookup_insert_ne. lia. Qed.

Lemma array_get_is_Some {A} (b : list A) (i : N) :
  (N.to_nat i < length b)%nat → ∃ x, array_get b i = Some x.
Proof. intros Hi. by apply lookup_lt_is_Some_2. Qed.

Module RegistryProperties.

Import OverlappingPairs.

(** ** The layout of slots and lookup while a slot is being recycled

    [layout cnt hole b m]: among the first [cnt] slots of the buffer [b],
    every slot but [hole] is in use according to the lookup [m], and [m] has
    no other entries. *)
Record layout (cnt : N) (hole : option N) (b : list PairData) (m : gmap N N) : Prop :=
  mkLayout {
    layout_live : ∀ i, i < cnt → hole ≠ Some i →
      ∃ p, array_get b i = Some p ∧ m !! pairId p = Some i;
    layout_index : ∀ k i, m !! k = Some i →
      i < cnt ∧ hole ≠ Some i ∧ ∃ p, array_get b i = Some p ∧ pairId p = k;
    layout_size : (size m + match hole with Some _ => 1 | None => 0 end = N.to_nat cnt)%nat;
    layout_hole : ∀ h, hole = Some h → h < cnt;
    layout_fit : (N.to_nat cnt ≤ length b)%nat
  }.

Lemma layout_destroy cnt b m i p p' :
  layout cnt None b m → i < cnt → array_get b i = Some p →
  layout cnt (Some i) (<[N.to_nat i := p']> b) (delete (pairId p) m).
Proof.
  intros [Hlive Hidx Hsize _ Hfit] Hi Hp.
  destruct (Hlive i Hi) as (p0 & Hp0 & Hm); [done|].
  assert (p0 = p) as -> by congruence.
  split.
  - intros j Hj Hne. assert (i ≠ j) by congruence.
    destruct (Hlive j Hj) as (q & Hq & Hmq); [done|].
    exists q. rewrite array_get_insert_ne by done. split; [done|].
    rewrite lookup_delete_ne; [done|]. intros Heq. rewrite Heq in Hm. congruence.
  - intros k j Hk. apply lookup_delete_Some in Hk as [Hne Hk].
    destruct (Hidx k j Hk) as (Hj & _ & q & Hq & Hqk).
    assert (i ≠ j) by (intros ->; congruence).
    split_and!; [done | congruence |].
    exists q. by rewrite array_get_insert_ne.
  - rewrite map_size_delete_Some by eauto. simpl in *.
    assert (size m ≠ 0%nat) by (intros Hz; apply map_size_empty_inv in Hz; by subst).
    lia.
  - intros h [= <-]. done.
  - by rewrite length_insert.
Qed.

Lemma layout_move cnt b m h src p p' :
  layout cnt (Some h) b m → src < cnt → src ≠ h → array_get b src = Some p →
  layout cnt (Some src)
         (<[N.to_nat src := p']> (<[N.to_nat h := p]> b))
         (<[pairId p := h]> (delete (pairId p) m)).
Proof.
  intros [Hlive Hidx Hsize Hhole Hfit] Hsrc Hne Hp.
  assert (Hh : h < cnt) by by apply Hhole.
  destruct (Hlive src Hsrc) as (p0 & Hp0 & Hm); [congruence|].
  assert (p0 = p) as -> by congruence.
  split.
  - intros j Hj Hjs. assert (src ≠ j) by congruence.
    rewrite array_get_insert_ne by done.
    destruct (decide (j = h)) as [->|Hjh].
    + exists p. rewrite array_get_insert_eq by lia. by rewrite lookup_insert_eq.
    + rewrite array_get_insert_ne by done.
      destruct (Hlive j Hj) as (q & Hq & Hmq); [congruence|].
      exists q. split; [done|].
      assert (pairId p ≠ pairId q) by (intros Heq; rewrite Heq in Hm; congruence).
      by rewrite lookup_insert_ne, lookup_delete_ne.
  - intros k j Hk. apply lookup_insert_Some in Hk as [[<- <-]|[Hk1 Hk]].
    + split_and!; [done | congruence |]. exists p.
      rewrite array_get_insert_ne by done. by rewrite array_get_insert_eq by lia.
    + apply lookup_delete_Some in Hk as [_ Hk].
      destruct (Hidx k j Hk) as (Hj & Hjh & q & Hq & Hqk).
      assert (src ≠ j) by (intros ->; congruence).
      split_and!; [done | congruence |]. exists q.
      rewrite !array_get_insert_ne by congruence. done.
  - rewrite map_size_insert_None by apply lookup_delete_eq.
    rewrite map_size_delete_Some by eauto. simpl in *.
    assert (size m ≠ 0%nat) by (intros Hz; apply map_size_empty_inv in Hz; by subst).
    lia.
  - intros ? [= <-]. done.
  - by rewrite !length_insert.
Qed.

Lemma layout_fill cnt b m h p :
  layout cnt (Some h) b m → m !! pairId p = None →
  layout cnt None (<[N.to_nat h := p]> b) (<[pairId p := h]> m).
Proof.
  intros [Hlive Hidx Hsize Hhole Hfit] Hfresh.
  assert (Hh : h < cnt) by by apply Hhole.
  split.
  - intros j Hj _. destruct (decide (j = h)) as [->|Hjh].
    + exists p. rewrite array_get_insert_eq by lia. by rewrite lookup_insert_eq.
    + rewrite array_get_insert_ne by done.
      destruct (Hlive j Hj) as (q & Hq & Hmq); [congruence|].
      exists q. split; [done|].
      rewrite lookup_insert_ne; [done|]. intros Heq. rewrite Heq in Hfresh. congruence.
  - intros k j Hk. apply lookup_insert_Some in Hk as [[<- <-]|[Hk1 Hk]].
    + split_and!; [done..|]. exists p. by rewrite array_get_insert_eq by lia.
    + destruct (Hidx k j Hk) as (Hj & Hjh & q & Hq & Hqk).
      split_and!; [done..|]. exists q. rewrite array_get_insert_ne by congruence. done.
  - rewrite map_size_insert_None by done. simpl in *. lia.
  - done.
  - by rewrite length_insert.
Qed.

Lemma layout_shrink cnt b m h :
  layout cnt (Some h) b m → h + 1 = cnt → layout h None b m.
Proof.
  intros [Hlive Hidx Hsize Hhole Hfit] Hcnt. split.
  - intros j Hj _. apply Hlive; [lia|]. intros [= ->]. lia.
  - intros k j Hk. destruct (Hidx k j Hk) as (Hj & Hjh & Hq).
    split_and!; [|done..]. assert (j ≠ h) by congruence. lia.
  - simpl in *. lia.
  - done.
  - lia.
Qed.

Lemma layout_grow cnt b m :
  layout cnt None b m → (N.to_nat cnt < length b)%nat → layout (cnt + 1) (Some cnt) b m.
Proof.
  intros [Hlive Hidx Hsize Hhole Hfit] Hlen. split.
  - intros j Hj Hne. apply Hlive; [|done]. assert (j ≠ cnt) by congruence. lia.
  - intros k j Hk. destruct (Hidx k j Hk) as (Hj & _ & Hq).
    split_and!; [lia | | done]. intros [= ->]. lia.
  - simpl in *. lia.
  - intros ? [= <-]. lia.
  - lia.
Qed.

Lemma layout_reallocate cnt b m l :
  layout cnt None b m → layout cnt None (take (N.to_nat cnt) b ++ l) m.
Proof.
  intros [Hlive Hidx Hsize Hhole Hfit].
  assert (Hget : ∀ i, i < cnt → array_get (take (N.to_nat cnt) b ++ l) i = array_get b i).
  { intros i Hi. unfold array_get.
    rewrite lookup_app_l by (rewrite length_take; lia).
    apply lookup_take_lt. lia. }
  split; [| |done|done|].
  - intros j Hj Hne. rewrite Hget by done. by apply Hlive.
  - intros k j Hk. destruct (Hidx k j Hk) as (Hj & ? & Hq).
    rewrite Hget by done. done.
  - rewrite length_app, length_take. lia.
Qed.

(** ** What the slot operations compute *)

(** The state after slot [src], holding [p], was moved over slot [dest]. *)
Definition relocated (s : state) (src dest : N) (p : PairData) : state :=
  mkState (mNbPairs s) (mConcavePairsStartIndex s) (mNbAllocatedPairs s)
          (<[N.to_nat src := withLastFrameCollisionInfos ∅ p]> (<[N.to_nat dest := p]> (mBuffer s)))
          (<[pairId p := dest]> (delete (pairId p) (mMapPairIdToPairIndex s)))
          (mOverlappingPairsOfShape s).

(** The state after slot [i], holding [p], was destroyed. *)
Definition destroyed (s : state) (i : N) (p : PairData) : state :=
  mkState (mNbPairs s) (mConcavePairsStartIndex s) (mNbAllocatedPairs s)
          (<[N.to_nat i := withLastFrameCollisionInfos ∅ p]> (mBuffer s))
          (delete (pairId p) (mMapPairIdToPairIndex s))
          (mOverlappingPairsOfShape s).

Lemma destroyPair_inv i s s' :
  destroyPair i s = Some s' ↔
  ∃ p, array_get (mBuffer s) i = Some p ∧ s' = destroyed s i p.
Proof.
  unfold destroyPair. split.
  - destruct (array_get (mBuffer s) i) as [p|] eqn:Hp; [|done]. simpl.
    rewrite array_set_Some by by eapply array_get_lt.
    simpl. intros [= <-]. by exists p.
  - intros (p & Hp & ->). rewrite Hp. simpl.
    rewrite array_set_Some by by eapply array_get_lt. done.
Qed.

Lemma movePairToIndex_inv src dest s s' :
  movePairToIndex src dest s = Some s' ↔
  ∃ p, array_get (mBuffer s) src = Some p ∧ (N.to_nat dest < length (mBuffer s))%nat
       ∧ s' = relocated s src dest p.
Proof.
  assert (Hstep : ∀ p, array_get (mBuffer s) src = Some p →
            (N.to_nat dest < length (mBuffer s))%nat →
            movePairToIndex src dest s = Some (relocated s src dest p)).
  { intros p Hp Hd. unfold movePairToIndex. rewrite Hp. simpl.
    rewrite array_set_Some by done. simpl.
    assert (Hsrc : array_get (<[N.to_nat dest := p]> (mBuffer s)) src = Some p).
    { destruct (decide (dest = src)) as [->|Hne].
      - by apply array_get_insert_eq.
      - by rewrite array_get_insert_ne. }
    pose proof (proj2 (destroyPair_inv src (withBuffer (<[N.to_nat dest := p]> (mBuffer s)) s) _)
                  (ex_intro _ p (conj Hsrc eq_refl))) as ->.
    simpl. unfold Map_add, Map_remove. rewrite lookup_delete_eq. done. }
  split.
  - intros Hmove.
    destruct (array_get (mBuffer s) src) as [p|] eqn:Hp;
      [|unfold movePairToIndex in Hmove; by rewrite Hp in Hmove].
    destruct (array_set (mBuffer s) dest p) as [b|] eqn:Hb;
      [|unfold movePairToIndex in Hmove; rewrite Hp in Hmove; simpl in Hmove;
        by rewrite Hb in Hmove].
    apply array_set_inv in Hb as [Hd _].
    exists p. split_and!; [done..|].
    rewrite (Hstep p) in Hmove by done. congruence.
  - intros (p & Hp & Hd & ->). by apply Hstep.
Qed.

Section Invariant.

Context (isConvex : Entity → bool) (pairNumbers : uint32 → uint32 → uint64).

(** Whether the invariant below includes the partition of the slots by
    kind of pair ([true]), or only the agreement of slots and lookup
    ([false]); [swapPairs] keeps the latter alone. *)
Context (strict : bool).

Local Abbreviation isConvexVsConvex := (isConvexVsConvex isConvex).
Local Abbreviation addPair := (addPair isConvex pairNumbers).
Local Abbreviation partitioned := (partitioned isConvex).

(** [classified cs cnt hole b]: in the strict reading, among the first [cnt]
    slots of [b], every slot but [hole] holds a convex-vs-convex pair exactly
    when it lies below [cs]. *)
Definition classified (cs cnt : N) (hole : option N) (b : list PairData) : Prop :=
  strict = true →
  ∀ i p, i < cnt → hole ≠ Some i → array_get b i = Some p →
    isConvexVsConvex p = (i <? cs).

Lemma classified_destroy cs cnt b i p' :
  classified cs cnt None b → classified cs cnt (Some i) (<[N.to_nat i := p']> b).
Proof.
  intros Hc Hstrict j q Hj Hne. assert (i ≠ j) by congruence.
  rewrite array_get_insert_ne by done. by apply Hc.
Qed.

Lemma classified_move cs cnt b h src p p' :
  classified cs cnt (Some h) b → array_get b src = Some p →
  src < cnt → src ≠ h → (N.to_nat h < length b)%nat →
  (src <? cs) = (h <? cs) →
  classified cs cnt (Some src) (<[N.to_nat src := p']> (<[N.to_nat h := p]> b)).
Proof.
  intros Hc Hp Hsrc Hne Hh Hside Hstrict j q Hj Hjs. assert (src ≠ j) by congruence.
  rewrite array_get_insert_ne by done.
  destruct (decide (h = j)) as [->|Hhj].
  - rewrite array_get_insert_eq by done. intros [= <-].
    rewrite <-Hside. apply Hc; [done | done | congruence | done].
  - rewrite array_get_insert_ne by done. apply Hc; [done | done | congruence].
Qed.

Lemma classified_fill cs cnt b h p :
  classified cs cnt (Some h) b → (N.to_nat h < length b)%nat →
  isConvexVsConvex p = (h <? cs) →
  classified cs cnt None (<[N.to_nat h := p]> b).
Proof.
  intros Hc Hh Hp Hstrict j q Hj _.
  destruct (decide (h = j)) as [->|Hhj].
  - rewrite array_get_insert_eq by done. by intros [= <-].
  - rewrite array_get_insert_ne by done. apply Hc; [done | done | congruence].
Qed.

Lemma classified_shrink cs cnt b h :
  classified cs cnt (Some h) b → h + 1 = cnt → classified cs h None b.
Proof.
  intros Hc Hcnt Hstrict j q Hj _. apply Hc; [done | lia |]. intros [= ->]. lia.
Qed.

Lemma classified_grow cs cnt b :
  classified cs cnt None b → classified cs (cnt + 1) (Some cnt) b.
Proof.
  intros Hc Hstrict j q Hj Hne. apply Hc; [done | | done]. assert (j ≠ cnt) by congruence. lia.
Qed.

Lemma classified_shift cs cs' cnt hole b :
  classified cs cnt hole b →
  (∀ j, j < cnt → hole ≠ Some j → (j <? cs) = (j <? cs')) →
  classified cs' cnt hole b.
Proof.
  intros Hc Hside Hstrict j q Hj Hne Hq. rewrite <-Hside by done. by apply Hc.
Qed.

Lemma classified_reallocate cs cnt b l :
  classified cs cnt None b → (N.to_nat cnt ≤ length b)%nat →
  classified cs cnt None (take (N.to_nat cnt) b ++ l).
Proof.
  intros Hc Hfit Hstrict j q Hj _ Hq. apply Hc; [done..|].
  unfold array_get in *.
  rewrite lookup_app_l in Hq by (rewrite length_take; lia).
  by rewrite lookup_take_lt in Hq by lia.
Qed.

(** ** The invariant of the registry *)

Record wf (s : state) : Prop := mkWf {
  wf_layout : layout (mNbPairs s) None (mBuffer s) (mMapPairIdToPairIndex s);
  wf_classified : classified (mConcavePairsStartIndex s) (mNbPairs s) None (mBuffer s);
  wf_boundary : mConcavePairsStartIndex s ≤ mNbPairs s;
  wf_capacity : length (mBuffer s) = N.to_nat (mNbAllocatedPairs s);
  wf_capacity_bound : mNbAllocatedPairs s < 2 ^ 64
}.

Lemma wf_count_le s : wf s → mNbPairs s ≤ mNbAllocatedPairs s.
Proof. intros [Hl _ _ Hc _]. apply layout_fit in Hl. lia. Qed.

Lemma wf_count_bound s : wf s → mNbPairs s < 2 ^ 64.
Proof. intros Hs. pose proof (wf_count_le s Hs). pose proof (wf_capacity_bound s Hs). lia. Qed.

Lemma wf_partitioned s : strict = true → wf s → partitioned s.
Proof.
  intros Hstrict [Hl Hc Hb _ _]. split; [done|].
  intros i Hi. split.
  - by apply (layout_live _ _ _ _ Hl).
  - intros p Hp. by apply Hc.
Qed.

Lemma wf_countsConsistent s : wf s → countsConsistent s.
Proof.
  intros [Hl _ Hb _ _]. split; [|done].
  apply layout_size in Hl. unfold Map_size. lia.
Qed.

Lemma wf_registered s k i :
  wf s → mMapPairIdToPairIndex s !! k = Some i →
  i < mNbPairs s ∧ ∃ p, array_get (mBuffer s) i = Some p ∧ pairId p = k.
Proof.
  intros [Hl _ _ _ _] Hk. destruct (layout_index _ _ _ _ Hl k i Hk) as (? & _ & ?). done.
Qed.

(** ** [removePair] keeps the invariant *)

(** Arithmetic side conditions, with the local abbreviations expanded. *)
Local Ltac arith :=
  repeat match goal with x := _ |- _ => subst x end;
  rewrite ?length_insert in *; lia.

Lemma removePair_wf s k index :
  wf s → mMapPairIdToPairIndex s !! k = Some index →
  ∃ s', removePair k s = Some s' ∧ wf s'
        ∧ mNbPairs s' + 1 = mNbPairs s
        ∧ mConcavePairsStartIndex s' + (if index <? mConcavePairsStartIndex s then 1 else 0)
          = mConcavePairsStartIndex s.
Proof.
  intros Hs Hk.
  destruct (wf_registered s k index Hs Hk) as (Hindex & p & Hp & Hpk).
  pose proof (wf_count_bound s Hs) as Hn64.
  destruct Hs as [Hl Hc Hb Hcap Hcap64].
  pose proof (layout_fit _ _ _ _ Hl) as Hfit.
  set (n := mNbPairs s) in *. set (cs := mConcavePairsStartIndex s) in *.
  set (b := mBuffer s) in *. set (m := mMapPairIdToPairIndex s) in *.
  assert (Hdn : decr64 n = n - 1) by (apply decr64_pos; arith).
  pose proof (layout_destroy n b m index p (withLastFrameCollisionInfos ∅ p) Hl Hindex Hp) as Hl3.
  pose proof (classified_destroy cs n b index (withLastFrameCollisionInfos ∅ p) Hc) as Hc3.
  set (b3 := <[N.to_nat index := withLastFrameCollisionInfos ∅ p]> b) in *.
  set (m3 := delete (pairId p) m) in *.
  assert (Hlen3 : length b3 = length b) by apply length_insert.
  unfold removePair, Map_at. fold m. rewrite Hk. simpl. fold b. rewrite Hp. simpl.
  set (s2 := setOverlappingPairs _ _ (setOverlappingPairs _ _ s)).
  assert (Hd : destroyPair index s2 = Some (destroyed s2 index p)).
  { apply destroyPair_inv. by exists p. }
  rewrite Hd. simpl. fold cs n b m b3 m3. rewrite Hdn.
  destruct (N.leb_spec cs index) as [Hconcave|Hconvex].
  - (* the slot lies in the concave partition *)
    replace (index <? cs) with false by (symmetry; apply N.ltb_ge; arith).
    destruct (N.eqb_spec index (n - 1)) as [Hlast|Hlast]; simpl.
    + eexists. split; [done|]. simpl. fold cs n b m b3 m3.
      rewrite Hdn.
      split_and!; [| arith | arith]. split; simpl; fold b3 m3.
      * apply (layout_shrink n); [by rewrite <-Hlast | arith].
      * apply (classified_shrink _ n) with (h := n - 1); [|arith]. by rewrite <-Hlast.
      * arith.
      * arith.
      * done.
    + destruct (layout_live _ _ _ _ Hl3 (n - 1)) as (q & Hq & _); [arith | congruence |].
      assert (Hmove : movePairToIndex (n - 1) index (destroyed s2 index p)
                      = Some (relocated (destroyed s2 index p) (n - 1) index q)).
      { apply movePairToIndex_inv. exists q. simpl. fold b b3. split_and!; [done | arith | done]. }
      rewrite Hmove. simpl. fold cs n b m b3 m3. rewrite Hdn.
      eexists. split; [done|]. simpl.
      split_and!; [| arith | arith]. split; simpl; fold b3 m3.
      * apply (layout_shrink n); [|arith]. apply layout_move; [done | arith | done | done].
      * apply (classified_shrink _ n) with (h := n - 1); [|arith].
        apply classified_move; [done | done | arith | done | arith |].
        transitivity false; [apply N.ltb_ge | symmetry; apply N.ltb_ge]; arith.
      * arith.
      * arith.
      * done.
  - (* the slot lies in the convex partition *)
    replace (index <? cs) with true by (symmetry; apply N.ltb_lt; arith).
    assert (Hdcs : decr64 cs = cs - 1) by (apply decr64_pos; arith).
    rewrite Hdcs.
    (* first relocation: the last convex slot fills the hole *)
    assert (∃ s', (if negb (index =? cs - 1)
                   then movePairToIndex (cs - 1) index (destroyed s2 index p)
                   else Some (destroyed s2 index p)) = Some s'
                  ∧ mNbPairs s' = n ∧ mConcavePairsStartIndex s' = cs
                  ∧ mNbAllocatedPairs s' = mNbAllocatedPairs s
                  ∧ length (mBuffer s') = length b
                  ∧ layout n (Some (cs - 1)) (mBuffer s') (mMapPairIdToPairIndex s')
                  ∧ classified cs n (Some (cs - 1)) (mBuffer s'))
      as (s' & -> & Hn' & Hcs' & Hcap' & Hlen' & Hl' & Hc').
    { destruct (N.eqb_spec index (cs - 1)) as [Heq|Hne]; simpl.
      - eexists. split; [done|]. simpl. fold b3 m3. rewrite <-Heq. done.
      - destruct (layout_live _ _ _ _ Hl3 (cs - 1)) as (q & Hq & _); [arith | congruence |].
        eexists. split.
        { apply movePairToIndex_inv. exists q. simpl. fold b b3. split_and!; [done | arith | done]. }
        simpl. fold b3 m3. split_and!; [done..| rewrite !length_insert; arith | |].
        + apply layout_move; [done | arith | done | done].
        + apply classified_move; [done | done | arith | done | arith |].
          transitivity true; [apply N.ltb_lt | symmetry; apply N.ltb_lt]; arith. }
    simpl. rewrite Hcs', Hn', Hdn, Hdcs.
    (* second relocation: the last concave slot fills the vacated slot *)
    assert (Hshift : classified (cs - 1) n (Some (cs - 1)) (mBuffer s')).
    { apply (classified_shift cs); [done|]. intros j Hj Hjne.
      assert (j ≠ cs - 1) by congruence.
      destruct (N.ltb_spec j cs); [symmetry; apply N.ltb_lt | symmetry; apply N.ltb_ge]; arith. }
    destruct (N.eqb_spec cs n) as [Hall|Hsome]; simpl.
    + rewrite ?Hcs', ?Hdcs.
      eexists. split; [done|]. simpl. rewrite ?Hcs', ?Hcap', ?Hn', ?Hdn.
      split_and!; [| arith | arith]. split; simpl.
      * replace (n - 1) with (cs - 1) by arith.
        apply (layout_shrink n); [done | arith].
      * replace (n - 1) with (cs - 1) by arith.
        apply (classified_shrink _ n); [done | arith].
      * arith.
      * arith.
      * by rewrite Hcap'.
    + destruct (layout_live _ _ _ _ Hl' (n - 1)) as (q & Hq & _);
        [arith | intros [= ?]; arith |].
      assert (Hmove : movePairToIndex (n - 1) (cs - 1) s'
                      = Some (relocated s' (n - 1) (cs - 1) q)).
      { apply movePairToIndex_inv. exists q. split_and!; [done | arith | done]. }
      rewrite Hmove. simpl. rewrite ?Hcs', ?Hcap', ?Hdcs, ?Hn', ?Hdn.
      eexists. split; [done|]. simpl. rewrite ?Hcs', ?Hcap', ?Hdcs, ?Hn', ?Hdn.
      split_and!; [| arith | arith]. split; simpl.
      * apply (layout_shrink n); [|arith]. apply layout_move; [done | arith | arith | done].
      * apply (classified_shrink _ n) with (h := n - 1); [|arith].
        apply classified_move; [done | done | arith | arith | arith |].
        transitivity false; [apply N.ltb_ge | symmetry; apply N.ltb_ge]; arith.
      * arith.
      * arith.
      * by rewrite Hcap'.
Qed.

(** ** [addPair] keeps the invariant *)

Lemma allocate_wf s k s' :
  wf s → k < 2 ^ 64 → allocate k s = Some s' →
  wf s' ∧ mNbPairs s' = mNbPairs s
  ∧ mConcavePairsStartIndex s' = mConcavePairsStartIndex s
  ∧ mMapPairIdToPairIndex s' = mMapPairIdToPairIndex s
  ∧ mNbAllocatedPairs s' = k.
Proof.
  intros [Hl Hc Hb Hcap Hcap64] Hk. unfold allocate.
  destruct (N.ltb_spec k (mNbPairs s)) as [|Hkn]; [done|].
  destruct (N.ltb_spec (N.of_nat (length (mBuffer s))) (mNbPairs s)) as [|Hlen]; [done|].
  intros [= <-]. simpl. split_and!; [|done..].
  split; simpl.
  - by apply layout_reallocate.
  - apply classified_reallocate; [done | lia].
  - done.
  - rewrite length_app, length_take, length_replicate. lia.
  - done.
Qed.

Lemma prepareAddPair_spec s convex index s1 :
  wf s → prepareAddPair convex s = Some (index, s1) →
  let n := mNbPairs s in
  let cs := mConcavePairsStartIndex s in
  mNbPairs s1 = n
  ∧ length (mBuffer s1) = N.to_nat (mNbAllocatedPairs s1)
  ∧ mNbAllocatedPairs s1 < 2 ^ 64
  ∧ index = (if convex then cs else n)
  ∧ mConcavePairsStartIndex s1 = (if convex then incr64 cs else cs)
  ∧ (index = n ∨ (N.to_nat n < length (mBuffer s1))%nat)
  ∧ ((N.to_nat n < length (mBuffer s1))%nat →
       layout (n + 1) (Some index) (mBuffer s1) (mMapPairIdToPairIndex s1)
       ∧ classified (if convex then cs + 1 else cs) (n + 1) (Some index) (mBuffer s1))
  ∧ (∀ k, mMapPairIdToPairIndex s1 !! k = None ↔ mMapPairIdToPairIndex s !! k = None).
Proof.
  intros Hs Hprep n cs. unfold prepareAddPair in Hprep.
  (* growing the buffer *)
  assert (∃ s0, (if mNbPairs s =? mNbAllocatedPairs s
                 then allocate (mul64 (mNbAllocatedPairs s) 2) s else Some s) = Some s0
                ∧ wf s0 ∧ mNbPairs s0 = n ∧ mConcavePairsStartIndex s0 = cs
                ∧ mMapPairIdToPairIndex s0 = mMapPairIdToPairIndex s)
    as (s0 & Hs0 & Hwf0 & Hn0 & Hcs0 & Hm0).
  { destruct (mNbPairs s =? mNbAllocatedPairs s).
    - destruct (allocate (mul64 (mNbAllocatedPairs s) 2) s) as [s0|] eqn:Halloc; [|done].
      exists s0. split; [done|].
      destruct (allocate_wf s _ s0 Hs (wrap64_bound _) Halloc) as (? & ? & ? & ? & _). done.
    - by exists s. }
  rewrite Hs0 in Hprep. simpl in Hprep. clear Hs0.
  destruct Hwf0 as [Hl Hc Hb Hcap Hcap64]. rewrite Hn0, Hcs0 in *. clear Hs.
  destruct convex; simpl in Hprep.
  - (* convex vs convex: the first concave slot moves to the end *)
    assert (Hside : ∀ j, j < n + 1 → Some cs ≠ Some j → (j <? cs) = (j <? cs + 1)).
    { intros j _ Hj. assert (j ≠ cs) by congruence.
      destruct (N.ltb_spec j cs); [symmetry; apply N.ltb_lt | symmetry; apply N.ltb_ge]; lia. }
    destruct (N.eqb_spec cs n) as [Heq|Hne]; simpl in Hprep.
    + injection Hprep as <- <-. simpl. rewrite Hn0, Hcs0, Hm0.
      split_and!; [done.. | by left | | naive_solver].
      intros Hlen. rewrite <-Hm0. rewrite Heq in Hside, Hc |- *. split.
      * by apply layout_grow.
      * apply (classified_shift n); [by apply classified_grow | done].
    + destruct (movePairToIndex cs n s0) as [s2|] eqn:Hmove; [|done].
      apply movePairToIndex_inv in Hmove as (p & Hp & Hlen & ->).
      simpl in Hprep. injection Hprep as <- <-. simpl.
      rewrite !length_insert, Hn0, Hcs0, Hm0.
      assert (Hmp : mMapPairIdToPairIndex s !! pairId p = Some cs).
      { destruct (layout_live _ _ _ _ Hl cs) as (p' & Hp' & Hmp); [lia | done |].
        rewrite Hm0 in Hmp. congruence. }
      split_and!; [done.. | by right | |].
      * intros _. split.
        -- rewrite <-Hm0. apply layout_move; [by apply layout_grow | lia | done | done].
        -- apply (classified_shift cs); [|done].
           apply classified_move; [by apply classified_grow | done | lia | done | done |].
           transitivity false; [apply N.ltb_ge | symmetry; apply N.ltb_ge]; lia.
      * intros k. destruct (decide (k = pairId p)) as [->|Hk].
        -- rewrite lookup_insert_eq, Hmp. done.
        -- by rewrite lookup_insert_ne, lookup_delete_ne.
  - (* convex vs concave: the pair goes to the end *)
    injection Hprep as <- <-. rewrite Hn0, Hcs0, Hm0.
    split_and!; [done.. | by left | | naive_solver].
    intros Hlen. rewrite <-Hm0. split; [by apply layout_grow | by apply classified_grow].
Qed.

Lemma addPair_wf s shape1 shape2 active k s' :
  wf s → addPair shape1 shape2 active s = Some (k, s') →
  let convex := isConvex (getEntity shape1) && isConvex (getEntity shape2) in
  wf s'
  ∧ k = computePairId pairNumbers (getBroadPhaseId shape1) (getBroadPhaseId shape2)
  ∧ mMapPairIdToPairIndex s !! k = None
  ∧ mNbPairs s' = mNbPairs s + 1
  ∧ mConcavePairsStartIndex s' = mConcavePairsStartIndex s + (if convex then 1 else 0)
  ∧ mMapPairIdToPairIndex s' !! k
    = Some (if convex then mConcavePairsStartIndex s else mNbPairs s).
Proof.
  intros Hs Hadd convex. unfold OverlappingPairs.addPair in Hadd. fold convex in Hadd.
  destruct (prepareAddPair convex s) as [[index s1]|] eqn:Hprep; [|done].
  simpl in Hadd.
  destruct (prepareAddPair_spec s convex index s1 Hs Hprep)
    as (Hn1 & Hlen1 & Hcap1 & Hindex & Hcs1 & Hroom & Hlayout & Hdom).
  pose proof (wf_boundary s Hs) as Hb.
  set (data := mkPairData _ _ _ _ _ _ _ _) in Hadd.
  destruct (array_set (mBuffer s1) index data) as [b|] eqn:Hset; [|done].
  apply array_set_inv in Hset as [Hlt ->]. simpl in Hadd.
  destruct (Map_add _ index (mMapPairIdToPairIndex s1)) as [m|] eqn:Hmap; [|done].
  unfold Map_add in Hmap.
  destruct (mMapPairIdToPairIndex s1 !! _) eqn:Hfresh in Hmap; [done|].
  injection Hmap as <-. simpl in Hadd. injection Hadd as <- <-. simpl.
  assert (Hlen : (N.to_nat (mNbPairs s) < length (mBuffer s1))%nat).
  { destruct Hroom as [->|]; done. }
  destruct (Hlayout Hlen) as [Hl Hc].
  assert (Hn64 : mNbPairs s + 1 < 2 ^ 64) by lia.
  rewrite Hn1, Hcs1, (incr64_small _ Hn64).
  assert (Hcs : (if convex then incr64 (mConcavePairsStartIndex s)
                 else mConcavePairsStartIndex s)
                = mConcavePairsStartIndex s + (if convex then 1 else 0)).
  { destruct convex; [apply incr64_small|]; lia. }
  rewrite Hcs.
  split_and!; [| done | by apply Hdom | done | done |].
  - split; simpl; rewrite ?Hn1, ?Hcs1, ?Hcs, ?(incr64_small _ Hn64).
    + apply (layout_fill _ _ _ _ data); done.
    + apply classified_fill; [|done|].
      * destruct convex; [done|]. by rewrite N.add_0_r.
      * unfold OverlappingPairs.isConvexVsConvex. simpl. fold convex.
        rewrite Hindex. destruct convex; symmetry; [apply N.ltb_lt | apply N.ltb_ge]; lia.
    + destruct convex; lia.
    + by rewrite length_insert.
    + done.
  - rewrite lookup_insert_eq. by rewrite Hindex.
Qed.

(** ** [addPair] succeeds on an absent identity when the buffer can grow *)

Lemma prepareAddPair_succeeds s convex :
  wf s →
  mNbPairs s < mNbAllocatedPairs s
  ∨ (0 < mNbAllocatedPairs s ∧ 2 * mNbAllocatedPairs s < 2 ^ 64) →
  ∃ index s1, prepareAddPair convex s = Some (index, s1)
              ∧ (N.to_nat (mNbPairs s) < length (mBuffer s1))%nat.
Proof.
  intros Hs Hroom. pose proof (wf_count_le s Hs) as Hle.
  unfold prepareAddPair.
  assert (∃ s0, (if mNbPairs s =? mNbAllocatedPairs s
                 then allocate (mul64 (mNbAllocatedPairs s) 2) s else Some s) = Some s0
                ∧ wf s0 ∧ mNbPairs s0 = mNbPairs s
                ∧ mConcavePairsStartIndex s0 = mConcavePairsStartIndex s
                ∧ (N.to_nat (mNbPairs s) < length (mBuffer s0))%nat)
    as (s0 & -> & Hs0 & Hn0 & Hcs0 & Hlen0).
  { destruct (N.eqb_spec (mNbPairs s) (mNbAllocatedPairs s)) as [Hfull|Hfree].
    - destruct Hroom as [|[Hpos Hdouble]]; [lia|].
      assert (Hmul : mul64 (mNbAllocatedPairs s) 2 = 2 * mNbAllocatedPairs s).
      { unfold mul64. rewrite wrap64_small by lia. lia. }
      pose proof (wf_capacity s Hs) as Hcap.
      assert (∃ s0, allocate (mul64 (mNbAllocatedPairs s) 2) s = Some s0)
        as [s0 Halloc].
      { unfold allocate. rewrite Hmul.
        destruct (N.ltb_spec (2 * mNbAllocatedPairs s) (mNbPairs s)); [lia|].
        destruct (N.ltb_spec (N.of_nat (length (mBuffer s))) (mNbPairs s)); [lia|].
        by eexists. }
      exists s0. split; [done|].
      destruct (allocate_wf s _ s0 Hs (wrap64_bound _) Halloc) as (Hs0 & ? & ? & _ & Hcap0).
      split_and!; [done..|].
      fold (mul64 (mNbAllocatedPairs s) 2) in Hcap0.
      rewrite (wf_capacity s0 Hs0), Hcap0, Hmul. lia.
    - exists s. split_and!; [done..|]. rewrite (wf_capacity s Hs). lia. }
  simpl. rewrite Hn0, Hcs0.
  destruct convex; simpl; [|by eexists _, _].
  destruct (N.eqb_spec (mConcavePairsStartIndex s) (mNbPairs s)) as [Hall|Hsome]; simpl.
  - by eexists _, _.
  - pose proof (wf_boundary s Hs) as Hb.
    destruct (array_get_is_Some (mBuffer s0) (mConcavePairsStartIndex s)) as [p Hp]; [lia|].
    assert (Hmove : movePairToIndex (mConcavePairsStartIndex s) (mNbPairs s) s0
                    = Some (relocated s0 (mConcavePairsStartIndex s) (mNbPairs s) p)).
    { apply movePairToIndex_inv. by exists p. }
    rewrite Hmove. simpl. eexists _, _. split; [done|].
    simpl. by rewrite !length_insert.
Qed.

Lemma addPair_succeeds s shape1 shape2 active :
  wf s →
  mMapPairIdToPairIndex s
    !! computePairId pairNumbers (getBroadPhaseId shape1) (getBroadPhaseId shape2) = None →
  mNbPairs s < mNbAllocatedPairs s
  ∨ (0 < mNbAllocatedPairs s ∧ 2 * mNbAllocatedPairs s < 2 ^ 64) →
  ∃ s', addPair shape1 shape2 active s
        = Some (computePairId pairNumbers (getBroadPhaseId shape1) (getBroadPhaseId shape2), s').
Proof.
  intros Hs Habsent Hroom.
  destruct (prepareAddPair_succeeds s
              (isConvex (getEntity shape1) && isConvex (getEntity shape2)) Hs Hroom)
    as (index & s1 & Hprep & Hlen).
  destruct (prepareAddPair_spec s _ index s1 Hs Hprep)
    as (_ & _ & _ & Hindex & _ & _ & _ & Hdom).
  pose proof (wf_boundary s Hs) as Hb.
  unfold OverlappingPairs.addPair. rewrite Hprep. simpl.
  rewrite array_set_Some by (destruct (_ && _); lia). simpl.
  unfold Map_add. rewrite (proj2 (Hdom _) Habsent). simpl.
  by eexists.
Qed.

Lemma create_wf INIT s : INIT < 2 ^ 64 → create INIT = Some s → wf s.
Proof.
  intros HI Hcreate. unfold create in Hcreate.
  eapply allocate_wf in Hcreate as [Hs _]; [done | | done].
  split; simpl; [| | done | done | lia].
  - split; simpl; [ | | by rewrite map_size_empty | done | lia].
    + intros i Hi. lia.
    + intros k i Hk. by rewrite lookup_empty in Hk.
  - intros _ i p Hi. lia.
Qed.

Lemma removePair_registered k s s' :
  removePair k s = Some s' → ∃ index, mMapPairIdToPairIndex s !! k = Some index.
Proof.
  unfold removePair, Map_at.
  destruct (mMapPairIdToPairIndex s !! k) as [index|]; [by exists index | done].
Qed.

Lemma reachable_wf INIT s :
  INIT < 2 ^ 64 → reachable isConvex pairNumbers INIT s → wf s.
Proof.
  intros HI Hreach. induction Hreach as [s Hs|s sh1 sh2 act k s' _ IH Hadd|s k s' _ IH Hrem].
  - by apply (create_wf INIT).
  - by destruct (addPair_wf s sh1 sh2 act k s' IH Hadd) as [? _].
  - destruct (removePair_registered k s s' Hrem) as [index Hk].
    destruct (removePair_wf s k index IH Hk) as (s'' & Hrem' & Hs'' & _).
    congruence.
Qed.

End Invariant.

(** The registry is consistent: the slots below the pair count are in use and
    are the ones the lookup leads to, the concave start is at most the pair
    count, and the buffer has the allocated number of slots. This is the
    invariant without the partition by kind of pair. *)
Definition consistent (s : state) : Prop := wf (λ _, true) false s.

Lemma wf_consistent isConvex strict s : wf isConvex strict s → consistent s.
Proof. intros [Hl _ Hb Hcap Hcap64]. by split. Qed.

Lemma consistent_wf isConvex s : consistent s → wf isConvex false s.
Proof. intros [Hl _ Hb Hcap Hcap64]. by split. Qed.

(** ** A worked example

    Entities below 10 carry convex shapes; identities are paired as in
    Szudzik's function; the buffer starts with two slots. *)

Definition demo_isConvex (e : Entity) : bool := e <? 10.

Definition demo_pairNumbers (number1 number2 : uint32) : uint64 :=
  number1 * number1 + number1 + number2.

Definition demo_shape (entity : Entity) (broadPhaseId : int32) : ProxyShape :=
  mkProxyShape entity broadPhaseId entity.

(** Three pairs are added (one convex-vs-concave, then two convex-vs-convex,
    the last one after the buffer has grown), then the first convex one is
    removed. *)
Definition demo_s0 : state :=
  Eval vm_compute in default (mkState 0 0 0 [] ∅ ∅) (create 2).

Definition demo_s1 : state :=
  Eval vm_compute in
    default demo_s0
      (snd <$> addPair demo_isConvex demo_pairNumbers (demo_shape 1 1) (demo_shape 12 2) true demo_s0).

Definition demo_s2 : state :=
  Eval vm_compute in
    default demo_s1
      (snd <$> addPair demo_isConvex demo_pairNumbers (demo_shape 1 1) (demo_shape 3 3) true demo_s1).

Definition demo_s3 : state :=
  Eval vm_compute in
    default demo_s2
      (snd <$> addPair demo_isConvex demo_pairNumbers (demo_shape 3 3) (demo_shape 4 4) true demo_s2).

Definition demo_state : state :=
  Eval vm_compute in default demo_s3 (removePair 13 demo_s3).

Lemma demo_reachable_s2 : reachable demo_isConvex demo_pairNumbers 2 demo_s2.
Proof.
  apply (reachable_addPair _ _ _ demo_s1 (demo_shape 1 1) (demo_shape 3 3) true 13);
    [|by vm_compute].
  apply (reachable_addPair _ _ _ demo_s0 (demo_shape 1 1) (demo_shape 12 2) true 7);
    [|by vm_compute].
  apply reachable_create. by vm_compute.
Qed.

Lemma demo_reachable_s3 : reachable demo_isConvex demo_pairNumbers 2 demo_s3.
Proof.
  apply (reachable_addPair _ _ _ demo_s2 (demo_shape 3 3) (demo_shape 4 4) true 23);
    [apply demo_reachable_s2 | by vm_compute].
Qed.

Lemma demo_reachable : reachable demo_isConvex demo_pairNumbers 2 demo_state.
Proof.
  apply (reachable_removePair _ _ _ demo_s3 13); [apply demo_reachable_s3 | by vm_compute].
Qed.

(** ** The cache of last-frame collision infos *)

(** What one sweep does to an entry. *)
Definition sweepEntry (info : LastFrameCollisionInfo) : option LastFrameCollisionInfo :=
  if isObsolete info then None else Some {| isObsolete := true |}.

Definition sweepSlot (p : PairData) : PairData :=
  withLastFrameCollisionInfos (sweepLastFrameCollisionInfos (lastFrameCollisionInfos p)) p.

Definition sweepBody (i : N) (s : state) : option state :=
  p ← array_get (mBuffer s) i;
  b ← array_set (mBuffer s) i (sweepSlot p);
  Some (withBuffer b s).

Lemma forEachIndex_sweep count i s :
  (N.to_nat i + count ≤ length (mBuffer s))%nat →
  i + N.of_nat count < 2 ^ 64 →
  ∃ s', forEachIndex count i sweepBody s = Some s'
        ∧ mNbPairs s' = mNbPairs s
        ∧ mMapPairIdToPairIndex s' = mMapPairIdToPairIndex s
        ∧ length (mBuffer s') = length (mBuffer s)
        ∧ ∀ j p, array_get (mBuffer s) j = Some p →
            array_get (mBuffer s') j
            = Some (if bool_decide (i ≤ j < i + N.of_nat count) then sweepSlot p else p).
Proof.
  revert i s. induction count as [|count IH]; intros i s Hlen H64.
  - exists s. split_and!; [done..|]. intros j p Hp.
    rewrite bool_decide_eq_false_2 by lia. done.
  - destruct (array_get_is_Some (mBuffer s) i) as [pi Hpi]; [lia|].
    set (s1 := withBuffer (<[N.to_nat i := sweepSlot pi]> (mBuffer s)) s).
    assert (Hbody : sweepBody i s = Some s1).
    { unfold sweepBody. rewrite Hpi. simpl.
      assert (Hlt : (N.to_nat i < length (mBuffer s))%nat) by (clear -Hlen; lia).
      by rewrite array_set_Some by done. }
    assert (Hi : incr64 i = i + 1) by (apply incr64_small; lia).
    change (forEachIndex (S count) i sweepBody s)
      with (sweepBody i s ≫= forEachIndex count (incr64 i) sweepBody).
    rewrite Hbody, Hi. simpl.
    destruct (IH (i + 1) s1) as (s' & Hrun & Hn & Hm & Hlen' & Hget).
    { unfold s1. simpl. rewrite length_insert. lia. }
    { lia. }
    exists s'. split_and!; [done | done | done | |].
    + rewrite Hlen'. unfold s1. simpl. by rewrite length_insert.
    + intros j p Hp. destruct (decide (i = j)) as [<-|Hne].
      * rewrite (Hget i (sweepSlot pi)).
        -- rewrite bool_decide_eq_false_2 by lia.
           rewrite bool_decide_eq_true_2 by lia. congruence.
        -- unfold s1. simpl. apply array_get_insert_eq. lia.
      * rewrite (Hget j p).
        -- f_equal. by rewrite (bool_decide_ext (i + 1 ≤ j < i + 1 + N.of_nat count)
                                 (i ≤ j < i + N.of_nat (S count))) by lia.
        -- unfold s1. simpl. by rewrite array_get_insert_ne.
Qed.

Lemma clearObsolete_spec s :
  (N.to_nat (mNbPairs s) ≤ length (mBuffer s))%nat → mNbPairs s < 2 ^ 64 →
  ∃ s', clearObsoleteLastFrameCollisionInfos s = Some s'
        ∧ mNbPairs s' = mNbPairs s
        ∧ length (mBuffer s') = length (mBuffer s)
        ∧ ∀ i key, i < mNbPairs s →
            lastFrameInfo s' i key = lastFrameInfo s i key ≫= sweepEntry.
Proof.
  intros Hlen H64.
  destruct (forEachIndex_sweep (N.to_nat (mNbPairs s)) 0 s) as (s' & Hrun & Hn & _ & Hlen' & Hget);
    [lia | lia |].
  exists s'. split_and!; [done..|].
  intros i key Hi. unfold lastFrameInfo.
  destruct (array_get_is_Some (mBuffer s) i) as [p Hp]; [lia|].
  rewrite (Hget i p Hp), Hp. simpl.
  rewrite bool_decide_eq_true_2 by lia. simpl.
  apply lookup_omap.
Qed.

Lemma addLastFrameInfoIfNecessary_spec s k index shapeId1 shapeId2 :
  mMapPairIdToPairIndex s !! k = Some index →
  (N.to_nat index < length (mBuffer s))%nat →
  ∃ s1, addLastFrameInfoIfNecessary k shapeId1 shapeId2 s
        = Some ({| isObsolete := false |}, s1)
        ∧ mNbPairs s1 = mNbPairs s
        ∧ length (mBuffer s1) = length (mBuffer s)
        ∧ lastFrameInfo s1 index (shapeId1, shapeId2) = Some {| isObsolete := false |}.
Proof.
  intros Hk Hlt.
  destruct (array_get_is_Some (mBuffer s) index Hlt) as [p Hp].
  unfold addLastFrameInfoIfNecessary, Map_at. rewrite Hk. simpl. rewrite Hp. simpl.
  destruct (lastFrameCollisionInfos p !! (shapeId1, shapeId2)) as [old|] eqn:Hold.
  - rewrite array_set_Some by done. simpl. eexists. split_and!; [done | done | |].
    + simpl. by rewrite length_insert.
    + unfold lastFrameInfo. simpl. rewrite array_get_insert_eq by done. simpl.
      by rewrite lookup_insert_eq.
  - unfold Map_add. rewrite Hold. simpl. rewrite array_set_Some by done. simpl.
    eexists. split_and!; [done | done | |].
    + simpl. by rewrite length_insert.
    + unfold lastFrameInfo. simpl. rewrite array_get_insert_eq by done. simpl.
      by rewrite lookup_insert_eq.
Qed.

(** ** Consistency is kept by the operations *)

Lemma consistent_countsConsistent s : consistent s → countsConsistent s.
Proof. apply wf_countsConsistent. Qed.

Lemma consistent_registered s k i :
  consistent s → mMapPairIdToPairIndex s !! k = Some i →
  i < mNbPairs s ∧ ∃ p, array_get (mBuffer s) i = Some p ∧ pairId p = k.
Proof. apply wf_registered. Qed.

Lemma movePairToIndex_counts s src dest s' :
  consistent s → src < mNbPairs s → movePairToIndex src dest s = Some s' →
  countsConsistent s'.
Proof.
  intros Hs Hsrc Hmove.
  apply movePairToIndex_inv in Hmove as (p & Hp & _ & ->).
  destruct (consistent_countsConsistent s Hs) as [Hsize Hb].
  destruct (layout_live _ _ _ _ (wf_layout _ _ s Hs) src Hsrc) as (p' & Hp' & Hm); [done|].
  assert (p' = p) as -> by congruence.
  split; simpl; [|done]. rewrite Hsize. unfold Map_size. f_equal.
  rewrite map_size_insert_None by apply lookup_delete_eq.
  rewrite map_size_delete_Some by eauto.
  assert (size (mMapPairIdToPairIndex s) ≠ 0%nat); [|lia].
  intros Hz. apply map_size_empty_inv in Hz. rewrite Hz in Hm. by rewrite lookup_empty in Hm.
Qed.

Lemma swapPairs_consistent s index1 index2 s' :
  consistent s → index1 < mNbPairs s → index2 < mNbPairs s →
  swapPairs index1 index2 s = Some s' → consistent s'.
Proof.
  intros Hs H1 H2 Hswap. unfold swapPairs in Hswap.
  destruct (array_get (mBuffer s) index1) as [p1|] eqn:Hp1; [|done]. simpl in Hswap.
  destruct (destroyPair index1 s) as [s1|] eqn:Hd; [|done]. simpl in Hswap.
  apply destroyPair_inv in Hd as (p & Hp & ->).
  assert (p = p1) as -> by congruence.
  destruct (movePairToIndex index2 index1 (destroyed s index1 p1)) as [s2|] eqn:Hmove; [|done].
  simpl in Hswap.
  apply movePairToIndex_inv in Hmove as (q & Hq & Hlen & ->). simpl in Hq, Hlen.
  destruct (array_set _ index2 p1) as [b|] eqn:Hset; [|done].
  apply array_set_inv in Hset as [_ ->]. simpl in Hswap.
  unfold Map_add in Hswap. simpl in Hswap.
  destruct (_ !! pairId p1) eqn:Hfresh in Hswap; [done|].
  injection Hswap as <-.
  destruct Hs as [Hl _ Hb Hcap Hcap64].
  destruct (decide (index2 = index1)) as [->|Hne].
  - (* swapping a slot with itself would insert its identity twice *)
    rewrite array_get_insert_eq in Hq by (by eapply array_get_lt).
    injection Hq as <-. simpl in Hfresh. by rewrite lookup_insert_eq in Hfresh.
  - pose proof (layout_destroy _ _ _ index1 p1 (withLastFrameCollisionInfos ∅ p1) Hl H1 Hp1) as Hl1.
    pose proof (layout_move _ _ _ index1 index2 q (withLastFrameCollisionInfos ∅ q)
                  Hl1 H2 Hne Hq) as Hl2.
    pose proof (layout_fill _ _ _ index2 p1 Hl2 Hfresh) as Hl3.
    split; simpl; [done | done | done | | done].
    by rewrite !length_insert.
Qed.

(** ** The counts while a slot is being recycled *)

(** [removePair] at work on the pair [p] registered under [pairId]: the
    state in which the pair has been taken off the lists of its two shapes,
    on which [destroyPair] and the relocations run. *)
Definition detached (s : state) (pairId : uint64) (p : PairData) : state :=
  let s1 := setOverlappingPairs (proxyShape1 p)
              (List_remove pairId (getOverlappingPairs s (proxyShape1 p))) s in
  setOverlappingPairs (proxyShape2 p)
    (List_remove pairId (getOverlappingPairs s1 (proxyShape2 p))) s1.

(** One destroyed slot below the pair count, every other slot in use: the
    state between [destroyPair] and the end of the operation that called
    it. *)
Definition recycling (s : state) : Prop :=
  ∃ hole, layout (mNbPairs s) (Some hole) (mBuffer s) (mMapPairIdToPairIndex s).

Lemma recycling_counts s :
  recycling s → mNbPairs s = Map_size (mMapPairIdToPairIndex s) + 1.
Proof.
  intros [hole Hl]. apply layout_size in Hl. unfold Map_size. lia.
Qed.

Lemma recycling_not_countsConsistent s : recycling s → ¬ countsConsistent s.
Proof.
  intros Hs [Hcount _]. apply recycling_counts in Hs. lia.
Qed.

Lemma destroyPair_hole s index :
  consistent s → index < mNbPairs s →
  ∃ s3, destroyPair index s = Some s3
        ∧ mNbPairs s3 = mNbPairs s
        ∧ layout (mNbPairs s) (Some index) (mBuffer s3) (mMapPairIdToPairIndex s3).
Proof.
  intros Hs Hindex. pose proof (wf_layout _ _ s Hs) as Hl.
  destruct (layout_live _ _ _ _ Hl index Hindex) as (p & Hp & _); [done|].
  exists (destroyed s index p). split_and!; [|done|].
  - apply destroyPair_inv. by exists p.
  - by apply layout_destroy.
Qed.

Lemma movePairToIndex_hole s hole src :
  layout (mNbPairs s) (Some hole) (mBuffer s) (mMapPairIdToPairIndex s) →
  src < mNbPairs s → src ≠ hole →
  ∃ s', movePairToIndex src hole s = Some s'
        ∧ mNbPairs s' = mNbPairs s
        ∧ layout (mNbPairs s) (Some src) (mBuffer s') (mMapPairIdToPairIndex s').
Proof.
  intros Hl Hsrc Hne.
  pose proof (layout_hole _ _ _ _ Hl hole eq_refl) as Hhole.
  pose proof (layout_fit _ _ _ _ Hl) as Hfit.
  destruct (layout_live _ _ _ _ Hl src Hsrc) as (p & Hp & _); [congruence|].
  exists (relocated s src hole p). split_and!; [|done|].
  - apply movePairToIndex_inv. exists p. split_and!; [done | lia | done].
  - by apply layout_move.
Qed.

(** The moves fill the hole one after the other: each takes a slot in use
    to the slot the move before it has vacated, the first one to [hole]. *)
Fixpoint chained (n hole : N) (moves : list (N * N)) : Prop :=
  match moves with
  | [] => True
  | (src, dest) :: moves' => dest = hole ∧ src < n ∧ src ≠ hole ∧ chained n src moves'
  end.

Lemma chained_prefix n hole moves moves' :
  moves `prefix_of` moves' → chained n hole moves' → chained n hole moves.
Proof.
  intros [rest ->]. revert hole.
  induction moves as [|[src dest] moves IH]; intros hole; [done|].
  simpl. intros (? & ? & ? & ?). split_and!; [done..|]. by apply IH.
Qed.

Lemma relocations_chained index concaveStart nbPairs :
  index < nbPairs → concaveStart ≤ nbPairs →
  chained nbPairs index (relocations index concaveStart nbPairs).
Proof.
  intros Hindex Hb. unfold relocations, relocation.
  destruct (N.leb_spec concaveStart index) as [Hconcave|Hconvex].
  - destruct (N.eqb_spec (nbPairs - 1) index); simpl; [done|].
    split_and!; [done | lia | done | done].
  - destruct (N.eqb_spec (concaveStart - 1) index) as [<-|Hne];
      destruct (N.eqb_spec (nbPairs - 1) (concaveStart - 1)); simpl; try done.
    + split_and!; [done | lia | done | done].
    + split_and!; [done | lia | done | done].
    + split_and!; [done | lia | done | done | lia | done | done].
Qed.

Lemma relocate_chained moves s hole :
  chained (mNbPairs s) hole moves →
  layout (mNbPairs s) (Some hole) (mBuffer s) (mMapPairIdToPairIndex s) →
  ∃ s', relocate moves s = Some s' ∧ recycling s'.
Proof.
  revert s hole. induction moves as [|[src dest] moves IH]; intros s hole Hchain Hl.
  - exists s. split; [done | by exists hole].
  - destruct Hchain as (-> & Hsrc & Hne & Hchain).
    destruct (movePairToIndex_hole s hole src Hl Hsrc Hne) as (s1 & Hmove & Hn & Hl1).
    simpl. rewrite Hmove. simpl. rewrite <-Hn in Hchain, Hl1. by apply (IH s1 src).
Qed.

Lemma removePair_recycling s pairId index p moves :
  consistent s →
  mMapPairIdToPairIndex s !! pairId = Some index →
  array_get (mBuffer s) index = Some p →
  moves `prefix_of` relocations index (mConcavePairsStartIndex s) (mNbPairs s) →
  ∃ s3 s4, destroyPair index (detached s pairId p) = Some s3
           ∧ relocate moves s3 = Some s4
           ∧ mNbPairs s4 = Map_size (mMapPairIdToPairIndex s4) + 1.
Proof.
  intros Hs Hk Hp Hprefix.
  destruct (consistent_registered s pairId index Hs Hk) as (Hindex & _).
  assert (Hs2 : consistent (detached s pairId p)) by (by destruct Hs).
  destruct (destroyPair_hole (detached s pairId p) index Hs2 Hindex) as (s3 & Hd & Hn3 & Hl3).
  simpl in Hn3, Hl3.
  destruct (relocate_chained moves s3 index) as (s4 & Hrun & Hrec).
  - rewrite Hn3. apply (chained_prefix _ _ _ _ Hprefix).
    apply relocations_chained; [done | apply Hs].
  - by rewrite Hn3.
  - exists s3, s4. split_and!; [done | done | by apply recycling_counts].
Qed.

Lemma swapPairs_recycling s index1 index2 :
  consistent s → index1 < mNbPairs s → index2 < mNbPairs s → index1 ≠ index2 →
  ∃ s1 s2, destroyPair index1 s = Some s1
           ∧ movePairToIndex index2 index1 s1 = Some s2
           ∧ mNbPairs s2 = Map_size (mMapPairIdToPairIndex s2) + 1.
Proof.
  intros Hs H1 H2 Hne.
  destruct (destroyPair_hole s index1 Hs H1) as (s1 & Hd & Hn1 & Hl1).
  destruct (movePairToIndex_hole s1 index1 index2) as (s2 & Hmove & Hn2 & Hl2);
    [by rewrite Hn1 | by rewrite Hn1 | done |].
  exists s1, s2. split_and!; [done | done |].
  apply recycling_counts. exists index2. by rewrite Hn2.
Qed.

Section Claims.

Context (isConvex : Entity → bool) (pairNumbers : uint32 → uint32 → uint64).

Local Abbreviation addPair := (addPair isConvex pairNumbers).

Lemma addPair_consistent s shape1 shape2 isActive k s' :
  consistent s → addPair shape1 shape2 isActive s = Some (k, s') → consistent s'.
Proof.
  intros Hs%(consistent_wf isConvex) Hadd.
  destruct (addPair_wf isConvex pairNumbers false s _ _ _ k s' Hs Hadd) as [Hs' _].
  by apply wf_consistent in Hs'.
Qed.

Lemma removePair_consistent s k s' :
  consistent s → removePair k s = Some s' → consistent s'.
Proof.
  intros Hs Hrem.
  destruct (removePair_registered k s s' Hrem) as [index Hk].
  destruct (removePair_wf _ false s k index Hs Hk) as (s'' & Hrem' & Hs'' & _).
  assert (s' = s'') as -> by congruence. exact Hs''.
Qed.

Lemma reachable_consistent INIT s :
  INIT < 2 ^ 64 → reachable isConvex pairNumbers INIT s → consistent s.
Proof.
  intros HI Hreach. apply (wf_consistent isConvex true).
  by apply (reachable_wf isConvex pairNumbers true INIT).
Qed.

(** C1. Every state the registry goes through under calls of [addPair] and
    [removePair] is partitioned: the slots below the concave start hold
    convex-vs-convex pairs, the slots from there up to the pair count hold
    convex-vs-concave pairs, and every slot below the pair count is in use. *)
Theorem partition_invariant (INIT_NB_ALLOCATED_PAIRS : uint32) (s : state) :
  INIT_NB_ALLOCATED_PAIRS < 2 ^ 32 →
  reachable isConvex pairNumbers INIT_NB_ALLOCATED_PAIRS s →
  partitioned isConvex s.
Proof.
  intros HI Hreach. apply (wf_partitioned isConvex true); [done|].
  apply (reachable_wf isConvex pairNumbers true INIT_NB_ALLOCATED_PAIRS); [lia | done].
Qed.

(** Closes an equation between two final states once the wrapped
    decrements are rewritten as subtractions. *)
Local Ltac closing :=
  simpl;
  repeat match goal with
         | H : decr64 _ = _ |- _ => rewrite !H
         end;
  reflexivity.

(** C2. On a consistent registry and for a registered pair id, [removePair]
    is: detach the pair and destroy its slot; if the slot lies in the concave
    partition, move the last concave slot into the hole; if it lies in the
    convex partition, move the last convex slot into the hole, then the last
    concave slot into the vacated last convex slot (a move whose source is
    its destination is skipped); then lower the boundary by one in the convex
    case only and the pair count by one. *)
Theorem removePair_relocations (s : state) (pairId index : uint64) :
  consistent s →
  mMapPairIdToPairIndex s !! pairId = Some index →
  removePair pairId s = removePairByRelocations pairId s
  ∧ ∃ s', removePair pairId s = Some s'
          ∧ mNbPairs s' = mNbPairs s - 1
          ∧ mConcavePairsStartIndex s'
            = (if index <? mConcavePairsStartIndex s
               then mConcavePairsStartIndex s - 1
               else mConcavePairsStartIndex s).
Proof.
  intros Hs Hk. split.
  - destruct (consistent_registered s pairId index Hs Hk) as (Hindex & p & Hp & _).
    pose proof (wf_count_bound _ _ s Hs) as Hn64.
    pose proof (wf_boundary _ _ s Hs) as Hb.
    unfold removePair, removePairByRelocations, Map_at. rewrite Hk. simpl. rewrite Hp. simpl.
    set (s2 := setOverlappingPairs _ _ (setOverlappingPairs _ _ s)).
    assert (Hn : decr64 (mNbPairs s) = mNbPairs s - 1) by (apply decr64_pos; lia).
    destruct (destroyPair index s2) as [s3|] eqn:Hd; [|done]. simpl.
    apply destroyPair_inv in Hd as (p' & _ & ->). simpl.
    rewrite ?Hn.
    unfold relocations, relocation.
    destruct (N.leb_spec (mConcavePairsStartIndex s) index) as [Hconcave|Hconvex].
    + destruct (N.eqb_spec index (mNbPairs s - 1)) as [Heq|Hne];
        destruct (N.eqb_spec (mNbPairs s - 1) index) as [Heq'|Hne']; try congruence; simpl.
      * closing.
      * destruct (movePairToIndex _ _ _) as [s4|] eqn:Hmove; [|done]. simpl.
        apply movePairToIndex_inv in Hmove as (q & _ & _ & ->). simpl.
        closing.
    + assert (Hcs : decr64 (mConcavePairsStartIndex s) = mConcavePairsStartIndex s - 1)
        by (apply decr64_pos; lia).
      rewrite ?Hcs.
      destruct (N.eqb_spec index (mConcavePairsStartIndex s - 1)) as [Heq|Hne];
        destruct (N.eqb_spec (mConcavePairsStartIndex s - 1) index) as [Heq'|Hne'];
        try congruence; simpl.
      * destruct (N.eqb_spec (mConcavePairsStartIndex s) (mNbPairs s)) as [Hall|Hsome];
          destruct (N.eqb_spec (mNbPairs s - 1) (mConcavePairsStartIndex s - 1)) as [Hall'|Hsome'];
          try lia; simpl.
        -- closing.
        -- rewrite ?Hn, ?Hcs.
           destruct (movePairToIndex _ _ _) as [s4|] eqn:Hmove; [|done]. simpl.
           apply movePairToIndex_inv in Hmove as (q & _ & _ & ->). simpl.
           closing.
      * destruct (movePairToIndex _ _ _) as [s4|] eqn:Hmove; [|done]. simpl.
        apply movePairToIndex_inv in Hmove as (q & _ & _ & ->). simpl.
        destruct (N.eqb_spec (mConcavePairsStartIndex s) (mNbPairs s)) as [Hall|Hsome];
          destruct (N.eqb_spec (mNbPairs s - 1) (mConcavePairsStartIndex s - 1)) as [Hall'|Hsome'];
          try lia; simpl.
        -- closing.
        -- rewrite ?Hn, ?Hcs.
           destruct (movePairToIndex _ _ _) as [s5|] eqn:Hmove; [|done]. simpl.
           apply movePairToIndex_inv in Hmove as (q' & _ & _ & ->). simpl.
           closing.
  - destruct (removePair_wf _ false s pairId index Hs Hk) as (s' & Hrem & _ & Hn & Hcs).
    exists s'. split_and!; [done | lia |].
    destruct (index <? mConcavePairsStartIndex s); lia.
Qed.

(** C3. On a consistent registry, for a registered pair and a pair of
    feature ids: touching the entry with [addLastFrameInfoIfNecessary] leaves
    it in the cache with its obsolescence flag cleared, whether it existed
    before or not; the next sweep ([clearObsoleteLastFrameCollisionInfos])
    keeps the entry and marks it obsolete; a second sweep with no touch in
    between deletes it. *)
Theorem lastFrameInfo_grace_period
    (s : state) (pairId index : uint64) (shapeId1 shapeId2 : uint32) :
  consistent s →
  mMapPairIdToPairIndex s !! pairId = Some index →
  ∃ info s1 s2 s3,
    addLastFrameInfoIfNecessary pairId shapeId1 shapeId2 s = Some (info, s1)
    ∧ lastFrameInfo s1 index (shapeId1, shapeId2) = Some info
    ∧ isObsolete info = false
    ∧ clearObsoleteLastFrameCollisionInfos s1 = Some s2
    ∧ (∃ info', lastFrameInfo s2 index (shapeId1, shapeId2) = Some info'
                ∧ isObsolete info' = true)
    ∧ clearObsoleteLastFrameCollisionInfos s2 = Some s3
    ∧ lastFrameInfo s3 index (shapeId1, shapeId2) = None.
Proof.
  intros Hs Hk.
  destruct (consistent_registered s pairId index Hs Hk) as (Hindex & _).
  pose proof (wf_count_bound _ _ s Hs) as Hn64.
  pose proof (layout_fit _ _ _ _ (wf_layout _ _ s Hs)) as Hfit.
  destruct (addLastFrameInfoIfNecessary_spec s pairId index shapeId1 shapeId2 Hk)
    as (s1 & Htouch & Hn1 & Hlen1 & Hinfo1); [lia|].
  destruct (clearObsolete_spec s1) as (s2 & Hsweep1 & Hn2 & Hlen2 & Hget2); [lia | lia |].
  destruct (clearObsolete_spec s2) as (s3 & Hsweep2 & _ & _ & Hget3); [lia | lia |].
  exists {| isObsolete := false |}, s1, s2, s3.
  assert (Hinfo2 : lastFrameInfo s2 index (shapeId1, shapeId2) = Some {| isObsolete := true |}).
  { rewrite Hget2 by lia. by rewrite Hinfo1. }
  split_and!; [done.. | by eexists | done |].
  rewrite Hget3 by lia. by rewrite Hinfo2.
Qed.

Lemma addPair_pairId s shape1 shape2 isActive k s' :
  addPair shape1 shape2 isActive s = Some (k, s') →
  k = computePairId pairNumbers (getBroadPhaseId shape1) (getBroadPhaseId shape2).
Proof.
  unfold OverlappingPairs.addPair. intros Hadd.
  destruct (prepareAddPair _ s) as [[index s1]|]; [|done]. simpl in Hadd.
  destruct (array_set _ _ _) as [b|]; [|done]. simpl in Hadd.
  destruct (Map_add _ _ _) as [m|]; [|done]. simpl in Hadd.
  by injection Hadd as <- _.
Qed.

(** C4. The identity [addPair] derives from two broad-phase ids does not
    depend on the order in which the two shapes are given. *)
Theorem pair_identity_symmetric (a b : int32) :
  computePairId pairNumbers a b = computePairId pairNumbers b a.
Proof.
  unfold computePairId. by rewrite N.max_comm, N.min_comm.
Qed.

(** [removePair] of a registered pair, step by step. *)
Lemma removePair_steps (s : state) (pairId index : uint64) :
  consistent s →
  mMapPairIdToPairIndex s !! pairId = Some index →
  removePair pairId s = removePairByRelocations pairId s.
Proof.
  intros Hs Hk.
  destruct (consistent_registered s pairId index Hs Hk) as (Hindex & p & Hp & _).
  pose proof (wf_count_bound _ _ s Hs) as Hn64.
  pose proof (wf_boundary _ _ s Hs) as Hb.
  unfold removePair, removePairByRelocations, Map_at. rewrite Hk. simpl. rewrite Hp. simpl.
  set (s2 := setOverlappingPairs _ _ (setOverlappingPairs _ _ s)).
  assert (Hn : decr64 (mNbPairs s) = mNbPairs s - 1) by (apply decr64_pos; lia).
  destruct (destroyPair index s2) as [s3|] eqn:Hd; [|done]. simpl.
  apply destroyPair_inv in Hd as (p' & _ & ->). simpl.
  rewrite ?Hn.
  unfold relocations, relocation.
  destruct (N.leb_spec (mConcavePairsStartIndex s) index) as [Hconcave|Hconvex].
  + destruct (N.eqb_spec index (mNbPairs s - 1)) as [Heq|Hne];
      destruct (N.eqb_spec (mNbPairs s - 1) index) as [Heq'|Hne']; try congruence; simpl.
    * closing.
    * destruct (movePairToIndex _ _ _) as [s4|] eqn:Hmove; [|done]. simpl.
      apply movePairToIndex_inv in Hmove as (q & _ & _ & ->). simpl.
      closing.
  + assert (Hcs : decr64 (mConcavePairsStartIndex s) = mConcavePairsStartIndex s - 1)
      by (apply decr64_pos; lia).
    rewrite ?Hcs.
    destruct (N.eqb_spec index (mConcavePairsStartIndex s - 1)) as [Heq|Hne];
      destruct (N.eqb_spec (mConcavePairsStartIndex s - 1) index) as [Heq'|Hne'];
      try congruence; simpl.
    * destruct (N.eqb_spec (mConcavePairsStartIndex s) (mNbPairs s)) as [Hall|Hsome];
        destruct (N.eqb_spec (mNbPairs s - 1) (mConcavePairsStartIndex s - 1)) as [Hall'|Hsome'];
        try lia; simpl.
      -- closing.
      -- rewrite ?Hn, ?Hcs.
         destruct (movePairToIndex _ _ _) as [s4|] eqn:Hmove; [|done]. simpl.
         apply movePairToIndex_inv in Hmove as (q & _ & _ & ->). simpl.
         closing.
    * destruct (movePairToIndex _ _ _) as [s4|] eqn:Hmove; [|done]. simpl.
      apply movePairToIndex_inv in Hmove as (q & _ & _ & ->). simpl.
      destruct (N.eqb_spec (mConcavePairsStartIndex s) (mNbPairs s)) as [Hall|Hsome];
        destruct (N.eqb_spec (mNbPairs s - 1) (mConcavePairsStartIndex s - 1)) as [Hall'|Hsome'];
        try lia; simpl.
      -- closing.
      -- rewrite ?Hn, ?Hcs.
         destruct (movePairToIndex _ _ _) as [s5|] eqn:Hmove; [|done]. simpl.
         apply movePairToIndex_inv in Hmove as (q' & _ & _ & ->). simpl.
         closing.
Qed.

(** C5, as the code has it. On a consistent registry, a completed
    [addPair], a completed [removePair] and a completed [swapPairs] on two
    slots below the pair count end in a consistent registry, where the pair
    count equals the size of the identity-to-index lookup and the concave
    start is at most the pair count; the same two conditions hold after
    [movePairToIndex] when it is called on a consistent registry with its
    source below the pair count, as [prepareAddPair] calls it. Inside
    [removePair] and [swapPairs], [movePairToIndex] runs after [destroyPair]
    has taken an entry out of the lookup, and there the equality fails:
    [removePair] of a registered pair is [destroyPair] on the detached state,
    then the relocations, then the two decrements, and after [destroyPair]
    and after each relocation the pair count is one above the size of the
    lookup; so it is in [swapPairs] on two different slots below the pair
    count after its [destroyPair] and its [movePairToIndex]. *)
Theorem counts_consistent_after_mutation (s : state) :
  consistent s →
  (∀ shape1 shape2 isActive pairId s',
     addPair shape1 shape2 isActive s = Some (pairId, s') →
     consistent s' ∧ countsConsistent s')
  ∧ (∀ pairId s',
       removePair pairId s = Some s' → consistent s' ∧ countsConsistent s')
  ∧ (∀ index1 index2 s',
       index1 < mNbPairs s → index2 < mNbPairs s →
       swapPairs index1 index2 s = Some s' → consistent s' ∧ countsConsistent s')
  ∧ (∀ srcIndex destIndex s',
       srcIndex < mNbPairs s →
       movePairToIndex srcIndex destIndex s = Some s' → countsConsistent s')
  ∧ (∀ pairId index p,
       mMapPairIdToPairIndex s !! pairId = Some index →
       array_get (mBuffer s) index = Some p →
       removePair pairId s
       = (s3 ← destroyPair index (detached s pairId p);
          s4 ← relocate (relocations index (mConcavePairsStartIndex s) (mNbPairs s)) s3;
          Some (withNbPairs (mNbPairs s - 1)
                  (withConcavePairsStartIndex
                     (if mConcavePairsStartIndex s <=? index
                      then mConcavePairsStartIndex s
                      else mConcavePairsStartIndex s - 1) s4)))
       ∧ ∀ moves,
           moves `prefix_of` relocations index (mConcavePairsStartIndex s) (mNbPairs s) →
           ∃ s3 s4,
             destroyPair index (detached s pairId p) = Some s3
             ∧ relocate moves s3 = Some s4
             ∧ mNbPairs s4 = Map_size (mMapPairIdToPairIndex s4) + 1
             ∧ ¬ countsConsistent s4)
  ∧ (∀ index1 index2,
       index1 < mNbPairs s → index2 < mNbPairs s → index1 ≠ index2 →
       ∃ s1 s2,
         destroyPair index1 s = Some s1
         ∧ movePairToIndex index2 index1 s1 = Some s2
         ∧ mNbPairs s2 = Map_size (mMapPairIdToPairIndex s2) + 1
         ∧ ¬ countsConsistent s2).
Proof.
  intros Hs. split_and!.
  - intros sh1 sh2 act k s' Hadd.
    pose proof (addPair_consistent s sh1 sh2 act k s' Hs Hadd) as Hs'.
    split; [done | by apply consistent_countsConsistent].
  - intros k s' Hrem.
    pose proof (removePair_consistent s k s' Hs Hrem) as Hs'.
    split; [done | by apply consistent_countsConsistent].
  - intros i1 i2 s' H1 H2 Hswap.
    pose proof (swapPairs_consistent s i1 i2 s' Hs H1 H2 Hswap) as Hs'.
    split; [done | by apply consistent_countsConsistent].
  - intros src dest s'. by apply movePairToIndex_counts.
  - intros k index p Hk Hp. split.
    + rewrite (removePair_steps s k index Hs Hk).
      unfold removePairByRelocations, Map_at. rewrite Hk. simpl. rewrite Hp. done.
    + intros moves Hprefix.
      destruct (removePair_recycling s k index p moves Hs Hk Hp Hprefix)
        as (s3 & s4 & Hd & Hrun & Hcount).
      exists s3, s4. split_and!; [done..|]. intros [Heq _]. lia.
  - intros i1 i2 H1 H2 Hne.
    destruct (swapPairs_recycling s i1 i2 Hs H1 H2 Hne) as (s1 & s2 & Hd & Hmove & Hcount).
    exists s1, s2. split_and!; [done..|]. intros [Heq _]. lia.
Qed.

(** C6. On a consistent registry, when [addPair] has added a pair, which
    requires its identity to be absent, an immediate [removePair] of the
    identity it returned succeeds and leaves the pair count and the concave
    start at their values before the [addPair]. *)
Theorem addPair_removePair_restores_counts
    (s : state) (shape1 shape2 : ProxyShape) (isActive : bool) (pairId : uint64) (s1 : state) :
  consistent s →
  addPair shape1 shape2 isActive s = Some (pairId, s1) →
  mMapPairIdToPairIndex s !! pairId = None
  ∧ ∃ s2, removePair pairId s1 = Some s2
          ∧ mNbPairs s2 = mNbPairs s
          ∧ mConcavePairsStartIndex s2 = mConcavePairsStartIndex s.
Proof.
  intros Hs%(consistent_wf isConvex) Hadd.
  destruct (addPair_wf isConvex pairNumbers false s shape1 shape2 isActive pairId s1 Hs Hadd)
    as (Hs1 & _ & Habsent & Hn1 & Hcs1 & Hk).
  split; [done|].
  destruct (removePair_wf isConvex false s1 pairId _ Hs1 Hk) as (s2 & Hrem & _ & Hn2 & Hcs2).
  exists s2. split; [done|].
  pose proof (wf_boundary _ _ s Hs) as Hb.
  rewrite Hcs1 in Hcs2.
  destruct (isConvex (getEntity shape1) && isConvex (getEntity shape2)).
  - replace (_ <? _) with true in Hcs2 by (symmetry; apply N.ltb_lt; lia). lia.
  - replace (_ <? _) with false in Hcs2 by (symmetry; apply N.ltb_ge; lia). lia.
Qed.

End Claims.

Section ActivityClaims.

Context (getBody : Entity → Entity) (hasRigidBodyComponent : Entity → bool)
        (getBodyType : Entity → BodyType) (getIsEntityDisabled : Entity → bool)
        (mNoCollisionPairs : gset (Entity * Entity)).

(** A body takes no part in collisions of its own: it is disabled, or it is
    a static rigid body. *)
Definition bodyInactive (body : Entity) : Prop :=
  getIsEntityDisabled body = true
  ∨ (hasRigidBodyComponent body = true ∧ getBodyType body = STATIC).

(** C7. [computeIsPairActive] returns false exactly when both owning bodies
    are inactive or the body pair is in the no-collision set, and true in
    every other case. *)
Theorem computeIsPairActive_spec (shape1 shape2 : ProxyShape) :
  let body1 := getBody (getEntity shape1) in
  let body2 := getBody (getEntity shape2) in
  let excluded :=
    (bodyInactive body1 ∧ bodyInactive body2)
    ∨ computeBodiesIndexPair body1 body2 ∈ mNoCollisionPairs in
  (computeIsPairActive getBody hasRigidBodyComponent getBodyType getIsEntityDisabled
     mNoCollisionPairs shape1 shape2 = false ↔ excluded)
  ∧ (computeIsPairActive getBody hasRigidBodyComponent getBodyType getIsEntityDisabled
       mNoCollisionPairs shape1 shape2 = true ↔ ¬ excluded).
Proof.
  intros body1 body2 excluded.
  assert (Hinactive : ∀ body,
            negb (negb (getIsEntityDisabled body)
                  && negb (hasRigidBodyComponent body
                           && bool_decide (getBodyType body = STATIC))) = true
            ↔ bodyInactive body).
  { intros body. unfold bodyInactive.
    destruct (getIsEntityDisabled body), (hasRigidBodyComponent body); simpl;
      try case_bool_decide; simpl; intuition congruence. }
  assert (Hfalse : computeIsPairActive getBody hasRigidBodyComponent getBodyType
                     getIsEntityDisabled mNoCollisionPairs shape1 shape2 = false ↔ excluded).
  { unfold computeIsPairActive, excluded. fold body1 body2.
    pose proof (Hinactive body1) as H1. pose proof (Hinactive body2) as H2.
    destruct (negb (negb (getIsEntityDisabled body1) && _)),
             (negb (negb (getIsEntityDisabled body2) && _)); simpl;
      try case_bool_decide; intuition congruence. }
  split; [done|].
  rewrite <-Hfalse.
  destruct (computeIsPairActive _ _ _ _ _ _ _); intuition congruence.
Qed.

End ActivityClaims.

Lemma partition_invariant_witness :
  2 < 2 ^ 32
  ∧ reachable demo_isConvex demo_pairNumbers 2 demo_state
  ∧ partitioned demo_isConvex demo_state.
Proof.
  split_and!; [done | apply demo_reachable |].
  apply (partition_invariant demo_isConvex demo_pairNumbers 2);
    [done | apply demo_reachable].
Defined.

Lemma demo_consistent_s2 : consistent demo_s2.
Proof.
  apply (reachable_consistent demo_isConvex demo_pairNumbers 2);
    [done | apply demo_reachable_s2].
Qed.

Lemma demo_consistent_s3 : consistent demo_s3.
Proof.
  apply (reachable_consistent demo_isConvex demo_pairNumbers 2);
    [done | apply demo_reachable_s3].
Qed.

Lemma removePair_relocations_witness :
  consistent demo_s3
  ∧ mMapPairIdToPairIndex demo_s3 !! 13 = Some 0
  ∧ removePair 13 demo_s3 = removePairByRelocations 13 demo_s3
  ∧ ∃ s', removePair 13 demo_s3 = Some s'
          ∧ mNbPairs s' = mNbPairs demo_s3 - 1
          ∧ mConcavePairsStartIndex s'
            = (if 0 <? mConcavePairsStartIndex demo_s3
               then mConcavePairsStartIndex demo_s3 - 1
               else mConcavePairsStartIndex demo_s3).
Proof.
  assert (Hk : mMapPairIdToPairIndex demo_s3 !! 13 = Some 0) by (by vm_compute).
  split_and!; [apply demo_consistent_s3 | done | ..];
    apply (removePair_relocations demo_s3 13 0 demo_consistent_s3 Hk).
Defined.

Lemma lastFrameInfo_grace_period_witness :
  consistent demo_s3
  ∧ mMapPairIdToPairIndex demo_s3 !! 23 = Some 1
  ∧ ∃ info s1 s2 s3,
      addLastFrameInfoIfNecessary 23 0 1 demo_s3 = Some (info, s1)
      ∧ lastFrameInfo s1 1 (0, 1) = Some info
      ∧ isObsolete info = false
      ∧ clearObsoleteLastFrameCollisionInfos s1 = Some s2
      ∧ (∃ info', lastFrameInfo s2 1 (0, 1) = Some info' ∧ isObsolete info' = true)
      ∧ clearObsoleteLastFrameCollisionInfos s2 = Some s3
      ∧ lastFrameInfo s3 1 (0, 1) = None.
Proof.
  assert (Hk : mMapPairIdToPairIndex demo_s3 !! 23 = Some 1) by (by vm_compute).
  split_and!; [apply demo_consistent_s3 | done |].
  exact (lastFrameInfo_grace_period demo_s3 23 1 0 1 demo_consistent_s3 Hk).
Defined.

(** [demo_s3] once [removePair 13] has detached the pair from its two
    shapes, 1 and 3. *)
Definition demo_detached : state :=
  let s1 := setOverlappingPairs 1 (List_remove 13 (getOverlappingPairs demo_s3 1)) demo_s3 in
  setOverlappingPairs 3 (List_remove 13 (getOverlappingPairs s1 3)) s1.

(** C5 as stated fails for [movePairToIndex]. The registry [demo_s3] is
    consistent, with three pairs and three lookup entries. [removePair 13]
    detaches the pair, destroys its slot 0 and calls [movePairToIndex 1 0]
    and then [movePairToIndex 2 1]. After each of the two calls the registry
    still counts three pairs while the lookup has two entries; the equality
    is back only once [removePair] has decremented the pair count. *)
Lemma movePairToIndex_counts_counterexample :
  countsConsistent demo_s3
  ∧ mMapPairIdToPairIndex demo_s3 !! 13 = Some 0
  ∧ relocations 0 (mConcavePairsStartIndex demo_s3) (mNbPairs demo_s3) = [(1, 0); (2, 1)]
  ∧ ∃ s3 s4 s5,
      destroyPair 0 demo_detached = Some s3
      ∧ movePairToIndex 1 0 s3 = Some s4
      ∧ movePairToIndex 2 1 s4 = Some s5
      ∧ removePair 13 demo_s3 = Some (withNbPairs 2 (withConcavePairsStartIndex 1 s5))
      ∧ mNbPairs s4 = 3
      ∧ Map_size (mMapPairIdToPairIndex s4) = 2
      ∧ ¬ countsConsistent s4
      ∧ mNbPairs s5 = 3
      ∧ Map_size (mMapPairIdToPairIndex s5) = 2
      ∧ ¬ countsConsistent s5.
Proof.
  split_and!;
    [apply consistent_countsConsistent, demo_consistent_s3 | by vm_compute | by vm_compute |].
  destruct (destroyPair 0 demo_detached) as [s3|] eqn:Hd; [|by vm_compute in Hd].
  destruct (movePairToIndex 1 0 s3) as [s4|] eqn:Hmove1;
    [|vm_compute in Hd; injection Hd as <-; by vm_compute in Hmove1].
  destruct (movePairToIndex 2 1 s4) as [s5|] eqn:Hmove2;
    [|vm_compute in Hd; injection Hd as <-; vm_compute in Hmove1; injection Hmove1 as <-;
      by vm_compute in Hmove2].
  exists s3, s4, s5.
  vm_compute in Hd. injection Hd as <-.
  vm_compute in Hmove1. injection Hmove1 as <-.
  vm_compute in Hmove2. injection Hmove2 as <-.
  split_and!; [by vm_compute | by vm_compute | by vm_compute | by vm_compute
               | by vm_compute | by vm_compute | | by vm_compute | by vm_compute |].
  - intros [Hcount _]. by vm_compute in Hcount.
  - intros [Hcount _]. by vm_compute in Hcount.
Qed.

Lemma counts_consistent_after_mutation_witness :
  consistent demo_s3
  ∧ (∀ shape1 shape2 isActive pairId s',
       addPair demo_isConvex demo_pairNumbers shape1 shape2 isActive demo_s3 = Some (pairId, s') →
       consistent s' ∧ countsConsistent s')
  ∧ (∀ pairId s',
       removePair pairId demo_s3 = Some s' → consistent s' ∧ countsConsistent s')
  ∧ (∀ index1 index2 s',
       index1 < mNbPairs demo_s3 → index2 < mNbPairs demo_s3 →
       swapPairs index1 index2 demo_s3 = Some s' → consistent s' ∧ countsConsistent s')
  ∧ (∀ srcIndex destIndex s',
       srcIndex < mNbPairs demo_s3 →
       movePairToIndex srcIndex destIndex demo_s3 = Some s' → countsConsistent s')
  ∧ (∀ pairId index p,
       mMapPairIdToPairIndex demo_s3 !! pairId = Some index →
       array_get (mBuffer demo_s3) index = Some p →
       removePair pairId demo_s3
       = (s3 ← destroyPair index (detached demo_s3 pairId p);
          s4 ← relocate (relocations index (mConcavePairsStartIndex demo_s3)
                           (mNbPairs demo_s3)) s3;
          Some (withNbPairs (mNbPairs demo_s3 - 1)
                  (withConcavePairsStartIndex
                     (if mConcavePairsStartIndex demo_s3 <=? index
                      then mConcavePairsStartIndex demo_s3
                      else mConcavePairsStartIndex demo_s3 - 1) s4)))
       ∧ ∀ moves,
           moves `prefix_of` relocations index (mConcavePairsStartIndex demo_s3)
                               (mNbPairs demo_s3) →
           ∃ s3 s4,
             destroyPair index (detached demo_s3 pairId p) = Some s3
             ∧ relocate moves s3 = Some s4
             ∧ mNbPairs s4 = Map_size (mMapPairIdToPairIndex s4) + 1
             ∧ ¬ countsConsistent s4)
  ∧ (∀ index1 index2,
       index1 < mNbPairs demo_s3 → index2 < mNbPairs demo_s3 → index1 ≠ index2 →
       ∃ s1 s2,
         destroyPair index1 demo_s3 = Some s1
         ∧ movePairToIndex index2 index1 s1 = Some s2
         ∧ mNbPairs s2 = Map_size (mMapPairIdToPairIndex s2) + 1
         ∧ ¬ countsConsistent s2).
Proof.
  split; [apply demo_consistent_s3|].
  exact (counts_consistent_after_mutation demo_isConvex demo_pairNumbers demo_s3
           demo_consistent_s3).
Defined.

Lemma addPair_removePair_restores_counts_witness :
  consistent demo_s2
  ∧ addPair demo_isConvex demo_pairNumbers (demo_shape 3 3) (demo_shape 4 4) true demo_s2
    = Some (23, demo_s3)
  ∧ mMapPairIdToPairIndex demo_s2 !! 23 = None
  ∧ ∃ s2, removePair 23 demo_s3 = Some s2
          ∧ mNbPairs s2 = mNbPairs demo_s2
          ∧ mConcavePairsStartIndex s2 = mConcavePairsStartIndex demo_s2.
Proof.
  assert (Hadd : addPair demo_isConvex demo_pairNumbers (demo_shape 3 3) (demo_shape 4 4) true
                   demo_s2 = Some (23, demo_s3)) by (by vm_compute).
  split_and!; [apply demo_consistent_s2 | done | ..];
    apply (addPair_removePair_restores_counts demo_isConvex demo_pairNumbers
             demo_s2 (demo_shape 3 3) (demo_shape 4 4) true 23 demo_s3
             demo_consistent_s2 Hadd).
Defined.

(** ** What the registry holds

    [getPair s k] is the data of the pair registered under the identity [k],
    read as the accessors of the registry read it: the lookup gives the slot,
    the slot gives the data. *)
Definition getPair (s : state) (k : uint64) : option PairData :=
  index ← Map_at (mMapPairIdToPairIndex s) k;
  array_get (mBuffer s) index.

(** The cached entry of the pair registered under [k] for a pair of feature
    ids. *)
Definition cachedInfo (s : state) (k : uint64) (shapeIdPair : ShapeIdPair)
    : option LastFrameCollisionInfo :=
  p ← getPair s k;
  lastFrameCollisionInfos p !! shapeIdPair.

(** The number of times the pair [p] names the shape [e]. *)
Definition roles (p : option PairData) (e : Entity) : nat :=
  match p with
  | Some p => (if decide (proxyShape1 p = e) then 1 else 0)
              + (if decide (proxyShape2 p = e) then 1 else 0)
  | None => 0
  end.

(** [getPair] on a buffer and a lookup taken apart from their state. *)
Definition slotOf (b : list PairData) (m : gmap N N) (k : N) : option PairData :=
  i ← m !! k; array_get b i.

Lemma slotOf_destroy cnt b m i p p' k :
  layout cnt None b m → i < cnt → array_get b i = Some p →
  slotOf (<[N.to_nat i := p']> b) (delete (pairId p) m) k
  = if decide (k = pairId p) then None else slotOf b m k.
Proof.
  intros Hl Hi Hp. unfold slotOf. destruct (decide (k = pairId p)) as [->|Hne].
  - by rewrite lookup_delete_eq.
  - rewrite lookup_delete_ne by done.
    destruct (m !! k) as [j|] eqn:Hk; [|done]. simpl.
    destruct (layout_index _ _ _ _ Hl k j Hk) as (_ & _ & q & Hq & Hqk).
    rewrite array_get_insert_ne; [done|]. intros ->. congruence.
Qed.

Lemma slotOf_move cnt b m h src p p' k :
  layout cnt (Some h) b m → src < cnt → src ≠ h → array_get b src = Some p →
  slotOf (<[N.to_nat src := p']> (<[N.to_nat h := p]> b))
         (<[pairId p := h]> (delete (pairId p) m)) k
  = slotOf b m k.
Proof.
  intros Hl Hsrc Hne Hp. unfold slotOf.
  pose proof (layout_hole _ _ _ _ Hl h eq_refl) as Hh.
  pose proof (layout_fit _ _ _ _ Hl) as Hfit.
  destruct (layout_live _ _ _ _ Hl src Hsrc) as (p0 & Hp0 & Hm); [congruence|].
  assert (p0 = p) as -> by congruence.
  destruct (decide (k = pairId p)) as [->|Hk].
  - rewrite lookup_insert_eq, Hm. simpl.
    rewrite array_get_insert_ne by done.
    rewrite array_get_insert_eq by lia. done.
  - rewrite lookup_insert_ne, lookup_delete_ne by done.
    destruct (m !! k) as [j|] eqn:Hj; [|done]. simpl.
    destruct (layout_index _ _ _ _ Hl k j Hj) as (_ & Hjh & q & Hq & Hqk).
    rewrite !array_get_insert_ne; [done | congruence |].
    intros ->. congruence.
Qed.

Lemma slotOf_fill cnt b m h p k :
  layout cnt (Some h) b m → m !! pairId p = None →
  slotOf (<[N.to_nat h := p]> b) (<[pairId p := h]> m) k
  = if decide (k = pairId p) then Some p else slotOf b m k.
Proof.
  intros Hl Hfresh. unfold slotOf.
  pose proof (layout_hole _ _ _ _ Hl h eq_refl) as Hh.
  pose proof (layout_fit _ _ _ _ Hl) as Hfit.
  destruct (decide (k = pairId p)) as [->|Hk].
  - rewrite lookup_insert_eq. simpl. apply array_get_insert_eq. lia.
  - rewrite lookup_insert_ne by done.
    destruct (m !! k) as [j|] eqn:Hj; [|done]. simpl.
    destruct (layout_index _ _ _ _ Hl k j Hj) as (_ & Hjh & _).
    rewrite array_get_insert_ne; [done | congruence].
Qed.

Lemma slotOf_reallocate cnt b m l k :
  layout cnt None b m →
  slotOf (take (N.to_nat cnt) b ++ l) m k = slotOf b m k.
Proof.
  intros Hl. unfold slotOf.
  destruct (m !! k) as [j|] eqn:Hj; [|done]. simpl.
  destruct (layout_index _ _ _ _ Hl k j Hj) as (Hlt & _).
  pose proof (layout_fit _ _ _ _ Hl) as Hfit.
  unfold array_get. rewrite lookup_app_l by (rewrite length_take; lia).
  apply lookup_take_lt. lia.
Qed.

(** The fields a move between slots leaves alone. *)
Definition sameFrame (s s' : state) : Prop :=
  mNbPairs s' = mNbPairs s
  ∧ mConcavePairsStartIndex s' = mConcavePairsStartIndex s
  ∧ mNbAllocatedPairs s' = mNbAllocatedPairs s
  ∧ mOverlappingPairsOfShape s' = mOverlappingPairsOfShape s
  ∧ length (mBuffer s') = length (mBuffer s).

Lemma destroyPair_contents cnt i s s' p :
  layout cnt None (mBuffer s) (mMapPairIdToPairIndex s) → i < cnt →
  array_get (mBuffer s) i = Some p → destroyPair i s = Some s' →
  layout cnt (Some i) (mBuffer s') (mMapPairIdToPairIndex s')
  ∧ (∀ k, getPair s' k = if decide (k = pairId p) then None else getPair s k)
  ∧ sameFrame s s'.
Proof.
  intros Hl Hi Hp Hd. apply destroyPair_inv in Hd as (p0 & Hp0 & ->).
  assert (p0 = p) as -> by congruence.
  split_and!.
  - by apply layout_destroy.
  - intros k. exact (slotOf_destroy cnt _ _ i p _ k Hl Hi Hp).
  - unfold sameFrame. simpl. by rewrite length_insert.
Qed.

Lemma movePairToIndex_contents cnt h src s s' :
  layout cnt (Some h) (mBuffer s) (mMapPairIdToPairIndex s) → src < cnt → src ≠ h →
  movePairToIndex src h s = Some s' →
  layout cnt (Some src) (mBuffer s') (mMapPairIdToPairIndex s')
  ∧ (∀ k, getPair s' k = getPair s k)
  ∧ sameFrame s s'.
Proof.
  intros Hl Hsrc Hne Hmove. apply movePairToIndex_inv in Hmove as (p & Hp & Hlen & ->).
  split_and!.
  - by apply layout_move.
  - intros k. exact (slotOf_move cnt _ _ h src p _ k Hl Hsrc Hne Hp).
  - unfold sameFrame. simpl. by rewrite !length_insert.
Qed.

Lemma allocate_contents s k s' :
  layout (mNbPairs s) None (mBuffer s) (mMapPairIdToPairIndex s) →
  allocate k s = Some s' →
  layout (mNbPairs s) None (mBuffer s') (mMapPairIdToPairIndex s')
  ∧ (∀ key, getPair s' key = getPair s key)
  ∧ mNbPairs s' = mNbPairs s
  ∧ mConcavePairsStartIndex s' = mConcavePairsStartIndex s
  ∧ mOverlappingPairsOfShape s' = mOverlappingPairsOfShape s
  ∧ mNbAllocatedPairs s' = k
  ∧ length (mBuffer s') = N.to_nat k.
Proof.
  intros Hl. unfold allocate.
  destruct (N.ltb_spec k (mNbPairs s)) as [|Hkn]; [done|].
  destruct (N.ltb_spec (N.of_nat (length (mBuffer s))) (mNbPairs s)) as [|Hlen]; [done|].
  intros [= <-]. simpl. split_and!; [| |done..|].
  - by apply layout_reallocate.
  - intros key. exact (slotOf_reallocate _ _ _ _ key Hl).
  - rewrite length_app, length_take, length_replicate. lia.
Qed.

Lemma getOverlappingPairs_set e l s e' :
  getOverlappingPairs (setOverlappingPairs e l s) e'
  = if decide (e' = e) then l else getOverlappingPairs s e'.
Proof.
  unfold getOverlappingPairs, setOverlappingPairs. simpl.
  destruct (decide (e' = e)) as [->|Hne].
  - by rewrite lookup_insert_eq.
  - by rewrite lookup_insert_ne.
Qed.

Lemma count_occ_List_remove (x y : N) (l : list N) :
  count_occ N.eq_dec (List_remove x l) y
  = if decide (y = x) then pred (count_occ N.eq_dec l y) else count_occ N.eq_dec l y.
Proof.
  induction l as [|z l IH]; simpl.
  - by destruct (decide (y = x)).
  - destruct (decide (x = z)) as [<-|Hxz].
    + destruct (N.eq_dec x y) as [->|Hxy].
      * by rewrite decide_True.
      * by rewrite decide_False.
    + simpl. rewrite IH.
      destruct (N.eq_dec z y) as [->|Hzy]; [by rewrite !decide_False by congruence|].
      done.
Qed.

Lemma relocate_contents cnt h src (c : bool) s s' :
  layout cnt (Some h) (mBuffer s) (mMapPairIdToPairIndex s) → src < cnt →
  c = negb (h =? src) →
  (if c then movePairToIndex src h s else Some s) = Some s' →
  layout cnt (Some src) (mBuffer s') (mMapPairIdToPairIndex s')
  ∧ (∀ k, getPair s' k = getPair s k)
  ∧ sameFrame s s'.
Proof.
  intros Hl Hsrc -> Hmove. destruct (N.eqb_spec h src) as [->|Hne]; simpl in Hmove.
  - injection Hmove as <-. by split_and!.
  - apply (movePairToIndex_contents cnt h src); [done | done | congruence | done].
Qed.

Lemma removePair_contents s k s' :
  consistent s → removePair k s = Some s' →
  ∃ index p,
    mMapPairIdToPairIndex s !! k = Some index
    ∧ array_get (mBuffer s) index = Some p
    ∧ pairId p = k
    ∧ (∀ k', getPair s' k' = if decide (k' = k) then None else getPair s k')
    ∧ mNbAllocatedPairs s' = mNbAllocatedPairs s
    ∧ (∀ e, getOverlappingPairs s' e
            = (if decide (e = proxyShape2 p) then List_remove k else id)
                ((if decide (e = proxyShape1 p) then List_remove k else id)
                   (getOverlappingPairs s e))).
Proof.
  intros Hs Hrem.
  destruct (removePair_registered k s s' Hrem) as [index Hk].
  destruct (consistent_registered s k index Hs Hk) as (Hindex & p & Hp & Hpk).
  pose proof (wf_layout _ _ s Hs) as Hl.
  pose proof (wf_count_bound _ _ s Hs) as Hn64.
  pose proof (wf_boundary _ _ s Hs) as Hb.
  exists index, p. do 3 (split; [done|]).
  unfold removePair, Map_at in Hrem. rewrite Hk in Hrem. simpl in Hrem.
  rewrite Hp in Hrem. simpl in Hrem.
  remember (setOverlappingPairs (proxyShape2 p) _ (setOverlappingPairs (proxyShape1 p) _ s))
    as s2 eqn:Hs2.
  assert (Hovl2 : ∀ e, getOverlappingPairs s2 e
            = (if decide (e = proxyShape2 p) then List_remove k else id)
                ((if decide (e = proxyShape1 p) then List_remove k else id)
                   (getOverlappingPairs s e))).
  { intros e. rewrite Hs2, !getOverlappingPairs_set.
    repeat case_decide; unfold id; try done; congruence. }
  assert (mNbPairs s2 = mNbPairs s ∧ mConcavePairsStartIndex s2 = mConcavePairsStartIndex s
          ∧ mNbAllocatedPairs s2 = mNbAllocatedPairs s ∧ mBuffer s2 = mBuffer s
          ∧ mMapPairIdToPairIndex s2 = mMapPairIdToPairIndex s)
    as (Hn2 & Hcs2 & Hcap2 & Hb2 & Hm2) by (by rewrite Hs2).
  clear Hs2.
  assert (Hget2 : ∀ k', getPair s2 k' = getPair s k')
    by (intros; unfold getPair; by rewrite Hb2, Hm2).
  destruct (destroyPair index s2) as [s3|] eqn:Hd; [|done]. simpl in Hrem.
  destruct (destroyPair_contents (mNbPairs s) index s2 s3 p)
    as (Hl3 & Hget3 & Hn3 & Hcs3 & Hcap3 & Hovl3 & Hlen3);
    [by rewrite Hb2, Hm2 | done | by rewrite Hb2 | done |].
  rewrite Hn3, Hcs3, Hn2, Hcs2 in Hrem.
  rewrite (decr64_pos (mNbPairs s)) in Hrem by lia.
  assert (Hfinish : ∀ sf,
            (∀ k', getPair sf k' = getPair s3 k') →
            mNbAllocatedPairs sf = mNbAllocatedPairs s3 →
            mOverlappingPairsOfShape sf = mOverlappingPairsOfShape s3 →
            (∀ k', getPair sf k' = if decide (k' = k) then None else getPair s k')
            ∧ mNbAllocatedPairs sf = mNbAllocatedPairs s
            ∧ (∀ e, getOverlappingPairs sf e
                    = (if decide (e = proxyShape2 p) then List_remove k else id)
                        ((if decide (e = proxyShape1 p) then List_remove k else id)
                           (getOverlappingPairs s e)))).
  { intros sf Hget Hcap Hovl. split_and!.
    - intros k'. rewrite Hget, Hget3, Hget2, Hpk. done.
    - congruence.
    - intros e. rewrite <-Hovl2. unfold getOverlappingPairs. by rewrite Hovl, Hovl3. }
  destruct (N.leb_spec (mConcavePairsStartIndex s) index) as [Hconcave|Hconvex].
  - (* the slot lies in the concave partition *)
    destruct (if negb (index =? mNbPairs s - 1) then _ else _) as [s4|] eqn:Hmove in Hrem;
      [|done].
    simpl in Hrem. injection Hrem as <-.
    destruct (relocate_contents (mNbPairs s) index (mNbPairs s - 1)
                (negb (index =? mNbPairs s - 1)) s3 s4 Hl3)
      as (_ & Hget4 & _ & _ & Hcap4 & Hovl4 & _); [lia | done | done |].
    exact (Hfinish s4 Hget4 Hcap4 Hovl4).
  - (* the slot lies in the convex partition *)
    rewrite (decr64_pos (mConcavePairsStartIndex s)) in Hrem by lia.
    destruct (if negb (index =? mConcavePairsStartIndex s - 1) then _ else _)
      as [s4|] eqn:Hmove1 in Hrem; [|done].
    simpl in Hrem.
    destruct (relocate_contents (mNbPairs s) index (mConcavePairsStartIndex s - 1)
                (negb (index =? mConcavePairsStartIndex s - 1)) s3 s4 Hl3)
      as (Hl4 & Hget4 & Hn4 & Hcs4 & Hcap4 & Hovl4 & _); [lia | done | done |].
    rewrite Hn4, Hcs4, Hn3, Hcs3, Hn2, Hcs2 in Hrem.
    rewrite (decr64_pos (mConcavePairsStartIndex s)), (decr64_pos (mNbPairs s)) in Hrem by lia.
    destruct (if negb (mConcavePairsStartIndex s =? mNbPairs s) then _ else _)
      as [s5|] eqn:Hmove2 in Hrem; [|done].
    simpl in Hrem. injection Hrem as <-.
    destruct (relocate_contents (mNbPairs s) (mConcavePairsStartIndex s - 1) (mNbPairs s - 1)
                (negb (mConcavePairsStartIndex s =? mNbPairs s)) s4 s5 Hl4)
      as (_ & Hget5 & _ & _ & Hcap5 & Hovl5 & _); [lia | | done |].
    { f_equal. destruct (N.eqb_spec (mConcavePairsStartIndex s) (mNbPairs s));
        destruct (N.eqb_spec (mConcavePairsStartIndex s - 1) (mNbPairs s - 1)); (done || lia). }
    apply (Hfinish s5).
    + intros k'. by rewrite Hget5, Hget4.
    + congruence.
    + congruence.
Qed.

Lemma prepareAddPair_contents s convex index s1 :
  consistent s → prepareAddPair convex s = Some (index, s1) →
  (N.to_nat (mNbPairs s) < length (mBuffer s1))%nat →
  layout (mNbPairs s + 1) (Some index) (mBuffer s1) (mMapPairIdToPairIndex s1)
  ∧ (∀ k, getPair s1 k = getPair s k)
  ∧ mOverlappingPairsOfShape s1 = mOverlappingPairsOfShape s
  ∧ mNbPairs s1 = mNbPairs s
  ∧ mNbAllocatedPairs s1
    = (if mNbPairs s =? mNbAllocatedPairs s
       then mul64 (mNbAllocatedPairs s) 2 else mNbAllocatedPairs s).
Proof.
  intros Hs Hprep Hroom. unfold prepareAddPair in Hprep.
  pose proof (wf_layout _ _ s Hs) as Hl.
  pose proof (wf_boundary _ _ s Hs) as Hb.
  destruct (if mNbPairs s =? mNbAllocatedPairs s then _ else _) as [s0|] eqn:Hs0 in Hprep;
    [|done].
  assert (layout (mNbPairs s) None (mBuffer s0) (mMapPairIdToPairIndex s0)
          ∧ (∀ k, getPair s0 k = getPair s k)
          ∧ mNbPairs s0 = mNbPairs s
          ∧ mConcavePairsStartIndex s0 = mConcavePairsStartIndex s
          ∧ mOverlappingPairsOfShape s0 = mOverlappingPairsOfShape s
          ∧ mNbAllocatedPairs s0
            = (if mNbPairs s =? mNbAllocatedPairs s
               then mul64 (mNbAllocatedPairs s) 2 else mNbAllocatedPairs s))
    as (Hl0 & Hget0 & Hn0 & Hcs0 & Hovl0 & Hcap0).
  { destruct (mNbPairs s =? mNbAllocatedPairs s).
    - destruct (allocate_contents s _ s0 Hl Hs0) as (? & ? & ? & ? & ? & ? & _). done.
    - injection Hs0 as <-. done. }
  simpl in Hprep. rewrite Hn0, Hcs0 in Hprep.
  destruct convex; simpl in Hprep.
  - destruct (if negb (mConcavePairsStartIndex s =? mNbPairs s) then _ else _)
      as [s2|] eqn:Hmove in Hprep; [|done].
    simpl in Hprep. injection Hprep as <- <-. simpl in Hroom |- *.
    assert (Hlen0 : (N.to_nat (mNbPairs s) < length (mBuffer s0))%nat).
    { destruct (mConcavePairsStartIndex s =? mNbPairs s); simpl in Hmove.
      - by injection Hmove as <-.
      - by apply movePairToIndex_inv in Hmove as (p & _ & Hlen & _). }
    destruct (relocate_contents (mNbPairs s + 1) (mNbPairs s) (mConcavePairsStartIndex s)
                (negb (mConcavePairsStartIndex s =? mNbPairs s)) s0 s2)
      as (Hl2 & Hget2 & Hn2 & Hcs2 & Hcap2 & Hovl2 & _);
      [by apply layout_grow | lia | by rewrite N.eqb_sym | done |].
    rewrite Hcs2, Hcs0. split_and!; [done | | congruence..].
    intros k. rewrite <-Hget0, <-Hget2. done.
  - injection Hprep as <- <-. split_and!; [|done..].
    by apply layout_grow.
Qed.

Lemma getOverlappingPairs_withNbPairs n s e :
  getOverlappingPairs (withNbPairs n s) e = getOverlappingPairs s e.
Proof. done. Qed.

Section Contents.

Context (isConvex : Entity → bool) (pairNumbers : uint32 → uint32 → uint64).

Local Abbreviation addPair := (addPair isConvex pairNumbers).

Lemma addPair_contents s shape1 shape2 active k s' :
  consistent s → addPair shape1 shape2 active s = Some (k, s') →
  (∀ k', getPair s' k'
         = if decide (k' = k)
           then Some (mkPairData k (getBroadPhaseId shape1) (getBroadPhaseId shape2)
                                 (getEntity shape1) (getEntity shape2) ∅ false active)
           else getPair s k')
  ∧ getPair s k = None
  ∧ (∀ e, getOverlappingPairs s' e
          = getOverlappingPairs s e
            ++ (if decide (e = getEntity shape1) then [k] else [])
            ++ (if decide (e = getEntity shape2) then [k] else []))
  ∧ mNbAllocatedPairs s'
    = (if mNbPairs s =? mNbAllocatedPairs s
       then 2 * mNbAllocatedPairs s else mNbAllocatedPairs s).
Proof.
  intros Hs Hadd.
  destruct (addPair_wf isConvex pairNumbers false s shape1 shape2 active k s'
              (consistent_wf isConvex s Hs) Hadd) as (_ & Hkid & Habsent & _).
  unfold OverlappingPairs.addPair in Hadd.
  destruct (prepareAddPair _ s) as [[index s1]|] eqn:Hprep; [|done]. simpl in Hadd.
  destruct (prepareAddPair_spec isConvex pairNumbers false s _ index s1 (consistent_wf isConvex s Hs) Hprep)
    as (_ & Hlen1 & _ & _ & _ & Hroom & _ & Hdom).
  rewrite <-Hkid in Hadd.
  set (data := mkPairData _ _ _ _ _ _ _ _) in *.
  destruct (array_set (mBuffer s1) index data) as [b|] eqn:Hset; [|done].
  apply array_set_inv in Hset as [Hlt ->]. simpl in Hadd.
  destruct (Map_add k index (mMapPairIdToPairIndex s1)) as [m|] eqn:Hmap; [|done].
  unfold Map_add in Hmap.
  destruct (mMapPairIdToPairIndex s1 !! k) eqn:Hfresh in Hmap; [done|].
  injection Hmap as <-. simpl in Hadd. injection Hadd as <-.
  assert (Hlen : (N.to_nat (mNbPairs s) < length (mBuffer s1))%nat).
  { destruct Hroom as [->|]; done. }
  destruct (prepareAddPair_contents s _ index s1 Hs Hprep Hlen)
    as (Hl1 & Hget1 & Hovl1 & Hn1 & Hcap1).
  split_and!.
  - intros k'. rewrite <-Hget1.
    exact (slotOf_fill _ _ _ index data k' Hl1 Hfresh).
  - unfold getPair, Map_at. by rewrite Habsent.
  - intros e.
    assert (Hovl : ∀ b m e', getOverlappingPairs (withMap m (withBuffer b s1)) e'
                             = getOverlappingPairs s e').
    { intros. unfold getOverlappingPairs. simpl. by rewrite Hovl1. }
    rewrite getOverlappingPairs_withNbPairs, !getOverlappingPairs_set, !Hovl.
    unfold List_add. repeat case_decide; simplify_eq; rewrite <-?app_assoc, ?app_nil_r; try done; congruence.
  - simpl. rewrite Hcap1.
    destruct (N.eqb_spec (mNbPairs s) (mNbAllocatedPairs s)) as [Hfull|]; [|done].
    pose proof (wf_capacity_bound _ _ s Hs) as Hcap64.
    rewrite Hlen1, Hcap1, Hfull in Hlen.
    unfold mul64, wrap64 in *.
    destruct (N.lt_ge_cases (mNbAllocatedPairs s * 2) (2 ^ 64)) as [Hsmall|Hlarge].
    + rewrite N.mod_small by done. lia.
    + replace (mNbAllocatedPairs s * 2)
        with ((mNbAllocatedPairs s * 2 - 2 ^ 64) + 1 * 2 ^ 64) in Hlen by lia.
      rewrite N.Div0.mod_add, N.mod_small in Hlen by lia. lia.
Qed.

End Contents.

(** ** The pairs a shape is listed with *)

(** Every shape lists a pair id as many times as the pair registered under
    that id names the shape. *)
Definition listed (s : state) : Prop :=
  ∀ e k, count_occ N.eq_dec (getOverlappingPairs s e) k = roles (getPair s k) e.

Lemma detach_listed s s' k p :
  listed s → getPair s k = Some p →
  (∀ k', getPair s' k' = if decide (k' = k) then None else getPair s k') →
  (∀ e, getOverlappingPairs s' e
        = (if decide (e = proxyShape2 p) then List_remove k else id)
            ((if decide (e = proxyShape1 p) then List_remove k else id)
               (getOverlappingPairs s e))) →
  listed s'.
Proof.
  intros Hlisted Hkp Hget Hovl e k'.
  rewrite Hovl, Hget.
  pose proof (Hlisted e k') as Hcount.
  destruct (decide (k' = k)) as [->|Hne].
  - rewrite Hkp in Hcount. simpl in Hcount |- *.
    repeat case_decide; unfold id; rewrite ?count_occ_List_remove, ?decide_True by done;
      simplify_eq; lia.
  - repeat case_decide; unfold id; rewrite ?count_occ_List_remove, ?decide_False by done; done.
Qed.

Section Listing.

Context (isConvex : Entity → bool) (pairNumbers : uint32 → uint32 → uint64).

Lemma create_listed INIT s : create INIT = Some s → listed s.
Proof.
  unfold create, allocate. simpl.
  destruct (INIT <? 0); [done|]. intros [= <-] e k. done.
Qed.

Lemma addPair_listed s shape1 shape2 active k s' :
  consistent s → listed s →
  addPair isConvex pairNumbers shape1 shape2 active s = Some (k, s') → listed s'.
Proof.
  intros Hs Hlisted Hadd e k'.
  destruct (addPair_contents isConvex pairNumbers s shape1 shape2 active k s' Hs Hadd)
    as (Hget & Hfresh & Hovl & _).
  rewrite Hovl, Hget, !count_occ_app, Hlisted.
  destruct (decide (k' = k)) as [->|Hne].
  - rewrite Hfresh. simpl.
    repeat case_decide; simpl; repeat destruct (N.eq_dec _ _); simpl; congruence.
  - repeat case_decide; simpl; repeat destruct (N.eq_dec _ _); simpl; (lia || congruence).
Qed.

Lemma removePair_listed s k s' :
  consistent s → listed s → removePair k s = Some s' → listed s'.
Proof.
  intros Hs Hlisted Hrem.
  destruct (removePair_contents s k s' Hs Hrem) as (index & p & Hk & Hp & Hpk & Hget & _ & Hovl).
  apply (detach_listed s s' k p); [done | | done | done].
  unfold getPair, Map_at. rewrite Hk. done.
Qed.

Lemma reachable_listed INIT s :
  INIT < 2 ^ 64 → reachable isConvex pairNumbers INIT s → listed s.
Proof.
  intros HI Hreach.
  induction Hreach as [s Hs|s sh1 sh2 act k s' Hreach IH Hadd|s k s' Hreach IH Hrem].
  - by apply (create_listed INIT).
  - apply (addPair_listed s sh1 sh2 act k s'); [|done..].
    by apply (reachable_consistent isConvex pairNumbers INIT).
  - apply (removePair_listed s k s'); [|done..].
    by apply (reachable_consistent isConvex pairNumbers INIT).
Qed.

End Listing.

Lemma listed_elem_of s e k :
  listed s →
  k ∈ getOverlappingPairs s e
  ↔ ∃ p, getPair s k = Some p ∧ (proxyShape1 p = e ∨ proxyShape2 p = e).
Proof.
  intros Hlisted. rewrite list_elem_of_In, (count_occ_In N.eq_dec), Hlisted.
  unfold roles. destruct (getPair s k) as [p|]; [|split; [lia | by intros (? & ? & _)]].
  split.
  - intros Hpos. exists p. split; [done|]. repeat case_decide; (tauto || lia).
  - intros (? & [= <-] & [?|?]); repeat case_decide; (lia || congruence).
Qed.

(** ** [swapPairs] *)

Lemma swapPairs_contents s index1 index2 :
  consistent s → index1 < mNbPairs s → index2 < mNbPairs s → index1 ≠ index2 →
  ∃ s', swapPairs index1 index2 s = Some s'
        ∧ array_get (mBuffer s') index1 = array_get (mBuffer s) index2
        ∧ array_get (mBuffer s') index2 = array_get (mBuffer s) index1
        ∧ (∀ j, j ≠ index1 → j ≠ index2 → array_get (mBuffer s') j = array_get (mBuffer s) j)
        ∧ (∀ k, getPair s' k = getPair s k)
        ∧ sameFrame s s'.
Proof.
  intros Hs H1 H2 Hne.
  pose proof (wf_layout _ _ s Hs) as Hl.
  pose proof (layout_fit _ _ _ _ Hl) as Hfit.
  destruct (layout_live _ _ _ _ Hl index1 H1) as (p1 & Hp1 & Hm1); [done|].
  destruct (layout_live _ _ _ _ Hl index2 H2) as (p2 & Hp2 & Hm2); [done|].
  assert (Hids : pairId p1 ≠ pairId p2) by (intros Heq; rewrite Heq in Hm1; congruence).
  assert (Hd : destroyPair index1 s = Some (destroyed s index1 p1)).
  { apply destroyPair_inv. by exists p1. }
  destruct (destroyPair_contents _ index1 s _ p1 Hl H1 Hp1 Hd) as (Hl1 & Hget1 & _).
  assert (Hmove : movePairToIndex index2 index1 (destroyed s index1 p1)
                  = Some (relocated (destroyed s index1 p1) index2 index1 p2)).
  { apply movePairToIndex_inv. exists p2. simpl. rewrite length_insert.
    split_and!; [|lia|done]. by rewrite array_get_insert_ne. }
  destruct (movePairToIndex_contents _ index1 index2 _ _ Hl1 H2 (not_eq_sym Hne) Hmove)
    as (Hl2 & Hget2 & _).
  unfold swapPairs. rewrite Hp1. simpl. rewrite Hd. simpl. rewrite Hmove. simpl.
  rewrite array_set_Some by (rewrite !length_insert; lia). simpl.
  assert (Hfresh : <[pairId p2 := index1]>
                     (delete (pairId p2) (delete (pairId p1) (mMapPairIdToPairIndex s)))
                   !! pairId p1 = None).
  { rewrite lookup_insert_ne, lookup_delete_ne by done. apply lookup_delete_eq. }
  unfold Map_add. rewrite Hfresh. simpl.
  eexists. split; [done|]. simpl. split_and!.
  - rewrite array_get_insert_ne, array_get_insert_ne by done.
    rewrite array_get_insert_eq by (rewrite length_insert; lia). done.
  - rewrite array_get_insert_eq by (rewrite !length_insert; lia). done.
  - intros j Hj1 Hj2. by rewrite !array_get_insert_ne.
  - intros k.
    etransitivity; [exact (slotOf_fill _ _ _ index2 p1 k Hl2 Hfresh)|].
    destruct (decide (k = pairId p1)) as [->|Hk].
    + unfold getPair, Map_at. rewrite Hm1. done.
    + etransitivity; [exact (Hget2 k)|]. rewrite Hget1. by rewrite decide_False.
  - unfold sameFrame. simpl. by rewrite !length_insert.
Qed.

(** ** The caches of the registered pairs *)

Lemma layout_ext cnt hole b b' m :
  layout cnt hole b m → length b' = length b →
  (∀ j p, array_get b j = Some p → ∃ p', array_get b' j = Some p' ∧ pairId p' = pairId p) →
  layout cnt hole b' m.
Proof.
  intros [Hlive Hidx Hsize Hhole Hfit] Hlen Hext. split; [| |done|done|lia].
  - intros i Hi Hne. destruct (Hlive i Hi Hne) as (p & Hp & Hm).
    destruct (Hext i p Hp) as (p' & Hp' & Hid). exists p'. by rewrite Hid.
  - intros k i Hk. destruct (Hidx k i Hk) as (Hi & Hne & p & Hp & Hpk).
    destruct (Hext i p Hp) as (p' & Hp' & Hid). split_and!; [done..|].
    exists p'. split; [done | congruence].
Qed.

Lemma consistent_ext s s' :
  consistent s →
  mNbPairs s' = mNbPairs s → mConcavePairsStartIndex s' = mConcavePairsStartIndex s →
  mNbAllocatedPairs s' = mNbAllocatedPairs s →
  mMapPairIdToPairIndex s' = mMapPairIdToPairIndex s →
  length (mBuffer s') = length (mBuffer s) →
  (∀ j p, array_get (mBuffer s) j = Some p →
     ∃ p', array_get (mBuffer s') j = Some p' ∧ pairId p' = pairId p) →
  consistent s'.
Proof.
  intros [Hl _ Hb Hcap Hcap64] Hn Hcs Hcap' Hm Hlen Hext.
  split; rewrite ?Hn, ?Hcs, ?Hcap', ?Hm, ?Hlen; [|done..].
  by apply (layout_ext _ _ (mBuffer s)).
Qed.

(** The data of a pair apart from its cache. *)
Definition withoutCache (p : PairData) : PairData := withLastFrameCollisionInfos ∅ p.

Lemma addLastFrameInfoIfNecessary_contents s k shapeId1 shapeId2 info s1 :
  consistent s →
  addLastFrameInfoIfNecessary k shapeId1 shapeId2 s = Some (info, s1) →
  ∃ p,
    getPair s k = Some p
    ∧ (∀ k', getPair s1 k'
             = if decide (k' = k)
               then Some (withLastFrameCollisionInfos
                            (<[(shapeId1, shapeId2) := info]> (lastFrameCollisionInfos p)) p)
               else getPair s k')
    ∧ consistent s1
    ∧ mNbPairs s1 = mNbPairs s
    ∧ mConcavePairsStartIndex s1 = mConcavePairsStartIndex s
    ∧ mNbAllocatedPairs s1 = mNbAllocatedPairs s
    ∧ mMapPairIdToPairIndex s1 = mMapPairIdToPairIndex s
    ∧ mOverlappingPairsOfShape s1 = mOverlappingPairsOfShape s.
Proof.
  intros Hs Htouch. unfold addLastFrameInfoIfNecessary, Map_at in Htouch.
  destruct (mMapPairIdToPairIndex s !! k) as [index|] eqn:Hk; [|done]. simpl in Htouch.
  destruct (array_get (mBuffer s) index) as [p|] eqn:Hp; [|done]. simpl in Htouch.
  pose proof (array_get_lt _ _ _ Hp) as Hlt.
  assert (s1 = withBuffer
                 (<[N.to_nat index := withLastFrameCollisionInfos
                      (<[(shapeId1, shapeId2) := info]> (lastFrameCollisionInfos p)) p]>
                    (mBuffer s)) s) as ->.
  { destruct (lastFrameCollisionInfos p !! (shapeId1, shapeId2)) as [old|] eqn:Hold.
    - rewrite array_set_Some in Htouch by done. simpl in Htouch. by injection Htouch as <- <-.
    - unfold Map_add in Htouch. rewrite Hold in Htouch. simpl in Htouch.
      rewrite array_set_Some in Htouch by done. simpl in Htouch. by injection Htouch as <- <-. }
  exists p. split_and!; [| | |done..].
  - unfold getPair, Map_at. rewrite Hk. done.
  - intros k'. unfold getPair, Map_at. simpl.
    destruct (decide (k' = k)) as [->|Hne].
    + rewrite Hk. simpl. by apply array_get_insert_eq.
    + destruct (mMapPairIdToPairIndex s !! k') as [j|] eqn:Hk'; [|done]. simpl.
      destruct (consistent_registered s k' j Hs Hk') as (_ & q & Hq & Hqk).
      destruct (consistent_registered s k index Hs Hk) as (_ & p' & Hp' & Hpk).
      rewrite array_get_insert_ne; [done|]. intros ->. congruence.
  - apply (consistent_ext s); [done..| by simpl; rewrite length_insert |].
    intros j q Hq. simpl. destruct (decide (index = j)) as [<-|Hne].
    + rewrite array_get_insert_eq by done. eexists. split; [done|].
      simpl. congruence.
    + rewrite array_get_insert_ne by done. by exists q.
Qed.

Lemma forEachIndex_sweep_frame count i s s' :
  forEachIndex count i sweepBody s = Some s' →
  mConcavePairsStartIndex s' = mConcavePairsStartIndex s
  ∧ mNbAllocatedPairs s' = mNbAllocatedPairs s
  ∧ mOverlappingPairsOfShape s' = mOverlappingPairsOfShape s.
Proof.
  revert i s. induction count as [|count IH]; intros i s.
  - by intros [= <-].
  - change (forEachIndex (S count) i sweepBody s)
      with (sweepBody i s ≫= forEachIndex count (incr64 i) sweepBody).
    destruct (sweepBody i s) as [s0|] eqn:Hbody; [|done]. simpl.
    intros Hrun. destruct (IH _ _ Hrun) as (-> & -> & ->).
    unfold sweepBody in Hbody.
    destruct (array_get (mBuffer s) i) as [p|]; [|done]. simpl in Hbody.
    destruct (array_set (mBuffer s) i (sweepSlot p)) as [b|]; [|done]. simpl in Hbody.
    by injection Hbody as <-.
Qed.

Lemma clearObsolete_contents s :
  consistent s →
  ∃ s1, clearObsoleteLastFrameCollisionInfos s = Some s1
        ∧ (∀ k, getPair s1 k = sweepSlot <$> getPair s k)
        ∧ consistent s1
        ∧ mNbPairs s1 = mNbPairs s
        ∧ mConcavePairsStartIndex s1 = mConcavePairsStartIndex s
        ∧ mNbAllocatedPairs s1 = mNbAllocatedPairs s
        ∧ mMapPairIdToPairIndex s1 = mMapPairIdToPairIndex s
        ∧ mOverlappingPairsOfShape s1 = mOverlappingPairsOfShape s.
Proof.
  intros Hs.
  pose proof (wf_count_bound _ _ s Hs) as Hn64.
  pose proof (layout_fit _ _ _ _ (wf_layout _ _ s Hs)) as Hfit.
  destruct (forEachIndex_sweep (N.to_nat (mNbPairs s)) 0 s)
    as (s1 & Hrun & Hn & Hm & Hlen & Hget); [lia | lia |].
  destruct (forEachIndex_sweep_frame _ _ _ _ Hrun) as (Hcs & Hcap & Hovl).
  exists s1. split_and!; [done | | | done..].
  - intros k. unfold getPair, Map_at. rewrite Hm.
    destruct (mMapPairIdToPairIndex s !! k) as [j|] eqn:Hk; [|done]. simpl.
    destruct (consistent_registered s k j Hs Hk) as (Hj & p & Hp & _).
    rewrite (Hget j p Hp), Hp. simpl. by rewrite bool_decide_eq_true_2 by lia.
  - apply (consistent_ext s); [done..|].
    intros j p Hp. rewrite (Hget j p Hp). eexists. split; [done|].
    by case_bool_decide.
Qed.

Lemma cachedInfo_sweepSlot (p : option PairData) key :
  (sweepSlot <$> p) ≫= (λ q, lastFrameCollisionInfos q !! key)
  = (p ≫= (λ q, lastFrameCollisionInfos q !! key)) ≫= sweepEntry.
Proof.
  destruct p as [p|]; [|done]. simpl. apply lookup_omap.
Qed.

Lemma sweepEntry_twice (info : option LastFrameCollisionInfo) :
  (info ≫= sweepEntry) ≫= sweepEntry = None.
Proof.
  destruct info as [info|]; [|done]. simpl. unfold sweepEntry.
  by destruct (isObsolete info).
Qed.

(** Every slot of [s] is a slot of [s'] with the same data apart from the
    cache. *)
Definition slotsUpToCache (s s' : state) : Prop :=
  ∀ j p, array_get (mBuffer s) j = Some p →
    ∃ p', array_get (mBuffer s') j = Some p' ∧ withoutCache p' = withoutCache p.

Lemma partitioned_ext isConvex s s' :
  partitioned isConvex s →
  mNbPairs s' = mNbPairs s → mConcavePairsStartIndex s' = mConcavePairsStartIndex s →
  mMapPairIdToPairIndex s' = mMapPairIdToPairIndex s →
  slotsUpToCache s s' →
  partitioned isConvex s'.
Proof.
  intros [Hb Hslots] Hn Hcs Hm Hext. split; [by rewrite Hn, Hcs|].
  rewrite Hn, Hcs. intros i Hi. destruct (Hslots i Hi) as [(p & Hp & Hmp) Hkind].
  destruct (Hext i p Hp) as (p' & Hp' & Heq).
  assert (pairId p' = pairId p ∧ proxyShape1 p' = proxyShape1 p
          ∧ proxyShape2 p' = proxyShape2 p) as (Hid & H1 & H2).
  { unfold withoutCache, withLastFrameCollisionInfos in Heq. by injection Heq. }
  split.
  - exists p'. split; [done|]. by rewrite Hm, Hid.
  - intros q Hq. assert (q = p') as -> by congruence.
    rewrite <-(Hkind p Hp). unfold isConvexVsConvex. by rewrite H1, H2.
Qed.

Lemma addLastFrameInfoIfNecessary_slots s k shapeId1 shapeId2 info s1 :
  addLastFrameInfoIfNecessary k shapeId1 shapeId2 s = Some (info, s1) →
  slotsUpToCache s s1.
Proof.
  intros Htouch. unfold addLastFrameInfoIfNecessary, Map_at in Htouch.
  destruct (mMapPairIdToPairIndex s !! k) as [index|] eqn:Hk; [|done]. simpl in Htouch.
  destruct (array_get (mBuffer s) index) as [p|] eqn:Hp; [|done]. simpl in Htouch.
  pose proof (array_get_lt _ _ _ Hp) as Hlt.
  assert (∃ infos, s1 = withBuffer
            (<[N.to_nat index := withLastFrameCollisionInfos infos p]> (mBuffer s)) s)
    as [infos ->].
  { destruct (lastFrameCollisionInfos p !! (shapeId1, shapeId2)) as [old|] eqn:Hold.
    - rewrite array_set_Some in Htouch by done. simpl in Htouch.
      injection Htouch as <- <-. by eexists.
    - unfold Map_add in Htouch. rewrite Hold in Htouch. simpl in Htouch.
      rewrite array_set_Some in Htouch by done. simpl in Htouch.
      injection Htouch as <- <-. by eexists. }
  intros j q Hq. simpl. destruct (decide (index = j)) as [<-|Hne].
  - rewrite array_get_insert_eq by done. eexists. split; [done|].
    assert (q = p) as -> by congruence. done.
  - rewrite array_get_insert_ne by done. by exists q.
Qed.

Lemma clearObsolete_slots s s1 :
  consistent s → clearObsoleteLastFrameCollisionInfos s = Some s1 → slotsUpToCache s s1.
Proof.
  intros Hs Hsweep.
  pose proof (wf_count_bound _ _ s Hs) as Hn64.
  pose proof (layout_fit _ _ _ _ (wf_layout _ _ s Hs)) as Hfit.
  destruct (forEachIndex_sweep (N.to_nat (mNbPairs s)) 0 s)
    as (s1' & Hrun & _ & _ & _ & Hget); [lia | lia |].
  assert (Hsweep' : forEachIndex (N.to_nat (mNbPairs s)) 0 sweepBody s = Some s1)
    by exact Hsweep.
  assert (s1' = s1) as -> by congruence.
  intros j p Hp. rewrite (Hget j p Hp). eexists. split; [done|].
  by case_bool_decide.
Qed.

Lemma List_remove_app_r (x : N) (l l' : list N) :
  x ∉ l → List_remove x (l ++ x :: l') = l ++ l'.
Proof.
  induction l as [|y l IH]; simpl; intros Hx.
  - by rewrite decide_True.
  - apply not_elem_of_cons in Hx as [Hxy Hx]. rewrite decide_False by done.
    by rewrite IH.
Qed.

Lemma listed_fresh s e k : listed s → getPair s k = None → k ∉ getOverlappingPairs s e.
Proof.
  intros Hlisted Hk. rewrite list_elem_of_In. apply (count_occ_not_In N.eq_dec).
  by rewrite Hlisted, Hk.
Qed.

(** ** What the operations do to the pairs of the registry *)

Section Pairs.

Context (isConvex : Entity → bool) (pairNumbers : uint32 → uint32 → uint64).

Local Abbreviation addPair := (addPair isConvex pairNumbers).

(** X1. On a consistent registry, a completed [addPair] registers the new
    pair and disturbs no other. The identity it returns was not registered
    before; afterwards it leads to the data built from the two shapes (their
    broad-phase ids and entities, an empty cache, the overlap-test flag
    cleared, the given activity); every other identity leads to the same
    data as before, cache included, also when the buffer was reallocated or
    a concave pair was moved to make room. *)
Theorem addPair_registers_pair
    (s : state) (shape1 shape2 : ProxyShape) (isActive : bool) (k : uint64) (s' : state) :
  consistent s →
  addPair shape1 shape2 isActive s = Some (k, s') →
  getPair s k = None
  ∧ getPair s' k
    = Some (mkPairData k (getBroadPhaseId shape1) (getBroadPhaseId shape2)
                       (getEntity shape1) (getEntity shape2) ∅ false isActive)
  ∧ ∀ k', k' ≠ k → getPair s' k' = getPair s k'.
Proof.
  intros Hs Hadd.
  destruct (addPair_contents isConvex pairNumbers s shape1 shape2 isActive k s' Hs Hadd)
    as (Hget & Hfresh & _).
  split_and!; [done | |].
  - by rewrite Hget, decide_True.
  - intros k' Hne. by rewrite Hget, decide_False.
Qed.

(** X2. On a consistent registry, a completed [removePair] unregisters the
    pair and disturbs no other: the removed identity leads to no data any
    more, and every other identity leads to the same data as before, cache
    included, whichever slots were moved to close the gap. *)
Theorem removePair_unregisters_pair (s : state) (k : uint64) (s' : state) :
  consistent s →
  removePair k s = Some s' →
  getPair s' k = None
  ∧ ∀ k', k' ≠ k → getPair s' k' = getPair s k'.
Proof.
  intros Hs Hrem.
  destruct (removePair_contents s k s' Hs Hrem) as (_ & _ & _ & _ & _ & Hget & _).
  split.
  - by rewrite Hget, decide_True.
  - intros k' Hne. by rewrite Hget, decide_False.
Qed.

(** X3. In a state the registry reaches from its construction, [addPair]
    followed by [removePair] of the identity it returned restores what the
    registry holds: the removal completes, every identity leads to the same
    data as before the two calls, and every shape lists the same pairs in the
    same order. *)
Theorem addPair_removePair_restores_pairs
    (INIT_NB_ALLOCATED_PAIRS : uint32) (s : state) (shape1 shape2 : ProxyShape)
    (isActive : bool) (k : uint64) (s1 : state) :
  INIT_NB_ALLOCATED_PAIRS < 2 ^ 32 →
  reachable isConvex pairNumbers INIT_NB_ALLOCATED_PAIRS s →
  addPair shape1 shape2 isActive s = Some (k, s1) →
  ∃ s2, removePair k s1 = Some s2
        ∧ (∀ k', getPair s2 k' = getPair s k')
        ∧ ∀ e, getOverlappingPairs s2 e = getOverlappingPairs s e.
Proof.
  intros HI Hreach Hadd.
  assert (Hs : consistent s).
  { apply (reachable_consistent isConvex pairNumbers INIT_NB_ALLOCATED_PAIRS); [lia | done]. }
  assert (Hlisted : listed s).
  { apply (reachable_listed isConvex pairNumbers INIT_NB_ALLOCATED_PAIRS); [lia | done]. }
  destruct (addPair_contents isConvex pairNumbers s shape1 shape2 isActive k s1 Hs Hadd)
    as (Hget1 & Hfresh & Hovl1 & _).
  destruct (addPair_wf isConvex pairNumbers false s shape1 shape2 isActive k s1
              (consistent_wf isConvex s Hs) Hadd) as (Hs1 & _ & _ & _ & _ & Hk1).
  destruct (removePair_wf isConvex false s1 k _ Hs1 Hk1) as (s2 & Hrem & _).
  apply wf_consistent in Hs1.
  destruct (removePair_contents s1 k s2 Hs1 Hrem)
    as (index & p & Hk & Hp & _ & Hget2 & _ & Hovl2).
  assert (Hdata : getPair s1 k = Some p) by (unfold getPair, Map_at; by rewrite Hk).
  rewrite Hget1, decide_True in Hdata by done. injection Hdata as <-.
  exists s2. split_and!; [done | |].
  - intros k'. rewrite Hget2, Hget1.
    destruct (decide (k' = k)) as [->|]; done.
  - intros e. rewrite Hovl2, Hovl1. simpl.
    pose proof (listed_fresh s e k Hlisted Hfresh) as Hnotin.
    repeat case_decide; unfold id; simplify_eq; cbn [app];
      rewrite ?app_nil_r, ?List_remove_app_r, ?app_nil_r, ?List_remove_app_r, ?app_nil_r;
      done.
Qed.

(** X4. In every state the registry reaches from its construction, a shape
    lists exactly the pairs it takes part in: a pair id occurs in the list of
    a shape as many times as the pair registered under it names the shape,
    so it is listed if and only if some registered pair with that id has the
    shape as its first or second shape. *)
Theorem overlappingPairs_listed
    (INIT_NB_ALLOCATED_PAIRS : uint32) (s : state) :
  INIT_NB_ALLOCATED_PAIRS < 2 ^ 32 →
  reachable isConvex pairNumbers INIT_NB_ALLOCATED_PAIRS s →
  ∀ e k,
    count_occ N.eq_dec (getOverlappingPairs s e) k = roles (getPair s k) e
    ∧ (k ∈ getOverlappingPairs s e
       ↔ ∃ p, getPair s k = Some p ∧ (proxyShape1 p = e ∨ proxyShape2 p = e)).
Proof.
  intros HI Hreach e k.
  assert (Hlisted : listed s).
  { apply (reachable_listed isConvex pairNumbers INIT_NB_ALLOCATED_PAIRS); [lia | done]. }
  split; [apply Hlisted | by apply listed_elem_of].
Qed.

(** X5. On a consistent registry, the capacity of the buffer changes only
    when [addPair] finds the buffer full, and then it doubles: after a
    completed [addPair] the capacity is twice the old one if the pair count
    equalled the capacity, and the old one otherwise; a completed
    [removePair] leaves the capacity as it was. *)
Theorem capacity_growth (s : state) :
  consistent s →
  (∀ shape1 shape2 isActive k s',
     addPair shape1 shape2 isActive s = Some (k, s') →
     mNbAllocatedPairs s'
     = (if mNbPairs s =? mNbAllocatedPairs s
        then 2 * mNbAllocatedPairs s else mNbAllocatedPairs s))
  ∧ (∀ k s', removePair k s = Some s' → mNbAllocatedPairs s' = mNbAllocatedPairs s).
Proof.
  intros Hs. split.
  - intros shape1 shape2 isActive k s' Hadd.
    by destruct (addPair_contents isConvex pairNumbers s shape1 shape2 isActive k s' Hs Hadd)
      as (_ & _ & _ & Hcap).
  - intros k s' Hrem.
    by destruct (removePair_contents s k s' Hs Hrem) as (_ & _ & _ & _ & _ & _ & Hcap & _).
Qed.

(** X6. On a consistent registry, [addPair] completes whenever the identity
    of the two shapes is not registered yet and there is room: a free slot,
    or a capacity that is not zero and can be doubled within 64 bits. It
    returns the identity computed from the two broad-phase ids. *)
Theorem addPair_completes (s : state) (shape1 shape2 : ProxyShape) (isActive : bool) :
  consistent s →
  getPair s (computePairId pairNumbers (getBroadPhaseId shape1) (getBroadPhaseId shape2)) = None →
  mNbPairs s < mNbAllocatedPairs s
  ∨ (0 < mNbAllocatedPairs s ∧ 2 * mNbAllocatedPairs s < 2 ^ 64) →
  ∃ s', addPair shape1 shape2 isActive s
        = Some (computePairId pairNumbers (getBroadPhaseId shape1) (getBroadPhaseId shape2), s').
Proof.
  intros Hs Habsent Hroom.
  apply (addPair_succeeds isConvex pairNumbers false); [by apply consistent_wf | | done].
  unfold getPair, Map_at in Habsent.
  destruct (mMapPairIdToPairIndex s !! _) as [index|] eqn:Hk; [|done].
  destruct (consistent_registered s _ index Hs Hk) as (_ & p & Hp & _).
  simpl in Habsent. congruence.
Qed.

End Pairs.

(** X7. On a consistent registry, [swapPairs] on two different slots below
    the pair count completes and exchanges the data of the two slots: each
    of the two slots ends with the data the other one held, cache included;
    the other slots, the counts, the capacity and the lists of the shapes
    are unchanged; and every identity still leads to the same data. *)
Theorem swapPairs_exchanges_slots (s : state) (index1 index2 : uint64) :
  consistent s →
  index1 < mNbPairs s → index2 < mNbPairs s → index1 ≠ index2 →
  ∃ s', swapPairs index1 index2 s = Some s'
        ∧ array_get (mBuffer s') index1 = array_get (mBuffer s) index2
        ∧ array_get (mBuffer s') index2 = array_get (mBuffer s) index1
        ∧ (∀ j, j ≠ index1 → j ≠ index2 → array_get (mBuffer s') j = array_get (mBuffer s) j)
        ∧ (∀ k, getPair s' k = getPair s k)
        ∧ mNbPairs s' = mNbPairs s
        ∧ mConcavePairsStartIndex s' = mConcavePairsStartIndex s
        ∧ mNbAllocatedPairs s' = mNbAllocatedPairs s
        ∧ mOverlappingPairsOfShape s' = mOverlappingPairsOfShape s.
Proof.
  intros Hs H1 H2 Hne.
  destruct (swapPairs_contents s index1 index2 Hs H1 H2 Hne)
    as (s' & Hswap & Hslot1 & Hslot2 & Hslots & Hget & Hn & Hcs & Hcap & Hovl & _).
  exists s'. done.
Qed.

(** X8. On a consistent registry, a completed [addLastFrameInfoIfNecessary]
    writes one cache entry and nothing else: the entry of the given pair for
    the given feature ids is the one it returns; every other entry of that
    pair and every entry of every other pair is as before; the data of the
    pairs apart from their caches, the counts, the capacity, the lookup and
    the lists of the shapes are unchanged, and the registry stays
    consistent and, if it was, partitioned. *)
Theorem addLastFrameInfoIfNecessary_frame
    (s : state) (k : uint64) (shapeId1 shapeId2 : uint32)
    (info : LastFrameCollisionInfo) (s1 : state) :
  consistent s →
  addLastFrameInfoIfNecessary k shapeId1 shapeId2 s = Some (info, s1) →
  consistent s1
  ∧ (∀ isConvex, partitioned isConvex s → partitioned isConvex s1)
  ∧ (∀ k' key,
       cachedInfo s1 k' key
       = if decide (k' = k ∧ key = (shapeId1, shapeId2)) then Some info
         else cachedInfo s k' key)
  ∧ (∀ k', withoutCache <$> getPair s1 k' = withoutCache <$> getPair s k')
  ∧ mNbPairs s1 = mNbPairs s
  ∧ mConcavePairsStartIndex s1 = mConcavePairsStartIndex s
  ∧ mNbAllocatedPairs s1 = mNbAllocatedPairs s
  ∧ mMapPairIdToPairIndex s1 = mMapPairIdToPairIndex s
  ∧ mOverlappingPairsOfShape s1 = mOverlappingPairsOfShape s.
Proof.
  intros Hs Htouch.
  destruct (addLastFrameInfoIfNecessary_contents s k shapeId1 shapeId2 info s1 Hs Htouch)
    as (p & Hp & Hget & Hs1 & Hframe).
  split_and!; [done | | | | apply Hframe..].
  - intros isConvex Hpart.
    apply (partitioned_ext isConvex s); [done | apply Hframe.. |].
    by apply (addLastFrameInfoIfNecessary_slots s k shapeId1 shapeId2 info).
  - intros k' key. unfold cachedInfo. rewrite Hget.
    destruct (decide (k' = k)) as [->|Hne].
    + rewrite Hp. simpl.
      destruct (decide (key = (shapeId1, shapeId2))) as [->|Hkey].
      * rewrite decide_True by done. apply lookup_insert_eq.
      * rewrite decide_False by tauto. by apply lookup_insert_ne.
    + by rewrite decide_False by tauto.
  - intros k'. rewrite Hget. destruct (decide (k' = k)) as [->|]; [|done].
    by rewrite Hp.
Qed.

(** X9. On a consistent registry, [clearObsoleteLastFrameCollisionInfos]
    completes and ages every cache entry of every registered pair by one
    step: an obsolete entry is gone, any other entry is kept and marked
    obsolete, no entry appears. It changes nothing else: the data of the
    pairs apart from their caches, the counts, the capacity, the lookup and
    the lists of the shapes are as before, and the registry stays
    consistent and, if it was, partitioned. A second sweep right after the
    first leaves every cache empty. *)
Theorem clearObsolete_ages_every_entry (s : state) :
  consistent s →
  ∃ s1 s2,
    clearObsoleteLastFrameCollisionInfos s = Some s1
    ∧ consistent s1
    ∧ (∀ isConvex, partitioned isConvex s → partitioned isConvex s1)
    ∧ (∀ k key, cachedInfo s1 k key = cachedInfo s k key ≫= sweepEntry)
    ∧ (∀ k, withoutCache <$> getPair s1 k = withoutCache <$> getPair s k)
    ∧ mNbPairs s1 = mNbPairs s
    ∧ mConcavePairsStartIndex s1 = mConcavePairsStartIndex s
    ∧ mNbAllocatedPairs s1 = mNbAllocatedPairs s
    ∧ mMapPairIdToPairIndex s1 = mMapPairIdToPairIndex s
    ∧ mOverlappingPairsOfShape s1 = mOverlappingPairsOfShape s
    ∧ clearObsoleteLastFrameCollisionInfos s1 = Some s2
    ∧ ∀ k key, cachedInfo s2 k key = None.
Proof.
  intros Hs.
  destruct (clearObsolete_contents s Hs) as (s1 & Hsweep1 & Hget1 & Hs1 & Hframe).
  destruct (clearObsolete_contents s1 Hs1) as (s2 & Hsweep2 & Hget2 & _).
  assert (Hcache1 : ∀ k key, cachedInfo s1 k key = cachedInfo s k key ≫= sweepEntry).
  { intros k key. unfold cachedInfo. rewrite Hget1. apply cachedInfo_sweepSlot. }
  exists s1, s2. split_and!; [done | done | | done | | apply Hframe.. | done |].
  - intros isConvex Hpart.
    apply (partitioned_ext isConvex s); [done | apply Hframe.. |].
    by apply clearObsolete_slots.
  - intros k. rewrite Hget1. by destruct (getPair s k).
  - intros k key.
    transitivity (cachedInfo s1 k key ≫= sweepEntry).
    + unfold cachedInfo. rewrite Hget2. apply cachedInfo_sweepSlot.
    + rewrite Hcache1. apply sweepEntry_twice.
Qed.

(** ** The worked example, continued *)

Lemma addPair_registers_pair_witness :
  consistent demo_s2
  ∧ addPair demo_isConvex demo_pairNumbers (demo_shape 3 3) (demo_shape 4 4) true demo_s2
    = Some (23, demo_s3)
  ∧ getPair demo_s2 23 = None
  ∧ getPair demo_s3 23 = Some (mkPairData 23 3 4 3 4 ∅ false true)
  ∧ ∀ k', k' ≠ 23 → getPair demo_s3 k' = getPair demo_s2 k'.
Proof.
  assert (Hadd : addPair demo_isConvex demo_pairNumbers (demo_shape 3 3) (demo_shape 4 4) true
                   demo_s2 = Some (23, demo_s3)) by (by vm_compute).
  split_and!; [apply demo_consistent_s2 | done | ..];
    apply (addPair_registers_pair demo_isConvex demo_pairNumbers
             demo_s2 (demo_shape 3 3) (demo_shape 4 4) true 23 demo_s3
             demo_consistent_s2 Hadd).
Defined.

Lemma removePair_unregisters_pair_witness :
  consistent demo_s3
  ∧ removePair 13 demo_s3 = Some demo_state
  ∧ getPair demo_state 13 = None
  ∧ ∀ k', k' ≠ 13 → getPair demo_state k' = getPair demo_s3 k'.
Proof.
  assert (Hrem : removePair 13 demo_s3 = Some demo_state) by (by vm_compute).
  split_and!; [apply demo_consistent_s3 | done | ..];
    apply (removePair_unregisters_pair demo_s3 13 demo_state demo_consistent_s3 Hrem).
Defined.

Lemma addPair_removePair_restores_pairs_witness :
  2 < 2 ^ 32
  ∧ reachable demo_isConvex demo_pairNumbers 2 demo_s2
  ∧ addPair demo_isConvex demo_pairNumbers (demo_shape 3 3) (demo_shape 4 4) true demo_s2
    = Some (23, demo_s3)
  ∧ ∃ s2, removePair 23 demo_s3 = Some s2
          ∧ (∀ k', getPair s2 k' = getPair demo_s2 k')
          ∧ ∀ e, getOverlappingPairs s2 e = getOverlappingPairs demo_s2 e.
Proof.
  assert (HI : 2 < 2 ^ 32) by done.
  assert (Hadd : addPair demo_isConvex demo_pairNumbers (demo_shape 3 3) (demo_shape 4 4) true
                   demo_s2 = Some (23, demo_s3)) by (by vm_compute).
  split_and!; [done | apply demo_reachable_s2 | done |].
  exact (addPair_removePair_restores_pairs demo_isConvex demo_pairNumbers 2
           demo_s2 (demo_shape 3 3) (demo_shape 4 4) true 23 demo_s3
           HI demo_reachable_s2 Hadd).
Defined.

Lemma overlappingPairs_listed_witness :
  2 < 2 ^ 32
  ∧ reachable demo_isConvex demo_pairNumbers 2 demo_state
  ∧ ∀ e k,
      count_occ N.eq_dec (getOverlappingPairs demo_state e) k = roles (getPair demo_state k) e
      ∧ (k ∈ getOverlappingPairs demo_state e
         ↔ ∃ p, getPair demo_state k = Some p ∧ (proxyShape1 p = e ∨ proxyShape2 p = e)).
Proof.
  assert (HI : 2 < 2 ^ 32) by done.
  split_and!; [done | apply demo_reachable |].
  exact (overlappingPairs_listed demo_isConvex demo_pairNumbers 2 demo_state HI demo_reachable).
Defined.

Lemma capacity_growth_witness :
  consistent demo_s2
  ∧ (∀ shape1 shape2 isActive k s',
       addPair demo_isConvex demo_pairNumbers shape1 shape2 isActive demo_s2 = Some (k, s') →
       mNbAllocatedPairs s'
       = (if mNbPairs demo_s2 =? mNbAllocatedPairs demo_s2
          then 2 * mNbAllocatedPairs demo_s2 else mNbAllocatedPairs demo_s2))
  ∧ (∀ k s', removePair k demo_s2 = Some s' → mNbAllocatedPairs s' = mNbAllocatedPairs demo_s2).
Proof.
  split; [apply demo_consistent_s2|].
  exact (capacity_growth demo_isConvex demo_pairNumbers demo_s2 demo_consistent_s2).
Defined.

Lemma addPair_completes_witness :
  consistent demo_s3
  ∧ getPair demo_s3
      (computePairId demo_pairNumbers (getBroadPhaseId (demo_shape 5 5))
                     (getBroadPhaseId (demo_shape 6 6))) = None
  ∧ (mNbPairs demo_s3 < mNbAllocatedPairs demo_s3
     ∨ (0 < mNbAllocatedPairs demo_s3 ∧ 2 * mNbAllocatedPairs demo_s3 < 2 ^ 64))
  ∧ ∃ s', addPair demo_isConvex demo_pairNumbers (demo_shape 5 5) (demo_shape 6 6) true demo_s3
          = Some (computePairId demo_pairNumbers (getBroadPhaseId (demo_shape 5 5))
                                (getBroadPhaseId (demo_shape 6 6)), s').
Proof.
  assert (Habsent : getPair demo_s3
            (computePairId demo_pairNumbers (getBroadPhaseId (demo_shape 5 5))
                           (getBroadPhaseId (demo_shape 6 6))) = None) by (by vm_compute).
  assert (Hroom : mNbPairs demo_s3 < mNbAllocatedPairs demo_s3
                  ∨ (0 < mNbAllocatedPairs demo_s3 ∧ 2 * mNbAllocatedPairs demo_s3 < 2 ^ 64))
    by (left; by vm_compute).
  split_and!; [apply demo_consistent_s3 | done | done |].
  exact (addPair_completes demo_isConvex demo_pairNumbers demo_s3
           (demo_shape 5 5) (demo_shape 6 6) true demo_consistent_s3 Habsent Hroom).
Defined.

Lemma swapPairs_exchanges_slots_witness :
  consistent demo_s3
  ∧ 0 < mNbPairs demo_s3 ∧ 2 < mNbPairs demo_s3 ∧ 0 ≠ 2
  ∧ ∃ s', swapPairs 0 2 demo_s3 = Some s'
          ∧ array_get (mBuffer s') 0 = array_get (mBuffer demo_s3) 2
          ∧ array_get (mBuffer s') 2 = array_get (mBuffer demo_s3) 0
          ∧ (∀ j, j ≠ 0 → j ≠ 2 → array_get (mBuffer s') j = array_get (mBuffer demo_s3) j)
          ∧ (∀ k, getPair s' k = getPair demo_s3 k)
          ∧ mNbPairs s' = mNbPairs demo_s3
          ∧ mConcavePairsStartIndex s' = mConcavePairsStartIndex demo_s3
          ∧ mNbAllocatedPairs s' = mNbAllocatedPairs demo_s3
          ∧ mOverlappingPairsOfShape s' = mOverlappingPairsOfShape demo_s3.
Proof.
  assert (H0 : 0 < mNbPairs demo_s3) by (by vm_compute).
  assert (H2 : 2 < mNbPairs demo_s3) by (by vm_compute).
  assert (Hne : 0 ≠ 2) by done.
  split_and!; [apply demo_consistent_s3 | done | done | done |].
  exact (swapPairs_exchanges_slots demo_s3 0 2 demo_consistent_s3 H0 H2 Hne).
Defined.

(** Pair 23 of [demo_s3] after its entry for the features 0 and 1 has been
    touched. *)
Definition demo_touched : state :=
  Eval vm_compute in
    default demo_s3 (snd <$> addLastFrameInfoIfNecessary 23 0 1 demo_s3).

Lemma demo_consistent_touched : consistent demo_touched.
Proof.
  assert (Htouch : addLastFrameInfoIfNecessary 23 0 1 demo_s3
                   = Some ({| isObsolete := false |}, demo_touched)) by (by vm_compute).
  by destruct (addLastFrameInfoIfNecessary_contents demo_s3 23 0 1 _ _ demo_consistent_s3 Htouch)
    as (_ & _ & _ & ? & _).
Qed.

Lemma addLastFrameInfoIfNecessary_frame_witness :
  consistent demo_s3
  ∧ addLastFrameInfoIfNecessary 23 0 1 demo_s3 = Some ({| isObsolete := false |}, demo_touched)
  ∧ consistent demo_touched
  ∧ (∀ isConvex, partitioned isConvex demo_s3 → partitioned isConvex demo_touched)
  ∧ (∀ k' key,
       cachedInfo demo_touched k' key
       = if decide (k' = 23 ∧ key = (0, 1)) then Some {| isObsolete := false |}
         else cachedInfo demo_s3 k' key)
  ∧ (∀ k', withoutCache <$> getPair demo_touched k' = withoutCache <$> getPair demo_s3 k')
  ∧ mNbPairs demo_touched = mNbPairs demo_s3
  ∧ mConcavePairsStartIndex demo_touched = mConcavePairsStartIndex demo_s3
  ∧ mNbAllocatedPairs demo_touched = mNbAllocatedPairs demo_s3
  ∧ mMapPairIdToPairIndex demo_touched = mMapPairIdToPairIndex demo_s3
  ∧ mOverlappingPairsOfShape demo_touched = mOverlappingPairsOfShape demo_s3.
Proof.
  assert (Htouch : addLastFrameInfoIfNecessary 23 0 1 demo_s3
                   = Some ({| isObsolete := false |}, demo_touched)) by (by vm_compute).
  split; [apply demo_consistent_s3|]. split; [done|].
  exact (addLastFrameInfoIfNecessary_frame demo_s3 23 0 1 _ demo_touched
           demo_consistent_s3 Htouch).
Defined.

Lemma clearObsolete_ages_every_entry_witness :
  consistent demo_touched
  ∧ ∃ s1 s2,
      clearObsoleteLastFrameCollisionInfos demo_touched = Some s1
      ∧ consistent s1
      ∧ (∀ isConvex, partitioned isConvex demo_touched → partitioned isConvex s1)
      ∧ (∀ k key, cachedInfo s1 k key = cachedInfo demo_touched k key ≫= sweepEntry)
      ∧ (∀ k, withoutCache <$> getPair s1 k = withoutCache <$> getPair demo_touched k)
      ∧ mNbPairs s1 = mNbPairs demo_touched
      ∧ mConcavePairsStartIndex s1 = mConcavePairsStartIndex demo_touched
      ∧ mNbAllocatedPairs s1 = mNbAllocatedPairs demo_touched
      ∧ mMapPairIdToPairIndex s1 = mMapPairIdToPairIndex demo_touched
      ∧ mOverlappingPairsOfShape s1 = mOverlappingPairsOfShape demo_touched
      ∧ clearObsoleteLastFrameCollisionInfos s1 = Some s2
      ∧ ∀ k key, cachedInfo s2 k key = None.
Proof.
  split; [apply demo_consistent_touched|].
  exact (clearObsolete_ages_every_entry demo_touched demo_consistent_touched).
Defined.

(** ** Destruction *)

(** The slots from [i] up to [n] are in use and are the ones the lookup
    leads to: the destructor has been through the slots below [i]. *)
Definition remaining (i n : N) (s : state) : Prop :=
  (∀ j, i ≤ j < n →
     ∃ p, array_get (mBuffer s) j = Some p ∧ mMapPairIdToPairIndex s !! pairId p = Some j)
  ∧ (∀ k j, mMapPairIdToPairIndex s !! k = Some j →
       i ≤ j < n ∧ ∃ p, array_get (mBuffer s) j = Some p ∧ pairId p = k).

Lemma consistent_remaining s : consistent s → remaining 0 (mNbPairs s) s.
Proof.
  intros Hs. pose proof (wf_layout _ _ s Hs) as Hl. split.
  - intros j Hj. apply (layout_live _ _ _ _ Hl); [lia | done].
  - intros k j Hk. destruct (layout_index _ _ _ _ Hl k j Hk) as (? & _ & ?).
    split; [lia | done].
Qed.

Lemma destroyRemainingPair_step i n s :
  remaining i n s → i < n → listed s →
  ∃ s', destroyRemainingPair i s = Some s' ∧ remaining (i + 1) n s' ∧ listed s'.
Proof.
  intros [Hlive Hidx] Hi Hlisted.
  destruct (Hlive i) as (p & Hp & Hm); [lia|].
  unfold destroyRemainingPair. rewrite Hp. simpl.
  set (s2 := setOverlappingPairs _ _ (setOverlappingPairs _ _ s)).
  assert (Hd : destroyPair i s2 = Some (destroyed s2 i p)).
  { apply destroyPair_inv. by exists p. }
  rewrite Hd. eexists. split; [done|].
  assert (Hget : ∀ k', getPair (destroyed s2 i p) k'
                       = if decide (k' = pairId p) then None else getPair s k').
  { intros k'. unfold getPair, Map_at. simpl.
    destruct (decide (k' = pairId p)) as [->|Hne].
    - by rewrite lookup_delete_eq.
    - rewrite lookup_delete_ne by done.
      destruct (mMapPairIdToPairIndex s !! k') as [j|] eqn:Hk'; [|done]. simpl.
      destruct (Hidx k' j Hk') as (_ & q & Hq & Hqk).
      rewrite array_get_insert_ne; [done|]. intros ->. congruence. }
  split.
  - split; simpl.
    + intros j Hj. destruct (Hlive j) as (q & Hq & Hmq); [lia|].
      exists q. rewrite array_get_insert_ne by lia. split; [done|].
      rewrite lookup_delete_ne; [done|]. intros Heq. rewrite Heq in Hm.
      assert (i = j) by congruence. lia.
    + intros k j Hk. apply lookup_delete_Some in Hk as [Hne Hk].
      destruct (Hidx k j Hk) as (Hj & q & Hq & Hqk).
      assert (i ≠ j) by (intros ->; congruence).
      split; [lia|]. exists q. by rewrite array_get_insert_ne.
  - apply (detach_listed s _ (pairId p) p); [done | | done |].
    + unfold getPair, Map_at. rewrite Hm. done.
    + intros e.
      change (getOverlappingPairs (destroyed s2 i p) e) with (getOverlappingPairs s2 e).
      unfold s2. rewrite !getOverlappingPairs_set.
      repeat case_decide; unfold id; try done; congruence.
Qed.

Lemma destroyLoop count i n s :
  N.of_nat count + i = n → n < 2 ^ 64 → remaining i n s → listed s →
  ∃ s', forEachIndex count i destroyRemainingPair s = Some s'
        ∧ remaining n n s' ∧ listed s'.
Proof.
  revert i s. induction count as [|count IH]; intros i s Hn H64 Hrem Hlisted.
  - exists s. assert (i = n) as -> by lia. done.
  - destruct (destroyRemainingPair_step i n s Hrem) as (s1 & Hstep & Hrem1 & Hlisted1);
      [lia | done |].
    change (forEachIndex (S count) i destroyRemainingPair s)
      with (destroyRemainingPair i s ≫= forEachIndex count (incr64 i) destroyRemainingPair).
    rewrite Hstep, incr64_small by lia. simpl.
    apply IH; [lia | done..].
Qed.

Lemma listed_nil s e :
  listed s → (∀ k, getPair s k = None) → getOverlappingPairs s e = [].
Proof.
  intros Hlisted Hnone.
  destruct (getOverlappingPairs s e) as [|k l] eqn:Hl; [done|].
  pose proof (Hlisted e k) as Hcount. rewrite Hl, Hnone in Hcount. simpl in Hcount.
  by destruct (N.eq_dec k k).
Qed.

Section Destruction.

Context (isConvex : Entity → bool) (pairNumbers : uint32 → uint32 → uint64).

(** X18. In a state the registry reaches from its construction with fewer
    than [2 ^ 32] pairs, the destructor completes and leaves no trace of the
    registry with the shapes: it goes through every remaining pair, and when
    it is done the lookup is empty and no shape lists any pair. *)
Theorem destructor_detaches_every_pair (INIT_NB_ALLOCATED_PAIRS : uint32) (s : state) :
  INIT_NB_ALLOCATED_PAIRS < 2 ^ 32 →
  reachable isConvex pairNumbers INIT_NB_ALLOCATED_PAIRS s →
  mNbPairs s < 2 ^ 32 →
  ∃ s', destructor s = Some s'
        ∧ mMapPairIdToPairIndex s' = ∅
        ∧ ∀ e, getOverlappingPairs s' e = [].
Proof.
  intros HI Hreach Hn.
  assert (Hs : consistent s).
  { apply (reachable_consistent isConvex pairNumbers INIT_NB_ALLOCATED_PAIRS); [lia | done]. }
  assert (Hlisted : listed s).
  { apply (reachable_listed isConvex pairNumbers INIT_NB_ALLOCATED_PAIRS); [lia | done]. }
  assert (Hend : ∀ s', remaining (mNbPairs s) (mNbPairs s) s' → listed s' →
                       mMapPairIdToPairIndex s' = ∅ ∧ ∀ e, getOverlappingPairs s' e = []).
  { intros s' [_ Hidx] Hlisted'.
    assert (Hempty : mMapPairIdToPairIndex s' = ∅).
    { apply map_empty. intros k.
      destruct (mMapPairIdToPairIndex s' !! k) as [j|] eqn:Hk; [|done].
      destruct (Hidx k j Hk) as (? & _). lia. }
    split; [done|]. intros e. apply listed_nil; [done|].
    intros k. unfold getPair, Map_at. by rewrite Hempty, lookup_empty. }
  unfold destructor.
  destruct (N.ltb_spec 0 (mNbAllocatedPairs s)) as [Hcap|Hcap].
  - destruct (N.leb_spec (2 ^ 32) (mNbPairs s)) as [|_]; [lia|].
    destruct (destroyLoop (N.to_nat (mNbPairs s)) 0 (mNbPairs s) s)
      as (s' & Hrun & Hrem & Hlisted'); [lia | lia | by apply consistent_remaining | done |].
    rewrite Hrun. simpl. eexists. split; [done|].
    destruct (Hend s' Hrem Hlisted') as [Hmap Hlists]. done.
  - exists s. split; [done|]. apply Hend; [|done].
    pose proof (wf_count_le _ _ s Hs) as Hle.
    replace (mNbPairs s) with 0 by lia.
    pose proof (consistent_remaining s Hs) as Hrem.
    by replace (mNbPairs s) with 0 in Hrem by lia.
Qed.

End Destruction.

Lemma destructor_detaches_every_pair_witness :
  2 < 2 ^ 32
  ∧ reachable demo_isConvex demo_pairNumbers 2 demo_state
  ∧ mNbPairs demo_state < 2 ^ 32
  ∧ ∃ s', destructor demo_state = Some s'
          ∧ mMapPairIdToPairIndex s' = ∅
          ∧ ∀ e, getOverlappingPairs s' e = [].
Proof.
  assert (HI : 2 < 2 ^ 32) by done.
  assert (Hn : mNbPairs demo_state < 2 ^ 32) by (by vm_compute).
  split_and!; [done | apply demo_reachable | done |].
  exact (destructor_detaches_every_pair demo_isConvex demo_pairNumbers 2 demo_state
           HI demo_reachable Hn).
Defined.

(** ** Where [addPair] places the pair *)

Lemma prepareAddPair_placement s convex index s1 :
  consistent s → prepareAddPair convex s = Some (index, s1) →
  ∀ k j, mMapPairIdToPairIndex s !! k = Some j →
    mMapPairIdToPairIndex s1 !! k
    = Some (if convex && (j =? mConcavePairsStartIndex s) then mNbPairs s else j).
Proof.
  intros Hs Hprep k j Hk. unfold prepareAddPair in Hprep.
  pose proof (wf_layout _ _ s Hs) as Hl.
  destruct (consistent_registered s k j Hs Hk) as (Hj & q & Hq & Hqk).
  destruct (if mNbPairs s =? mNbAllocatedPairs s then _ else _) as [s0|] eqn:Hs0 in Hprep;
    [|done].
  assert (layout (mNbPairs s) None (mBuffer s0) (mMapPairIdToPairIndex s0)
          ∧ mMapPairIdToPairIndex s0 = mMapPairIdToPairIndex s
          ∧ mNbPairs s0 = mNbPairs s
          ∧ mConcavePairsStartIndex s0 = mConcavePairsStartIndex s)
    as (Hl0 & Hm0 & Hn0 & Hcs0).
  { destruct (mNbPairs s =? mNbAllocatedPairs s).
    - destruct (allocate_contents s _ s0 Hl Hs0) as (? & _ & ? & ? & _).
      unfold allocate in Hs0.
      destruct (_ <? _) in Hs0; [done|]. destruct (_ <? _) in Hs0; [done|].
      by injection Hs0 as <-.
    - injection Hs0 as <-. done. }
  simpl in Hprep. rewrite Hn0, Hcs0 in Hprep.
  destruct convex; simpl in Hprep |- *.
  - destruct (N.eqb_spec (mConcavePairsStartIndex s) (mNbPairs s)) as [Hall|Hsome];
      simpl in Hprep.
    + injection Hprep as <- <-. simpl. rewrite Hm0, Hk.
      destruct (N.eqb_spec j (mConcavePairsStartIndex s)); [lia | done].
    + destruct (movePairToIndex _ _ s0) as [s2|] eqn:Hmove; [|done]. simpl in Hprep.
      injection Hprep as <- <-. simpl.
      apply movePairToIndex_inv in Hmove as (p & Hp & _ & ->). simpl. rewrite Hm0.
      pose proof (wf_boundary _ _ s Hs) as Hb.
      destruct (layout_live _ _ _ _ Hl0 (mConcavePairsStartIndex s)) as (p' & Hp' & Hmp);
        [lia | done |].
      assert (p' = p) as -> by congruence. rewrite Hm0 in Hmp.
      destruct (N.eqb_spec j (mConcavePairsStartIndex s)) as [->|Hne].
      * destruct (layout_index _ _ _ _ Hl0 k (mConcavePairsStartIndex s)) as (_ & _ & p'' & Hp'' & <-);
          [by rewrite Hm0|].
        assert (p'' = p) as -> by congruence. by rewrite lookup_insert_eq.
      * assert (k ≠ pairId p) by (intros ->; congruence).
        by rewrite lookup_insert_ne, lookup_delete_ne.
  - injection Hprep as <- <-. by rewrite Hm0.
Qed.

Section Placement.

Context (isConvex : Entity → bool) (pairNumbers : uint32 → uint32 → uint64).

(** X19. On a consistent registry, a completed [addPair] places a
    convex-vs-convex pair in the slot at the old concave start and any other
    pair in the slot at the old pair count, and it moves at most one pair to
    make room: the pair that held the slot at the concave start, if the new
    pair is convex-vs-convex, is found in the slot at the old pair count
    afterwards; every other registered pair keeps its slot. *)
Theorem addPair_placement
    (s : state) (shape1 shape2 : ProxyShape) (isActive : bool) (k : uint64) (s' : state) :
  consistent s →
  addPair isConvex pairNumbers shape1 shape2 isActive s = Some (k, s') →
  let convex := isConvex (getEntity shape1) && isConvex (getEntity shape2) in
  mMapPairIdToPairIndex s' !! k
  = Some (if convex then mConcavePairsStartIndex s else mNbPairs s)
  ∧ ∀ k' j, mMapPairIdToPairIndex s !! k' = Some j →
      mMapPairIdToPairIndex s' !! k'
      = Some (if convex && (j =? mConcavePairsStartIndex s) then mNbPairs s else j).
Proof.
  intros Hs Hadd convex.
  destruct (addPair_wf isConvex pairNumbers false s shape1 shape2 isActive k s'
              (consistent_wf isConvex s Hs) Hadd) as (_ & Hkid & Habsent & _ & _ & Hslot).
  split; [done|].
  intros k' j Hk'.
  unfold addPair in Hadd. fold convex in Hadd.
  destruct (prepareAddPair convex s) as [[index s1]|] eqn:Hprep; [|done]. simpl in Hadd.
  pose proof (prepareAddPair_placement s convex index s1 Hs Hprep k' j Hk') as Hplace.
  destruct (array_set _ _ _) as [b|]; [|done]. simpl in Hadd.
  destruct (Map_add _ _ _) as [m|] eqn:Hmap; [|done]. simpl in Hadd.
  injection Hadd as <- <-. simpl.
  unfold Map_add in Hmap. simpl in Hmap.
  destruct (mMapPairIdToPairIndex s1 !! _) in Hmap; [done|]. injection Hmap as <-.
  rewrite lookup_insert_ne; [done|]. intros Heq. congruence.
Qed.

(** X20. Whenever the pairing function of the header gives different
    results for different ordered pairs of numbers (larger first), the
    identity [addPair] derives from two broad-phase ids determines the two
    ids up to their order: two couples of 32-bit ids get the same identity
    only if they are the same two ids. *)
Theorem computePairId_injective (a b c d : int32) :
  (∀ x y x' y', y ≤ x → y' ≤ x' → pairNumbers x y = pairNumbers x' y' → x = x' ∧ y = y') →
  (- 2 ^ 31 ≤ a < 2 ^ 31)%Z → (- 2 ^ 31 ≤ b < 2 ^ 31)%Z →
  (- 2 ^ 31 ≤ c < 2 ^ 31)%Z → (- 2 ^ 31 ≤ d < 2 ^ 31)%Z →
  computePairId pairNumbers a b = computePairId pairNumbers c d →
  (a = c ∧ b = d) ∨ (a = d ∧ b = c).
Proof.
  intros Hinj Ha Hb Hc Hd Heq. unfold computePairId in Heq.
  apply Hinj in Heq as [Hmax Hmin]; [|lia..].
  assert (Hcast : ∀ x y : int32,
            (- 2 ^ 31 ≤ x < 2 ^ 31)%Z → (- 2 ^ 31 ≤ y < 2 ^ 31)%Z →
            uint32_of_int32 x = uint32_of_int32 y → x = y).
  { intros x y Hx Hy Hxy. unfold uint32_of_int32 in Hxy.
    apply Z2N.inj in Hxy; [|apply Z.mod_pos_bound; lia..].
    destruct (Z.neg_nonneg_cases x) as [Hxneg|Hxpos], (Z.neg_nonneg_cases y) as [Hyneg|Hypos].
    - replace x with ((x + 2 ^ 32) + (-1) * 2 ^ 32)%Z in Hxy by lia.
      replace y with ((y + 2 ^ 32) + (-1) * 2 ^ 32)%Z in Hxy by lia.
      rewrite !Z.mod_add, !Z.mod_small in Hxy by lia. lia.
    - replace x with ((x + 2 ^ 32) + (-1) * 2 ^ 32)%Z in Hxy by lia.
      rewrite !Z.mod_add, !Z.mod_small in Hxy by lia. lia.
    - replace y with ((y + 2 ^ 32) + (-1) * 2 ^ 32)%Z in Hxy by lia.
      rewrite !Z.mod_add, !Z.mod_small in Hxy by lia. lia.
    - rewrite !Z.mod_small in Hxy by lia. done. }
  destruct (N.max_spec (uint32_of_int32 a) (uint32_of_int32 b)) as [[? Hab]|[? Hab]],
           (N.max_spec (uint32_of_int32 c) (uint32_of_int32 d)) as [[? Hcd]|[? Hcd]],
           (N.min_spec (uint32_of_int32 a) (uint32_of_int32 b)) as [[? Hab']|[? Hab']],
           (N.min_spec (uint32_of_int32 c) (uint32_of_int32 d)) as [[? Hcd']|[? Hcd']];
    rewrite Hab, Hcd in Hmax; rewrite Hab', Hcd' in Hmin;
    try lia;
    try (left; split; apply Hcast; (done || congruence));
    try (right; split; apply Hcast; (done || congruence)).
Qed.

End Placement.

Lemma addPair_placement_witness :
  consistent demo_s2
  ∧ addPair demo_isConvex demo_pairNumbers (demo_shape 3 3) (demo_shape 4 4) true demo_s2
    = Some (23, demo_s3)
  ∧ mMapPairIdToPairIndex demo_s3 !! 23
    = Some (if demo_isConvex (getEntity (demo_shape 3 3))
               && demo_isConvex (getEntity (demo_shape 4 4))
            then mConcavePairsStartIndex demo_s2 else mNbPairs demo_s2)
  ∧ ∀ k' j, mMapPairIdToPairIndex demo_s2 !! k' = Some j →
      mMapPairIdToPairIndex demo_s3 !! k'
      = Some (if demo_isConvex (getEntity (demo_shape 3 3))
                 && demo_isConvex (getEntity (demo_shape 4 4))
                 && (j =? mConcavePairsStartIndex demo_s2)
              then mNbPairs demo_s2 else j).
Proof.
  assert (Hadd : addPair demo_isConvex demo_pairNumbers (demo_shape 3 3) (demo_shape 4 4) true
                   demo_s2 = Some (23, demo_s3)) by (by vm_compute).
  split_and!; [apply demo_consistent_s2 | done | ..];
    apply (addPair_placement demo_isConvex demo_pairNumbers
             demo_s2 (demo_shape 3 3) (demo_shape 4 4) true 23 demo_s3
             demo_consistent_s2 Hadd).
Defined.

Lemma demo_pairNumbers_injective (x y x' y' : N) :
  y ≤ x → y' ≤ x' → demo_pairNumbers x y = demo_pairNumbers x' y' → x = x' ∧ y = y'.
Proof.
  unfold demo_pairNumbers. intros Hy Hy' Heq.
  assert (x = x') as -> by nia. split; [done | lia].
Qed.

Lemma computePairId_injective_witness :
  (∀ x y x' y', y ≤ x → y' ≤ x' →
     demo_pairNumbers x y = demo_pairNumbers x' y' → x = x' ∧ y = y')
  ∧ (- 2 ^ 31 ≤ 3 < 2 ^ 31)%Z ∧ (- 2 ^ 31 ≤ -1 < 2 ^ 31)%Z
  ∧ (- 2 ^ 31 ≤ -1 < 2 ^ 31)%Z ∧ (- 2 ^ 31 ≤ 3 < 2 ^ 31)%Z
  ∧ computePairId demo_pairNumbers 3 (-1) = computePairId demo_pairNumbers (-1) 3
  ∧ ((3 = -1 ∧ -1 = 3) ∨ (3 = 3 ∧ -1 = -1))%Z.
Proof.
  assert (H3 : (- 2 ^ 31 ≤ 3 < 2 ^ 31)%Z) by lia.
  assert (H1 : (- 2 ^ 31 ≤ -1 < 2 ^ 31)%Z) by lia.
  assert (Heq : computePairId demo_pairNumbers 3 (-1) = computePairId demo_pairNumbers (-1) 3)
    by (by vm_compute).
  split_and!; [exact demo_pairNumbers_injective | done..|].
  exact (computePairId_injective demo_pairNumbers 3 (-1) (-1) 3
           demo_pairNumbers_injective H3 H1 H1 H3 Heq).
Defined.

(** ** [swapPairs], twice *)

Lemma consistent_lookup_eq s s' :
  consistent s → consistent s' → mNbPairs s' = mNbPairs s →
  (∀ j, j < mNbPairs s → array_get (mBuffer s') j = array_get (mBuffer s) j) →
  mMapPairIdToPairIndex s' = mMapPairIdToPairIndex s.
Proof.
  intros Hs Hs' Hn Hslots.
  pose proof (wf_layout _ _ s Hs) as Hl. pose proof (wf_layout _ _ s' Hs') as Hl'.
  assert (Hsub : ∀ t t', layout (mNbPairs s) None (mBuffer t) (mMapPairIdToPairIndex t) →
            layout (mNbPairs s) None (mBuffer t') (mMapPairIdToPairIndex t') →
            (∀ j, j < mNbPairs s → array_get (mBuffer t') j = array_get (mBuffer t) j) →
            ∀ k j, mMapPairIdToPairIndex t !! k = Some j → mMapPairIdToPairIndex t' !! k = Some j).
  { intros t t' Ht Ht' Heq k j Hk.
    destruct (layout_index _ _ _ _ Ht k j Hk) as (Hj & _ & p & Hp & <-).
    destruct (layout_live _ _ _ _ Ht' j Hj) as (p' & Hp' & Hm); [done|].
    rewrite Heq, Hp in Hp' by done. by injection Hp' as <-. }
  rewrite Hn in Hl'.
  apply map_eq. intros k.
  destruct (mMapPairIdToPairIndex s !! k) as [j|] eqn:Hk.
  - by apply (Hsub s s').
  - destruct (mMapPairIdToPairIndex s' !! k) as [j|] eqn:Hk'; [|done].
    rewrite (Hsub s' s Hl' Hl) with (j := j) in Hk; [done | | done].
    intros i Hi. symmetry. by apply Hslots.
Qed.

(** X21. On a consistent registry, swapping two different slots below the
    pair count twice in a row gives back the registry as it was: both calls
    of [swapPairs] complete and the state after the second is the state
    before the first. *)
Theorem swapPairs_twice (s : state) (index1 index2 : uint64) :
  consistent s →
  index1 < mNbPairs s → index2 < mNbPairs s → index1 ≠ index2 →
  ∃ s', swapPairs index1 index2 s = Some s'
        ∧ swapPairs index1 index2 s' = Some s.
Proof.
  intros Hs H1 H2 Hne.
  destruct (swapPairs_contents s index1 index2 Hs H1 H2 Hne)
    as (s' & Hswap & Hslot1 & Hslot2 & Hslots & _ & Hn & Hcs & Hcap & Hovl & Hlen).
  pose proof (swapPairs_consistent s index1 index2 s' Hs H1 H2 Hswap) as Hs'.
  destruct (swapPairs_contents s' index1 index2 Hs') as
    (s'' & Hswap' & Hslot1' & Hslot2' & Hslots' & _ & Hn' & Hcs' & Hcap' & Hovl' & Hlen');
    [lia | lia | done |].
  pose proof (swapPairs_consistent s' index1 index2 s'' Hs') as Hs''.
  exists s'. split; [done|]. rewrite Hswap'. f_equal.
  assert (Hall : ∀ j, array_get (mBuffer s'') j = array_get (mBuffer s) j).
  { intros j. destruct (decide (j = index1)) as [->|Hj1]; [congruence|].
    destruct (decide (j = index2)) as [->|Hj2]; [congruence|].
    by rewrite Hslots', Hslots. }
  assert (Hm : mMapPairIdToPairIndex s'' = mMapPairIdToPairIndex s).
  { apply consistent_lookup_eq; [done | apply Hs''; (lia || done) | lia | done]. }
  assert (Hb : mBuffer s'' = mBuffer s).
  { apply list_eq. intros j. specialize (Hall (N.of_nat j)).
    unfold array_get in Hall. by rewrite Nat2N.id in Hall. }
  destruct s, s''. simpl in *. congruence.
Qed.

Lemma swapPairs_twice_witness :
  consistent demo_s3
  ∧ 0 < mNbPairs demo_s3 ∧ 2 < mNbPairs demo_s3 ∧ 0 ≠ 2
  ∧ ∃ s', swapPairs 0 2 demo_s3 = Some s' ∧ swapPairs 0 2 s' = Some demo_s3.
Proof.
  assert (H0 : 0 < mNbPairs demo_s3) by (by vm_compute).
  assert (H2 : 2 < mNbPairs demo_s3) by (by vm_compute).
  assert (Hne : 0 ≠ 2) by done.
  split_and!; [apply demo_consistent_s3 | done | done | done |].
  exact (swapPairs_twice demo_s3 0 2 demo_consistent_s3 H0 H2 Hne).
Defined.

(** ** Reallocation *)

(** X24. On a consistent registry, [allocate] with a capacity that is at
    least the pair count and fits 64 bits completes and carries every pair
    over: the new buffer has the requested number of slots, the slots below
    the pair count hold the data they held, cache included, the counts, the
    lookup and the lists of the shapes are unchanged, and the registry stays
    consistent and, if it was, partitioned. *)
Theorem allocate_keeps_pairs (s : state) (nbPairsToAllocate : uint64) :
  consistent s →
  mNbPairs s ≤ nbPairsToAllocate → nbPairsToAllocate < 2 ^ 64 →
  ∃ s', allocate nbPairsToAllocate s = Some s'
        ∧ mNbAllocatedPairs s' = nbPairsToAllocate
        ∧ length (mBuffer s') = N.to_nat nbPairsToAllocate
        ∧ (∀ j, j < mNbPairs s → array_get (mBuffer s') j = array_get (mBuffer s) j)
        ∧ (∀ k, getPair s' k = getPair s k)
        ∧ mNbPairs s' = mNbPairs s
        ∧ mConcavePairsStartIndex s' = mConcavePairsStartIndex s
        ∧ mMapPairIdToPairIndex s' = mMapPairIdToPairIndex s
        ∧ mOverlappingPairsOfShape s' = mOverlappingPairsOfShape s
        ∧ consistent s'
        ∧ ∀ isConvex, partitioned isConvex s → partitioned isConvex s'.
Proof.
  intros Hs Hn H64.
  pose proof (wf_layout _ _ s Hs) as Hl.
  pose proof (layout_fit _ _ _ _ Hl) as Hfit.
  assert (∃ s', allocate nbPairsToAllocate s = Some s') as [s' Halloc].
  { unfold allocate.
    destruct (N.ltb_spec nbPairsToAllocate (mNbPairs s)); [lia|].
    destruct (N.ltb_spec (N.of_nat (length (mBuffer s))) (mNbPairs s)); [lia|].
    by eexists. }
  destruct (allocate_contents s _ s' Hl Halloc) as (_ & Hget & Hn' & Hcs' & Hovl' & Hcap' & Hlen').
  destruct (allocate_wf (λ _, true) false s _ s' Hs H64 Halloc) as (Hs' & _ & _ & Hm' & _).
  assert (Hslots : ∀ j, j < mNbPairs s → array_get (mBuffer s') j = array_get (mBuffer s) j).
  { intros j Hj. unfold allocate in Halloc.
    destruct (_ <? _) in Halloc; [done|]. destruct (_ <? _) in Halloc; [done|].
    injection Halloc as <-. simpl. unfold array_get.
    rewrite lookup_app_l by (rewrite length_take; lia).
    apply lookup_take_lt. lia. }
  exists s'. split_and!; [done..|].
  intros isConvex [Hb Hpart]. split; [by rewrite Hn', Hcs'|].
  rewrite Hn', Hcs'. intros i Hi. destruct (Hpart i Hi) as [(p & Hp & Hmp) Hkind].
  split.
  - exists p. by rewrite Hslots, Hm'.
  - intros q Hq. rewrite Hslots in Hq by done. by apply Hkind.
Qed.

Lemma allocate_keeps_pairs_witness :
  consistent demo_s3
  ∧ mNbPairs demo_s3 ≤ 5 ∧ 5 < 2 ^ 64
  ∧ ∃ s', allocate 5 demo_s3 = Some s'
          ∧ mNbAllocatedPairs s' = 5
          ∧ length (mBuffer s') = N.to_nat 5
          ∧ (∀ j, j < mNbPairs demo_s3 → array_get (mBuffer s') j = array_get (mBuffer demo_s3) j)
          ∧ (∀ k, getPair s' k = getPair demo_s3 k)
          ∧ mNbPairs s' = mNbPairs demo_s3
          ∧ mConcavePairsStartIndex s' = mConcavePairsStartIndex demo_s3
          ∧ mMapPairIdToPairIndex s' = mMapPairIdToPairIndex demo_s3
          ∧ mOverlappingPairsOfShape s' = mOverlappingPairsOfShape demo_s3
          ∧ consistent s'
          ∧ ∀ isConvex, partitioned isConvex demo_s3 → partitioned isConvex s'.
Proof.
  assert (Hn : mNbPairs demo_s3 ≤ 5) by (by vm_compute).
  assert (H64 : 5 < 2 ^ 64) by done.
  split_and!; [apply demo_consistent_s3 | done | done |].
  exact (allocate_keeps_pairs demo_s3 5 demo_consistent_s3 Hn H64).
Defined.

End RegistryProperties.

Module BroadPhaseProperties.

Import BroadPhaseSystem.

Section Claims.

Context (env : Environment).

Local Abbreviation state := (state env).
Local Abbreviation Call := (Call env).

Lemma bind_run {A B} (m : M env A) (k : A → M env B) (s : state) :
  (m ≫= k) s
  = let '(x, s1, calls1) := m s in
    let '(y, s2, calls2) := k x s1 in
    (y, s2, calls1 ++ calls2).
Proof. reflexivity. Qed.

Lemma forEach_cons {A} (x : A) (l : list A) (body : A → M env ()) (s : state) :
  forEach env (x :: l) body s
  = let '(_, s1, calls1) := body x s in
    let '(y, s2, calls2) := forEach env l body s1 in
    (y, s2, calls1 ++ calls2).
Proof. reflexivity. Qed.

(** Runs the primitive computations of a goal. *)
Local Ltac run_M :=
  unfold mbind, M_bind, bind, ret, getFatAABB, reportAllShapesOverlappingWithAABB,
    getNodeDataPointer, updateObject, broadPhaseNotifyOverlappingPair,
    addMovedCollisionShape, getMovedShapes, clearMovedShapes;
  cbv beta iota zeta.

(** ** [computeOverlappingPairs] *)

Lemma overlapQueries_app (calls1 calls2 : list Call) :
  overlapQueries env (calls1 ++ calls2)
  = overlapQueries env calls1 ++ overlapQueries env calls2.
Proof. apply omap_app. Qed.

Lemma notifiedPairs_app (calls1 calls2 : list Call) :
  notifiedPairs env (calls1 ++ calls2)
  = notifiedPairs env calls1 ++ notifiedPairs env calls2.
Proof. apply omap_app. Qed.

Lemma treeUpdates_app (calls1 calls2 : list Call) :
  treeUpdates env (calls1 ++ calls2)
  = treeUpdates env calls1 ++ treeUpdates env calls2.
Proof. apply omap_app. Qed.

(** The candidate [node] of the reference node, when it is to be notified. *)
Definition candidate (tree : DynamicAABBTree env) (referenceNodeId node : int32)
    : option (ProxyShape * ProxyShape) :=
  let shape1 := tree_getNodeDataPointer env tree referenceNodeId in
  let shape2 := tree_getNodeDataPointer env tree node in
  if bool_decide (node ≠ referenceNodeId ∧ getBodyId shape1 ≠ getBodyId shape2)
  then Some (shape1, shape2) else None.

Lemma addOverlappingNodes_spec (referenceNodeId : int32) (nodes : list int32) (s : state) :
  ∃ calls,
    addOverlappingNodes env referenceNodeId nodes s = (tt, s, calls)
    ∧ overlapQueries env calls = []
    ∧ notifiedPairs env calls = omap (candidate (mDynamicAABBTree s) referenceNodeId) nodes.
Proof.
  unfold addOverlappingNodes.
  set (body := λ node : int32, _).
  induction nodes as [|node nodes (calls & Hrun & Hq & Hn)].
  - by exists [].
  - assert (∃ c, body node s = (tt, s, c)
                 ∧ overlapQueries env c = []
                 ∧ notifiedPairs env c
                   = option_list (candidate (mDynamicAABBTree s) referenceNodeId node))
      as (c & Hbody & Hqc & Hnc).
    { unfold body, candidate.
      destruct (decide (referenceNodeId = node)) as [<-|Hne].
      - rewrite !bool_decide_eq_false_2 by tauto. by exists [].
      - rewrite (bool_decide_eq_true_2 (referenceNodeId ≠ node)) by done.
        run_M.
        destruct (decide (getBodyId (tree_getNodeDataPointer env (mDynamicAABBTree s) referenceNodeId)
                          = getBodyId (tree_getNodeDataPointer env (mDynamicAABBTree s) node)))
          as [Heq|Hbody].
        + rewrite !bool_decide_eq_false_2 by tauto.
          eexists. split; [reflexivity|]. by split.
        + rewrite !bool_decide_eq_true_2 by (try split; congruence).
          eexists. split; [reflexivity|]. by split. }
    rewrite forEach_cons, Hbody. cbv beta iota zeta. rewrite Hrun.
    exists (c ++ calls). split_and!; [done | |].
    + by rewrite overlapQueries_app, Hqc, Hq.
    + rewrite notifiedPairs_app, Hnc, Hn. simpl.
      by destruct (candidate _ _ node).
Qed.

Lemma movedShapesLoop_spec (shapes : list int32) (s : state) :
  let tree := mDynamicAABBTree s in
  let tracked := filter (λ shapeID, shapeID ≠ (-1)%Z) shapes in
  ∃ calls,
    forEach env shapes
      (λ shapeID,
         if bool_decide (shapeID = (-1)%Z) then ret env ()
         else
           shapeAABB ← getFatAABB env shapeID;
           overlappingNodes ← reportAllShapesOverlappingWithAABB env shapeAABB;
           addOverlappingNodes env shapeID overlappingNodes) s
    = (tt, s, calls)
    ∧ overlapQueries env calls = map (tree_getFatAABB env tree) tracked
    ∧ notifiedPairs env calls = flat_map (candidatePairs env tree) tracked.
Proof.
  intros tree tracked. subst tracked.
  set (body := λ shapeID : int32, _).
  induction shapes as [|shapeID shapes (calls & Hrun & Hq & Hn)].
  - by exists [].
  - assert (∃ c, body shapeID s = (tt, s, c)
                 ∧ overlapQueries env c
                   = (if bool_decide (shapeID = (-1)%Z) then []
                      else [tree_getFatAABB env tree shapeID])
                 ∧ notifiedPairs env c
                   = (if bool_decide (shapeID = (-1)%Z) then []
                      else candidatePairs env tree shapeID))
      as (c & Hbody & Hqc & Hnc).
    { unfold body. case_bool_decide as Hid.
      - by exists [].
      - destruct (addOverlappingNodes_spec shapeID
                    (tree_reportAllShapesOverlappingWithAABB env tree
                       (tree_getFatAABB env tree shapeID)) s)
          as (c & Hc & Hqc & Hnc).
        run_M. fold tree. rewrite Hc.
        eexists. split; [reflexivity|]. split.
        + rewrite !overlapQueries_app, Hqc. reflexivity.
        + rewrite !notifiedPairs_app, Hnc. reflexivity. }
    rewrite forEach_cons, Hbody. cbv beta iota zeta. rewrite Hrun.
    exists (c ++ calls). split; [done|].
    rewrite overlapQueries_app, notifiedPairs_app, Hqc, Hnc, Hq, Hn.
    rewrite filter_cons. case_bool_decide as Hid.
    + rewrite decide_False by tauto. done.
    + rewrite decide_True by done. done.
Qed.

(** C8. Whatever the moved set holds, [computeOverlappingPairs] asks the
    tree one overlap query per moved shape, for that shape's fat bound (the
    moved shapes are the entries of the moved set, each once; an entry [-1],
    the id of no node, names no shape and is passed over); it notifies
    exactly the reported candidates that are neither the reference node
    itself nor a shape of the reference shape's body; and it returns with the
    moved set empty. *)
Theorem computeOverlappingPairs_spec (s : state) :
  let tree := mDynamicAABBTree s in
  NoDup (movedShapeIds env s)
  ∧ (∀ shapeID, shapeID ∈ movedShapeIds env s
                ↔ shapeID ∈ mMovedShapes s ∧ shapeID ≠ (-1)%Z)
  ∧ ((-1)%Z ∉ mMovedShapes s → movedShapeIds env s = elements (mMovedShapes s))
  ∧ ∃ calls s',
      computeOverlappingPairs env s = (tt, s', calls)
      ∧ overlapQueries env calls = map (tree_getFatAABB env tree) (movedShapeIds env s)
      ∧ notifiedPairs env calls = flat_map (candidatePairs env tree) (movedShapeIds env s)
      ∧ mMovedShapes s' = ∅
      ∧ mDynamicAABBTree s' = tree.
Proof.
  intros tree. split_and!.
  - apply NoDup_filter, NoDup_elements.
  - intros shapeID. unfold movedShapeIds.
    rewrite list_elem_of_filter, elem_of_elements. tauto.
  - intros Hnone. unfold movedShapeIds.
    assert (Hall : Forall (λ shapeID, shapeID ≠ (-1)%Z) (elements (mMovedShapes s))).
    { apply Forall_forall. intros shapeID Hin%elem_of_elements. congruence. }
    induction Hall as [|shapeID l Hne _ IH]; [done|].
    by rewrite filter_cons_True, IH by done.
  - destruct (movedShapesLoop_spec (elements (mMovedShapes s)) s)
      as (calls & Hrun & Hq & Hn).
    unfold computeOverlappingPairs.
    rewrite bind_run. unfold getMovedShapes at 1. cbv beta iota zeta.
    rewrite bind_run, Hrun. unfold clearMovedShapes. cbv beta iota zeta.
    eexists _, _. split; [reflexivity|].
    rewrite overlapQueries_app, notifiedPairs_app, !app_nil_r.
    done.
Qed.

(** ** [testOverlappingShapes] *)

(** C10. When either shape is untracked (its broad-phase id is [-1]),
    [testOverlappingShapes] returns false and makes no call to the tree. *)
Theorem testOverlappingShapes_untracked (shape1 shape2 : ProxyShape) (s : state) :
  getBroadPhaseId shape1 = (-1)%Z ∨ getBroadPhaseId shape2 = (-1)%Z →
  testOverlappingShapes env shape1 shape2 s = (false, s, []).
Proof.
  intros Huntracked. unfold testOverlappingShapes.
  assert (bool_decide (getBroadPhaseId shape1 = (-1)%Z)
          || bool_decide (getBroadPhaseId shape2 = (-1)%Z) = true) as ->; [|done].
  apply orb_true_iff. rewrite !bool_decide_eq_true. done.
Qed.

(** Two tracked shapes are compared through their fat bounds. *)
Lemma testOverlappingShapes_tracked (shape1 shape2 : ProxyShape) (s : state) :
  getBroadPhaseId shape1 ≠ (-1)%Z → getBroadPhaseId shape2 ≠ (-1)%Z →
  testOverlappingShapes env shape1 shape2 s
  = (testCollision env
       (tree_getFatAABB env (mDynamicAABBTree s) (getBroadPhaseId shape1))
       (tree_getFatAABB env (mDynamicAABBTree s) (getBroadPhaseId shape2)),
     s,
     [CallGetFatAABB (getBroadPhaseId shape1); CallGetFatAABB (getBroadPhaseId shape2)]).
Proof.
  intros H1 H2. unfold testOverlappingShapes.
  rewrite !bool_decide_eq_false_2 by done. reflexivity.
Qed.

(** ** [updateProxyShapesComponents] *)

Section Update.

Context (components : Components env).

(** The bound recomputed for a component. *)
Definition worldAABB (c : ProxyShapeComponent env) : AABB env :=
  computeAABB env (mCollisionShape c)
    (Transform_mul env (getTransform components (mBodyEntity c)) (mLocalToBodyTransform c)).

(** The update the loop asks of the tree for a tracked component, given what
    the tree answers. *)
Definition expectedUpdate (c : ProxyShapeComponent env) (hasBeenReInserted : bool)
    : int32 * AABB env * Vector3 env * bool :=
  (mBroadPhaseId c, worldAABB c, stepDisplacement env components (mBodyEntity c),
   hasBeenReInserted).

Lemma updateLoop_spec (l : list (ProxyShapeComponent env)) (s : state) :
  let timeStep := default (decimal_zero env) (dynamicsWorldTimeStep components) in
  ∃ calls s',
    forEach env l (updateProxyShapeComponent env components timeStep) s = (tt, s', calls)
    ∧ Forall2 (λ c update, ∃ r, update = expectedUpdate c r)
              (filter (λ c, mBroadPhaseId c ≠ (-1)%Z) l) (treeUpdates env calls)
    ∧ ∀ shapeID, shapeID ∈ mMovedShapes s'
        ↔ shapeID ∈ mMovedShapes s
          ∨ ∃ aabb displacement, (shapeID, aabb, displacement, true) ∈ treeUpdates env calls.
Proof.
  intros timeStep. revert s.
  induction l as [|c l IH]; intros s.
  - exists [], s. split_and!; [done | constructor |].
    intros shapeID. split; [by left|]. intros [?|(? & ? & Hin)]; [done|].
    by apply elem_of_nil in Hin.
  - rewrite forEach_cons, filter_cons.
    unfold updateProxyShapeComponent at 1.
    destruct (decide (mBroadPhaseId c ≠ (-1)%Z)) as [Htracked|Huntracked].
    + rewrite bool_decide_eq_true_2 by done.
      unfold updateProxyShapeInternal. run_M.
      fold (worldAABB c). fold timeStep.
      change (if hasDynamicsComponent components (mBodyEntity c)
              then Vector3_scale env timeStep (getLinearVelocity components (mBodyEntity c))
              else Vector3_zero env)
        with (stepDisplacement env components (mBodyEntity c)).
      destruct (tree_updateObject env (mDynamicAABBTree s) (mBroadPhaseId c) (worldAABB c)
                  (stepDisplacement env components (mBodyEntity c)))
        as [tree' r] eqn:Hupdate.
      destruct r; cbv beta iota zeta.
      * destruct (IH (mkState tree' ({[mBroadPhaseId c]} ∪ mMovedShapes s)))
          as (calls & s' & Hrun & Hcalls & Hmoved).
        simpl. rewrite Hrun.
        eexists _, s'. split; [reflexivity|].
        change (treeUpdates env (?u :: calls)) with (treeUpdates env [u] ++ treeUpdates env calls).
        simpl. split.
        -- constructor; [by exists true | done].
        -- intros shapeID. rewrite Hmoved. simpl.
           rewrite elem_of_union, elem_of_singleton.
           split.
           ++ intros [[->|?]|(a & d & Hin)].
              ** right. exists (worldAABB c), (stepDisplacement env components (mBodyEntity c)).
                 apply elem_of_cons. by left.
              ** by left.
              ** right. exists a, d. apply elem_of_cons. by right.
           ++ intros [?|(a & d & Hin)]; [by left; right|].
              apply elem_of_cons in Hin as [Heq|Hin].
              ** left; left. congruence.
              ** right. by exists a, d.
      * destruct (IH (mkState tree' (mMovedShapes s)))
          as (calls & s' & Hrun & Hcalls & Hmoved).
        simpl. rewrite Hrun.
        eexists _, s'. split; [reflexivity|].
        change (treeUpdates env (?u :: calls)) with (treeUpdates env [u] ++ treeUpdates env calls).
        simpl. split.
        -- constructor; [by exists false | done].
        -- intros shapeID. rewrite Hmoved. simpl.
           split.
           ++ intros [?|(a & d & Hin)]; [by left|].
              right. exists a, d. apply elem_of_cons. by right.
           ++ intros [?|(a & d & Hin)]; [by left|].
              apply elem_of_cons in Hin as [Heq|Hin]; [congruence|].
              right. by exists a, d.
    + rewrite bool_decide_eq_false_2 by done. cbv beta iota zeta.
      destruct (IH s) as (calls & s' & Hrun & Hcalls & Hmoved).
      unfold ret at 1. cbv beta iota zeta. rewrite Hrun.
      exists calls, s'. done.
Qed.

(** C9. An update refreshes the tracked components of its range in order:
    for each it asks the tree to update the node with the recomputed bound
    and with the step displacement, that is the time step times the linear
    velocity of the body when the body has a dynamics component and zero
    otherwise; and a shape is in the moved set afterwards exactly when it was
    there before or one of these updates reported that the shape had been
    reinserted. *)
Theorem updateProxyShapesComponents_spec (startIndex endIndex : uint32) (s : state) :
  ∃ calls s',
    updateProxyShapesComponents env components startIndex endIndex s = (tt, s', calls)
    ∧ Forall2 (λ c update, ∃ r, update = expectedUpdate c r)
              (refreshedComponents env components startIndex endIndex)
              (treeUpdates env calls)
    ∧ ∀ shapeID, shapeID ∈ mMovedShapes s'
        ↔ shapeID ∈ mMovedShapes s
          ∨ ∃ aabb displacement, (shapeID, aabb, displacement, true) ∈ treeUpdates env calls.
Proof.
  unfold updateProxyShapesComponents, refreshedComponents.
  destruct (updateLoop_spec
              (componentsInRange env components
                 (N.min startIndex (getNbEnabledComponents components))
                 (N.min endIndex (getNbEnabledComponents components))) s)
    as (calls & s' & Hrun & Hcalls & Hmoved).
  exists calls, s'. split; [|done].
  rewrite <-Hrun. by destruct (dynamicsWorldTimeStep components).
Qed.

End Update.

End Claims.

(** ** A worked example

    A one-dimensional world: a bound is an interval, a tree is the list of
    its leaves (payload and fat interval) and a node id is a position in
    that list. *)

Definition demo_overlap (a b : Z * Z) : bool :=
  (fst a <=? snd b)%Z && (fst b <=? snd a)%Z.

Definition demo_leaf (tree : list (ProxyShape * (Z * Z))) (nodeId : int32)
    : ProxyShape * (Z * Z) :=
  default (mkProxyShape 0 (-1) 0, (0, 0)%Z) (tree !! Z.to_nat nodeId).

Definition demo_report (tree : list (ProxyShape * (Z * Z))) (aabb : Z * Z) : list int32 :=
  omap (λ '(nodeId, leaf), if demo_overlap (snd leaf) aabb then Some (Z.of_nat nodeId) else None)
       (imap (λ i leaf, (i, leaf)) tree).

Definition demo_update (tree : list (ProxyShape * (Z * Z))) (nodeId : int32)
    (aabb : Z * Z) (displacement : Z) : list (ProxyShape * (Z * Z)) * bool :=
  let '(shape, fat) := demo_leaf tree nodeId in
  if (fst fat <=? fst aabb)%Z && (snd aabb <=? snd fat)%Z then (tree, false)
  else (<[Z.to_nat nodeId := (shape, (fst aabb - 1 + Z.min 0 displacement,
                                      snd aabb + 1 + Z.max 0 displacement)%Z)]> tree,
        true).

Definition demo_env : Environment :=
  mkEnvironment (Z * Z) Z Z Z Z (list (ProxyShape * (Z * Z)))
    (λ tree nodeId, snd (demo_leaf tree nodeId))
    demo_report
    (λ tree nodeId, fst (demo_leaf tree nodeId))
    demo_update
    demo_overlap
    0%Z 0%Z Z.mul Z.add
    (λ halfExtent position, (position - halfExtent, position + halfExtent)%Z).

(** Three leaves: shapes 0 and 1 overlap and belong to bodies 7 and 8;
    shape 2 belongs to body 7 as well and overlaps both. Shapes 0 and 2 have
    moved. *)
Definition demo_system : state demo_env :=
  mkState (env := demo_env)
    [(mkProxyShape 10 0 7, (0, 4)%Z); (mkProxyShape 11 1 8, (3, 6)%Z);
     (mkProxyShape 12 2 7, (2, 5)%Z)]
    {[0%Z; 2%Z]}.

Example demo_computeOverlappingPairs :
  let '(_, s', calls) := computeOverlappingPairs demo_env demo_system in
  overlapQueries demo_env calls = [(2, 5)%Z; (0, 4)%Z]
  ∧ notifiedPairs demo_env calls
    = [(mkProxyShape 12 2 7, mkProxyShape 11 1 8); (mkProxyShape 10 0 7, mkProxyShape 11 1 8)]
  ∧ mMovedShapes s' = ∅.
Proof. vm_compute. done. Qed.

(** Body 7 rests at position 2 and has no dynamics component; body 8 is at
    position 10 and moves with velocity 3; the time step is 2. The third
    component is not in the broad phase. *)
Definition demo_components : Components demo_env :=
  mkComponents demo_env
    [mkProxyShapeComponent demo_env 0 7 2%Z 0%Z;
     mkProxyShapeComponent demo_env 1 8 1%Z 0%Z;
     mkProxyShapeComponent demo_env (-1) 8 1%Z 5%Z]
    3
    (λ body, if body =? 7 then 2%Z else 10%Z)
    (λ body, body =? 8)
    (λ _, 3%Z)
    (Some 2%Z).

Example demo_updateProxyShapesComponents :
  let '(_, s', calls) :=
    updateProxyShapesComponents demo_env demo_components 0 3 demo_system in
  treeUpdates demo_env calls
  = [(0, (0, 4), 0, false); (1, (9, 11), 6, true)]%Z
  ∧ elements (mMovedShapes s') = [2; 1; 0]%Z
  ∧ tree_getFatAABB demo_env (mDynamicAABBTree s') 1 = (8, 18)%Z.
Proof. vm_compute. done. Qed.

Lemma testOverlappingShapes_untracked_witness :
  (getBroadPhaseId (mkProxyShape 13 (-1) 9) = (-1)%Z
   ∨ getBroadPhaseId (mkProxyShape 10 0 7) = (-1)%Z)
  ∧ testOverlappingShapes demo_env (mkProxyShape 13 (-1) 9) (mkProxyShape 10 0 7) demo_system
    = (false, demo_system, []).
Proof.
  split; [by left|].
  apply (testOverlappingShapes_untracked demo_env). by left.
Defined.

(** ** The other entry points, and how the operations compose *)

Section EntryPoints.

Context (env : Environment).

Local Abbreviation state := (state env).
Local Abbreviation Call := (Call env).

(** Runs the primitive computations of a goal. *)
Local Ltac run_calls :=
  unfold mbind, M_bind, bind, ret, getFatAABB, reportAllShapesOverlappingWithAABB,
    getNodeDataPointer, updateObject, broadPhaseNotifyOverlappingPair,
    addMovedCollisionShape, getMovedShapes, clearMovedShapes,
    addObject, removeObject, removeMovedCollisionShape;
  cbv beta iota zeta.

Lemma computeOverlappingPairs_run (s : state) :
  ∃ calls,
    computeOverlappingPairs env s = (tt, mkState (mDynamicAABBTree s) ∅, calls)
    ∧ overlapQueries env calls
      = map (tree_getFatAABB env (mDynamicAABBTree s)) (movedShapeIds env s)
    ∧ notifiedPairs env calls
      = flat_map (candidatePairs env (mDynamicAABBTree s)) (movedShapeIds env s)
    ∧ (mMovedShapes s = ∅ → calls = []).
Proof.
  destruct (movedShapesLoop_spec env (elements (mMovedShapes s)) s)
    as (calls & Hrun & Hq & Hn).
  unfold computeOverlappingPairs.
  rewrite bind_run. unfold getMovedShapes at 1. cbv beta iota zeta.
  rewrite bind_run, Hrun. unfold clearMovedShapes. cbv beta iota zeta.
  exists (calls ++ []). rewrite !app_nil_r. split_and!; [done..|].
  intros Hempty. rewrite Hempty, elements_empty in Hrun.
  simpl in Hrun. unfold ret in Hrun. by injection Hrun as <-.
Qed.

Lemma movedShapeIds_elem_of (s : state) (shapeID : int32) :
  shapeID ∈ movedShapeIds env s ↔ shapeID ∈ mMovedShapes s ∧ shapeID ≠ (-1)%Z.
Proof.
  unfold movedShapeIds. rewrite list_elem_of_filter, elem_of_elements. tauto.
Qed.

Lemma forEach_app {A} (l1 l2 : list A) (body : A → M env ()) (s : state) :
  forEach env (l1 ++ l2) body s
  = let '(_, s1, calls1) := forEach env l1 body s in
    let '(y, s2, calls2) := forEach env l2 body s1 in
    (y, s2, calls1 ++ calls2).
Proof.
  revert s. induction l1 as [|x l1 IH]; intros s.
  - simpl. unfold ret. by destruct (forEach env l2 body s) as [[[] s2] calls2].
  - rewrite <-app_comm_cons, !forEach_cons.
    destruct (body x s) as [[[] s1] calls1]. rewrite IH.
    destruct (forEach env l1 body s1) as [[[] s2] calls2].
    destruct (forEach env l2 body s2) as [[[] s3] calls3].
    by rewrite app_assoc.
Qed.

(** X10. [computeOverlappingPairs] consumes the moved set: run a second time
    with nothing in between, it makes no call at all, neither to the tree
    nor to the collision detection, and leaves the state as the first run
    left it. *)
Theorem computeOverlappingPairs_twice (s : state) :
  ∃ calls s1,
    computeOverlappingPairs env s = (tt, s1, calls)
    ∧ computeOverlappingPairs env s1 = (tt, s1, []).
Proof.
  destruct (computeOverlappingPairs_run s) as (calls & Hrun & _).
  eexists calls, _. split; [done|].
  destruct (computeOverlappingPairs_run (mkState (mDynamicAABBTree s) ∅))
    as (calls' & Hrun' & _ & _ & Hnone).
  rewrite Hrun'. by rewrite Hnone.
Qed.

Section Update.

Context (components : Components env).

Local Abbreviation tracked := (λ c : ProxyShapeComponent env, mBroadPhaseId c ≠ (-1)%Z).

Lemma updateProxyShapesComponents_run (startIndex endIndex : uint32) (s : state) :
  ∃ calls s',
    updateProxyShapesComponents env components startIndex endIndex s = (tt, s', calls)
    ∧ Forall2 (λ c update, ∃ r, update = expectedUpdate env components c r)
              (refreshedComponents env components startIndex endIndex)
              (treeUpdates env calls)
    ∧ ∀ shapeID, shapeID ∈ mMovedShapes s'
        ↔ shapeID ∈ mMovedShapes s
          ∨ ∃ aabb displacement, (shapeID, aabb, displacement, true) ∈ treeUpdates env calls.
Proof.
  unfold updateProxyShapesComponents, refreshedComponents.
  destruct (updateLoop_spec env components
              (componentsInRange env components
                 (N.min startIndex (getNbEnabledComponents components))
                 (N.min endIndex (getNbEnabledComponents components))) s)
    as (calls & s' & Hrun & Hcalls & Hmoved).
  exists calls, s'. split; [|done].
  rewrite <-Hrun. by destruct (dynamicsWorldTimeStep components).
Qed.

Lemma componentsInRange_elem_of (startIndex endIndex : uint32) (c : ProxyShapeComponent env) :
  c ∈ componentsInRange env components startIndex endIndex →
  ∃ i, array_get (mProxyShapesComponents components) i = Some c
       ∧ startIndex ≤ i < endIndex.
Proof.
  unfold componentsInRange. intros Hin.
  apply list_elem_of_lookup in Hin as [j Hj].
  apply lookup_take_Some in Hj as [Hj Hlt].
  rewrite lookup_drop in Hj.
  exists (N.of_nat (N.to_nat startIndex + j)). split.
  - unfold array_get. by rewrite Nat2N.id.
  - lia.
Qed.

Lemma refreshed_updates (startIndex endIndex : uint32) (calls : list Call) u :
  Forall2 (λ c update, ∃ r, update = expectedUpdate env components c r)
          (refreshedComponents env components startIndex endIndex)
          (treeUpdates env calls) →
  u ∈ treeUpdates env calls →
  ∃ i c r,
    array_get (mProxyShapesComponents components) i = Some c
    ∧ startIndex ≤ i < endIndex
    ∧ i < getNbEnabledComponents components
    ∧ mBroadPhaseId c ≠ (-1)%Z
    ∧ u = expectedUpdate env components c r.
Proof.
  intros Hall Hu.
  apply list_elem_of_lookup in Hu as [j Hj].
  destruct (Forall2_lookup_r _ _ _ _ _ Hall Hj) as (c & Hc & r & ->).
  apply list_elem_of_lookup_2 in Hc.
  unfold refreshedComponents in Hc.
  apply list_elem_of_filter in Hc as [Htracked Hc].
  apply componentsInRange_elem_of in Hc as (i & Hi & Hrange).
  exists i, c, r. split_and!; [done | lia | lia | lia | done | done].
Qed.

(** The call that asks the tree for an update. *)
Definition updateCall (u : int32 * AABB env * Vector3 env * bool) : Call :=
  let '(nodeId, aabb, displacement, hasBeenReInserted) := u in
  CallUpdateObject nodeId aabb displacement hasBeenReInserted.

Lemma updateLoop_calls (timeStep : decimal env) (l : list (ProxyShapeComponent env))
    (s : state) :
  ∀ calls s', forEach env l (updateProxyShapeComponent env components timeStep) s
              = (tt, s', calls) →
    calls = map updateCall (treeUpdates env calls).
Proof.
  revert s. induction l as [|c l IH]; intros s calls s'.
  - simpl. unfold ret. by intros [= <- <-].
  - rewrite forEach_cons.
    destruct (updateProxyShapeComponent env components timeStep c s) as [[[] s1] calls1] eqn:Hc.
    destruct (forEach env l _ s1) as [[[] s2] calls2] eqn:Hl.
    intros [= <- <-]. rewrite treeUpdates_app, map_app, <-(IH s1 calls2 s2 Hl). f_equal.
    unfold updateProxyShapeComponent in Hc. case_bool_decide.
    + unfold updateProxyShapeInternal, mbind, M_bind, bind, updateObject in Hc.
      destruct (tree_updateObject env _ _ _ _) as [tree r].
      destruct r; injection Hc as <- <-; done.
    + unfold ret in Hc. by injection Hc as <- <-.
Qed.
(** X11. [updateProxyShapesComponents] stays inside its range and never
    touches a disabled or an untracked component: the only calls it makes
    are updates of the tree, and every update it asks for is the update of a
    component whose index lies from [startIndex] up to but not including
    [endIndex] and below the number of enabled components, and whose
    broad-phase id is not [-1]. *)
Theorem updateProxyShapesComponents_range (startIndex endIndex : uint32) (s : state) :
  ∃ calls s',
    updateProxyShapesComponents env components startIndex endIndex s = (tt, s', calls)
    ∧ calls = map updateCall (treeUpdates env calls)
    ∧ ∀ u, u ∈ treeUpdates env calls →
        ∃ i c r,
          array_get (mProxyShapesComponents components) i = Some c
          ∧ startIndex ≤ i < endIndex
          ∧ i < getNbEnabledComponents components
          ∧ mBroadPhaseId c ≠ (-1)%Z
          ∧ u = expectedUpdate env components c r.
Proof.
  destruct (updateProxyShapesComponents_run startIndex endIndex s)
    as (calls & s' & Hrun & Hall & _).
  exists calls, s'. split_and!; [done | |].
  - by apply updateLoop_calls in Hrun.
  - intros u. by apply refreshed_updates.
Qed.

(** X12. When the range holds no enabled component, because it starts at or
    beyond the number of enabled components or because it is empty,
    [updateProxyShapesComponents] makes no call and leaves the state as it
    is. *)
Theorem updateProxyShapesComponents_nothing_enabled (startIndex endIndex : uint32) (s : state) :
  getNbEnabledComponents components ≤ startIndex ∨ endIndex ≤ startIndex →
  updateProxyShapesComponents env components startIndex endIndex s = (tt, s, []).
Proof.
  intros Hrange. unfold updateProxyShapesComponents, componentsInRange.
  replace (N.to_nat (N.min endIndex (getNbEnabledComponents components))
           - N.to_nat (N.min startIndex (getNbEnabledComponents components)))%nat
    with 0%nat by lia.
  done.
Qed.

(** X13. After [updateProxyShapesComponents], the next
    [computeOverlappingPairs] asks the tree one overlap query per moved
    shape, and the moved shapes are then exactly the shapes that were moved
    before the update (the entry [-1] apart) and the shapes whose update
    reported a reinsertion; each query is for the fat bound the shape has in
    the tree as the update left it. *)
Theorem update_then_computeOverlappingPairs (startIndex endIndex : uint32) (s : state) :
  ∃ calls1 s1 calls2 s2,
    updateProxyShapesComponents env components startIndex endIndex s = (tt, s1, calls1)
    ∧ computeOverlappingPairs env s1 = (tt, s2, calls2)
    ∧ overlapQueries env calls2
      = map (tree_getFatAABB env (mDynamicAABBTree s1)) (movedShapeIds env s1)
    ∧ (∀ shapeID,
         shapeID ∈ movedShapeIds env s1
         ↔ (shapeID ∈ mMovedShapes s ∧ shapeID ≠ (-1)%Z)
           ∨ ∃ aabb displacement,
               (shapeID, aabb, displacement, true) ∈ treeUpdates env calls1)
    ∧ mMovedShapes s2 = ∅.
Proof.
  destruct (updateProxyShapesComponents_run startIndex endIndex s)
    as (calls1 & s1 & Hrun1 & Hall & Hmoved).
  destruct (computeOverlappingPairs_run s1) as (calls2 & Hrun2 & Hq & _).
  eexists calls1, s1, calls2, _. split_and!; [done | done | done | | done].
  intros shapeID. rewrite movedShapeIds_elem_of, Hmoved. split.
  - intros [[?|?] ?]; [by left | by right].
  - intros [[? ?]|(aabb & d & Hin)]; [by split; [left|] |].
    split; [right; by exists aabb, d|].
    destruct (refreshed_updates _ _ _ _ Hall Hin) as (i & c & r & _ & _ & _ & Htracked & Heq).
    unfold expectedUpdate in Heq. congruence.
Qed.

Lemma componentsInRange_split (a b c : uint32) :
  a ≤ b → b ≤ c →
  componentsInRange env components a c
  = componentsInRange env components a b ++ componentsInRange env components b c.
Proof.
  intros Hab Hbc. unfold componentsInRange.
  replace (N.to_nat c - N.to_nat a)%nat
    with ((N.to_nat b - N.to_nat a) + (N.to_nat c - N.to_nat b))%nat by lia.
  rewrite <-take_take_drop, drop_drop. do 3 f_equal. lia.
Qed.

(** X22. Updates of adjacent ranges compose: updating the components from
    [a] to [b] and then those from [b] to [c] is the same computation, with
    the same calls in the same order and the same final state, as updating
    the components from [a] to [c] at once. *)
Theorem updateProxyShapesComponents_adjacent (a b c : uint32) (s : state) :
  a ≤ b → b ≤ c →
  (updateProxyShapesComponents env components a b;;
   updateProxyShapesComponents env components b c) s
  = updateProxyShapesComponents env components a c s.
Proof.
  intros Hab Hbc. rewrite bind_run. unfold updateProxyShapesComponents.
  rewrite (componentsInRange_split
             (N.min a (getNbEnabledComponents components))
             (N.min b (getNbEnabledComponents components))
             (N.min c (getNbEnabledComponents components))) by lia.
  rewrite forEach_app.
  destruct (forEach env _ _ s) as [[[] s1] calls1].
  by destruct (forEach env _ _ s1) as [[[] s2] calls2].
Qed.

(** X14. [updateProxyShapes] refreshes every enabled component that is
    tracked, each once and in the order of the arrays, and no other: the
    updates it asks of the tree are those of the tracked components among
    the first [getNbEnabledComponents] ones, each with the recomputed bound
    and the step displacement; afterwards a shape is in the moved set exactly
    when it was there before or its update reported a reinsertion. *)
Theorem updateProxyShapes_enabled (s : state) :
  ∃ calls s',
    updateProxyShapes env components s = (tt, s', calls)
    ∧ Forall2 (λ c update, ∃ r, update = expectedUpdate env components c r)
              (filter tracked
                 (take (N.to_nat (getNbEnabledComponents components))
                       (mProxyShapesComponents components)))
              (treeUpdates env calls)
    ∧ ∀ shapeID, shapeID ∈ mMovedShapes s'
        ↔ shapeID ∈ mMovedShapes s
          ∨ ∃ aabb displacement, (shapeID, aabb, displacement, true) ∈ treeUpdates env calls.
Proof.
  destruct (updateProxyShapesComponents_run 0 (getNbEnabledComponents components) s)
    as (calls & s' & Hrun & Hall & Hmoved).
  exists calls, s'. split_and!; [done | | done].
  unfold refreshedComponents, componentsInRange in Hall.
  rewrite N.min_0_l, N.min_id in Hall. simpl in Hall.
  by rewrite Nat.sub_0_r in Hall.
Qed.

Context (mMapEntityToComponentIndex : gmap Entity uint32).

(** X15. [updateProxyShape] refreshes the component of the given entity and
    no other: when the component is enabled and tracked, the call is the
    update of the tree ([updateProxyShapeInternal]) for that component's
    node with its recomputed bound and its step displacement; when the
    component is disabled or untracked, it makes no call and leaves the
    state as it is. *)
Theorem updateProxyShape_single
    (proxyShapeEntity : Entity) (index : uint32) (c : ProxyShapeComponent env) (s : state) :
  mMapEntityToComponentIndex !! proxyShapeEntity = Some index →
  array_get (mProxyShapesComponents components) index = Some c →
  index + 1 < 2 ^ 32 →
  ∃ update,
    updateProxyShape env components mMapEntityToComponentIndex proxyShapeEntity = Some update
    ∧ update s
      = if bool_decide (index < getNbEnabledComponents components ∧ mBroadPhaseId c ≠ (-1)%Z)
        then updateProxyShapeInternal env (mBroadPhaseId c) (worldAABB env components c)
               (stepDisplacement env components (mBodyEntity c)) s
        else (tt, s, []).
Proof.
  intros Hentity Hc Hindex.
  unfold updateProxyShape, Map_at. rewrite Hentity. simpl.
  eexists. split; [done|].
  assert (Hincr : incr32 index = index + 1) by (by apply N.mod_small).
  rewrite Hincr. unfold updateProxyShapesComponents, componentsInRange.
  destruct (decide (index < getNbEnabledComponents components)) as [Henabled|Hdisabled].
  - replace (N.to_nat (N.min (index + 1) (getNbEnabledComponents components))
             - N.to_nat (N.min index (getNbEnabledComponents components)))%nat
      with 1%nat by lia.
    rewrite N.min_l by lia.
    unfold array_get in Hc.
    rewrite (drop_S _ c _ Hc). simpl take.
    rewrite forEach_cons. unfold updateProxyShapeComponent.
    destruct (decide (mBroadPhaseId c ≠ (-1)%Z)) as [Htracked|Huntracked].
    + rewrite !bool_decide_eq_true_2 by done.
      fold (worldAABB env components c).
      replace (if hasDynamicsComponent components (mBodyEntity c) then _ else _)
        with (stepDisplacement env components (mBodyEntity c))
        by (unfold stepDisplacement; by destruct (dynamicsWorldTimeStep components)).
      destruct (updateProxyShapeInternal env _ _ _ s) as [[[] s'] calls].
      simpl. by rewrite app_nil_r.
    + rewrite !bool_decide_eq_false_2 by tauto. done.
  - replace (N.to_nat (N.min (index + 1) (getNbEnabledComponents components))
             - N.to_nat (N.min index (getNbEnabledComponents components)))%nat
      with 0%nat by lia.
    rewrite bool_decide_eq_false_2 by tauto. done.
Qed.

End Update.

(** ** Shapes entering and leaving the broad phase *)

Section Lifecycle.

Context (tree_addObject :
           DynamicAABBTree env → AABB env → ProxyShape → DynamicAABBTree env * int32)
        (tree_removeObject : DynamicAABBTree env → int32 → DynamicAABBTree env).

(** X16. [addProxyCollisionShape] gives the shape the id of the node the
    tree created for it and marks it as moved: when that id is not [-1], the
    next [computeOverlappingPairs] asks the tree an overlap query for the fat
    bound of the new node, besides the queries of the shapes that had moved
    already. *)
Theorem addProxyCollisionShape_then_computeOverlappingPairs
    (proxyShape : ProxyShape) (aabb : AABB env) (s : state)
    (tree' : DynamicAABBTree env) (nodeId : int32) :
  tree_addObject (mDynamicAABBTree s) aabb proxyShape = (tree', nodeId) →
  nodeId ≠ (-1)%Z →
  ∃ proxyShape' calls s2,
    addProxyCollisionShape env tree_addObject proxyShape aabb s
    = (proxyShape', mkState tree' ({[nodeId]} ∪ mMovedShapes s), [])
    ∧ getBroadPhaseId proxyShape' = nodeId
    ∧ getEntity proxyShape' = getEntity proxyShape
    ∧ computeOverlappingPairs env (mkState tree' ({[nodeId]} ∪ mMovedShapes s))
      = (tt, s2, calls)
    ∧ tree_getFatAABB env tree' nodeId ∈ overlapQueries env calls
    ∧ (∀ shapeID, shapeID ∈ mMovedShapes s → shapeID ≠ (-1)%Z →
         tree_getFatAABB env tree' shapeID ∈ overlapQueries env calls)
    ∧ length (overlapQueries env calls)
      = length (movedShapeIds env (mkState tree' ({[nodeId]} ∪ mMovedShapes s))).
Proof.
  intros Hadd Hnode.
  destruct (computeOverlappingPairs_run (mkState tree' ({[nodeId]} ∪ mMovedShapes s)))
    as (calls & Hrun & Hq & _).
  eexists _, calls, _. split_and!; [| | | exact Hrun | | |].
  - unfold addProxyCollisionShape. run_calls. rewrite Hadd. reflexivity.
  - done.
  - done.
  - rewrite Hq. apply list_elem_of_fmap_2, movedShapeIds_elem_of. simpl.
    split; [|done]. apply elem_of_union_l. by apply elem_of_singleton.
  - intros shapeID Hmoved Hne.
    rewrite Hq. apply list_elem_of_fmap_2, movedShapeIds_elem_of. simpl.
    split; [|done]. by apply elem_of_union_r.
  - by rewrite Hq, length_map.
Qed.

(** X17. [removeProxyCollisionShape] untracks the shape, takes its node out
    of the tree and out of the moved set: afterwards the shape's broad-phase
    id is [-1], the removed id is not among the moved shapes, the other
    shapes are moved exactly when they were before, and the next
    [computeOverlappingPairs] asks its overlap queries for these other
    shapes only. *)
Theorem removeProxyCollisionShape_then_computeOverlappingPairs
    (proxyShape : ProxyShape) (s : state) :
  let broadPhaseID := getBroadPhaseId proxyShape in
  let s1 := mkState (tree_removeObject (mDynamicAABBTree s) broadPhaseID)
                    (mMovedShapes s ∖ {[broadPhaseID]}) in
  ∃ proxyShape' calls s2,
    removeProxyCollisionShape env tree_removeObject proxyShape s = (proxyShape', s1, [])
    ∧ getBroadPhaseId proxyShape' = (-1)%Z
    ∧ getEntity proxyShape' = getEntity proxyShape
    ∧ (broadPhaseID ∉ movedShapeIds env s1)
    ∧ (∀ shapeID, shapeID ≠ broadPhaseID →
         (shapeID ∈ movedShapeIds env s1 ↔ shapeID ∈ movedShapeIds env s))
    ∧ computeOverlappingPairs env s1 = (tt, s2, calls)
    ∧ overlapQueries env calls
      = map (tree_getFatAABB env (mDynamicAABBTree s1)) (movedShapeIds env s1).
Proof.
  intros broadPhaseID s1.
  destruct (computeOverlappingPairs_run s1) as (calls & Hrun & Hq & _).
  eexists _, calls, _. split_and!; [| | | | | exact Hrun | done].
  - unfold removeProxyCollisionShape. run_calls. reflexivity.
  - done.
  - done.
  - rewrite movedShapeIds_elem_of. simpl.
    rewrite elem_of_difference, elem_of_singleton. tauto.
  - intros shapeID Hne. rewrite !movedShapeIds_elem_of. simpl.
    rewrite elem_of_difference, elem_of_singleton. tauto.
Qed.

End Lifecycle.

End EntryPoints.

(** The worked example, continued. Adding a leaf gives it the next position
    as its node id. *)
Definition demo_addObject (tree : list (ProxyShape * (Z * Z))) (aabb : Z * Z)
    (proxyShape : ProxyShape) : list (ProxyShape * (Z * Z)) * int32 :=
  (tree ++ [(proxyShape, aabb)], Z.of_nat (length tree)).

(** The entities of the three components of [demo_components]. *)
Definition demo_entities : gmap Entity uint32 := {[10 := 0; 11 := 1; 13 := 2]}.

Lemma updateProxyShapesComponents_nothing_enabled_witness :
  (getNbEnabledComponents demo_components ≤ 3 ∨ 3 ≤ 3)
  ∧ updateProxyShapesComponents demo_env demo_components 3 3 demo_system
    = (tt, demo_system, []).
Proof.
  assert (Hrange : getNbEnabledComponents demo_components ≤ 3 ∨ 3 ≤ 3) by (by right).
  split; [done|].
  exact (updateProxyShapesComponents_nothing_enabled demo_env demo_components 3 3 demo_system
           Hrange).
Defined.

Lemma updateProxyShape_single_witness :
  demo_entities !! 11 = Some 1
  ∧ array_get (mProxyShapesComponents demo_components) 1
    = Some (mkProxyShapeComponent demo_env 1 8 1%Z 0%Z)
  ∧ 1 + 1 < 2 ^ 32
  ∧ ∃ update,
      updateProxyShape demo_env demo_components demo_entities 11 = Some update
      ∧ update demo_system
        = if bool_decide (1 < getNbEnabledComponents demo_components
                          ∧ mBroadPhaseId (mkProxyShapeComponent demo_env 1 8 1%Z 0%Z) ≠ (-1)%Z)
          then updateProxyShapeInternal demo_env
                 (mBroadPhaseId (mkProxyShapeComponent demo_env 1 8 1%Z 0%Z))
                 (worldAABB demo_env demo_components (mkProxyShapeComponent demo_env 1 8 1%Z 0%Z))
                 (stepDisplacement demo_env demo_components
                    (mBodyEntity (mkProxyShapeComponent demo_env 1 8 1%Z 0%Z)))
                 demo_system
          else (tt, demo_system, []).
Proof.
  assert (Hentity : demo_entities !! 11 = Some 1) by (by vm_compute).
  assert (Hc : array_get (mProxyShapesComponents demo_components) 1
               = Some (mkProxyShapeComponent demo_env 1 8 1%Z 0%Z)) by done.
  assert (Hindex : 1 + 1 < 2 ^ 32) by done.
  split_and!; [done..|].
  exact (updateProxyShape_single demo_env demo_components demo_entities 11 1
           (mkProxyShapeComponent demo_env 1 8 1%Z 0%Z) demo_system Hentity Hc Hindex).
Defined.

(** The leaves of [demo_system] and a fourth one. *)
Definition demo_grown : DynamicAABBTree demo_env :=
  mDynamicAABBTree demo_system ++ [(mkProxyShape 13 (-1) 9, (5, 7)%Z)].

Lemma addProxyCollisionShape_then_computeOverlappingPairs_witness :
  demo_addObject (mDynamicAABBTree demo_system) (5, 7)%Z (mkProxyShape 13 (-1) 9)
  = (demo_grown, 3%Z)
  ∧ 3%Z ≠ (-1)%Z
  ∧ ∃ proxyShape' calls s2,
      addProxyCollisionShape demo_env demo_addObject (mkProxyShape 13 (-1) 9) (5, 7)%Z demo_system
      = (proxyShape', mkState demo_grown ({[3%Z]} ∪ mMovedShapes demo_system), [])
      ∧ getBroadPhaseId proxyShape' = 3%Z
      ∧ getEntity proxyShape' = getEntity (mkProxyShape 13 (-1) 9)
      ∧ computeOverlappingPairs demo_env (mkState demo_grown ({[3%Z]} ∪ mMovedShapes demo_system))
        = (tt, s2, calls)
      ∧ tree_getFatAABB demo_env demo_grown 3%Z ∈ overlapQueries demo_env calls
      ∧ (∀ shapeID, shapeID ∈ mMovedShapes demo_system → shapeID ≠ (-1)%Z →
           tree_getFatAABB demo_env demo_grown shapeID ∈ overlapQueries demo_env calls)
      ∧ length (overlapQueries demo_env calls)
        = length (movedShapeIds demo_env
                    (mkState demo_grown ({[3%Z]} ∪ mMovedShapes demo_system))).
Proof.
  assert (Hadd : demo_addObject (mDynamicAABBTree demo_system) (5, 7)%Z (mkProxyShape 13 (-1) 9)
                 = (demo_grown, 3%Z)) by done.
  assert (Hnode : 3%Z ≠ (-1)%Z) by done.
  split_and!; [done..|].
  exact (addProxyCollisionShape_then_computeOverlappingPairs demo_env demo_addObject
           (mkProxyShape 13 (-1) 9) (5, 7)%Z demo_system demo_grown 3%Z Hadd Hnode).
Defined.

Lemma updateProxyShapesComponents_adjacent_witness :
  0 ≤ 1 ∧ 1 ≤ 3
  ∧ (updateProxyShapesComponents demo_env demo_components 0 1;;
     updateProxyShapesComponents demo_env demo_components 1 3) demo_system
    = updateProxyShapesComponents demo_env demo_components 0 3 demo_system.
Proof.
  assert (H01 : 0 ≤ 1) by done. assert (H13 : 1 ≤ 3) by done.
  split_and!; [done..|].
  exact (updateProxyShapesComponents_adjacent demo_env demo_components 0 1 3 demo_system
           H01 H13).
Defined.

(** ** Ray casting *)

Section Raycast.

Context (env : Environment) (Ray : Type)
        (getCollisionCategoryBits : ProxyShape → N)
        (raycastAgainstShape : ProxyShape → Ray → decimal env)
        (decimal_minus_one : decimal env)
        (tree_raycast : DynamicAABBTree env → Ray → RaycastTraversal env Ray).

Local Abbreviation raycastBroadPhaseShape :=
  (raycastBroadPhaseShape env Ray getCollisionCategoryBits raycastAgainstShape
     decimal_minus_one).
Local Abbreviation raycast :=
  (raycast env Ray getCollisionCategoryBits raycastAgainstShape decimal_minus_one tree_raycast).

Lemma runRaycast_tests (traversal : RaycastTraversal env Ray) (tree : DynamicAABBTree env)
    (mask : N) (shape : ProxyShape) (r : Ray) :
  (shape, r) ∈ runRaycast env Ray traversal (raycastBroadPhaseShape tree mask) →
  N.land mask (getCollisionCategoryBits shape) ≠ 0
  ∧ ∃ nodeId, shape = tree_getNodeDataPointer env tree nodeId.
Proof.
  induction traversal as [|nodeId ray next IH]; simpl.
  - by intros ?%elem_of_nil.
  - unfold BroadPhaseSystem.raycastBroadPhaseShape at 1.
    destruct (N.eqb_spec (N.land mask (getCollisionCategoryBits
                (tree_getNodeDataPointer env tree nodeId))) 0) as [Hzero|Hbits]; simpl.
    + apply IH.
    + intros [Hhere|Hlater]%elem_of_cons; [|by eapply IH].
      injection Hhere as -> ->. split; [done | by exists nodeId].
Qed.

(** X23. [raycast] never tests a ray against a shape the category mask
    excludes: every ray cast test it asks of the collision detection is for
    the shape of a node of the tree whose category bits share a bit with the
    mask, whatever leaves the tree visits and in whatever order; with the
    mask zero it asks for no test at all. *)
Theorem raycast_respects_mask (ray : Ray) (raycastWithCategoryMaskBits : N) (s : state env) :
  (∀ shape r,
     (shape, r) ∈ raycast ray raycastWithCategoryMaskBits s →
     N.land raycastWithCategoryMaskBits (getCollisionCategoryBits shape) ≠ 0
     ∧ ∃ nodeId, shape = tree_getNodeDataPointer env (mDynamicAABBTree s) nodeId)
  ∧ raycast ray 0 s = [].
Proof.
  split.
  - intros shape r. apply runRaycast_tests.
  - destruct (raycast ray 0 s) as [|[shape r] tests] eqn:Htests; [done|].
    assert (Hin : (shape, r) ∈ raycast ray 0 s) by (rewrite Htests; apply elem_of_cons; by left).
    apply runRaycast_tests in Hin as [Hbits _]. by rewrite N.land_0_l in Hbits.
Qed.

End Raycast.

End BroadPhaseProperties.
